(** * yamlfig: path language, node model, structural merge and tree rewriting

    A shallow embedding of the node classes of yamlfig
    ([nodes/node.py], [nodes/composed.py], [nodes/dict.py]) together with
    the properties of the path mini-language, of [merge], of [filter_nodes],
    of [map_nodes] and of the node constructor.

    Conventions of the embedding.
    - The node API lives in one namespace object, which the sources call
      [yamlfigns], [ayns] or [node_info] depending on the file; the three
      names denote the same namespace here.  A member of the namespace is
      reached through it ([self.ayns.premerge]); it is not an attribute of
      the node itself.
    - Python exceptions are values of [exn]; a computation that can raise
      returns a [result].
    - Python text is [string]; the path grammar only ever matches ASCII
      characters, any other character behaves as an unmatched one. *)

From Stdlib Require Import ZArith List String Ascii Bool Lia.
From Stdlib Require Import Decimal DecimalString DecimalZ DecimalFacts.
From stdpp Require Import base option list gmap strings.

Import ListNotations.
Local Open Scope Z_scope.
Local Open Scope nat_scope.
Local Open Scope list_scope.

(** ** Exceptions and results *)

Inductive exn : Type :=
| ValueError
| AttributeError
| AssertionError.

Inductive result (A : Type) : Type :=
| Ok (a : A)
| Raise (e : exn).
Arguments Ok {A} a.
Arguments Raise {A} e.

Definition bind_result {A B : Type} (r : result A) (k : A -> result B) : result B :=
  match r with
  | Ok a => k a
  | Raise e => Raise e
  end.

(** A path component: a child name is a [str] or an [int]. *)
Inductive component : Type :=
| Name (s : string)
| Index (z : Z).

#[global] Instance component_eq_dec : EqDecision component.
Proof. solve_decision. Defined.

(** ** The path language ([ComposedNode.split_path], [ComposedNode.join_path]) *)

Module Path.

(** Character classes of [_path_component_regex]. *)
Definition is_digit (c : ascii) : bool :=
  let n := nat_of_ascii c in (48 <=? n) && (n <=? 57).

Definition is_ident (c : ascii) : bool :=
  let n := nat_of_ascii c in
  ((97 <=? n) && (n <=? 122)) || ((65 <=? n) && (n <=? 90))
  || is_digit c || (n =? 95).

Definition dot : ascii := "."%char.
Definition lbracket : ascii := "["%char.
Definition rbracket : ascii := "]"%char.
Definition minus : ascii := "-"%char.
Definition newline : ascii := ascii_of_nat 10.

(** Greedy run of characters satisfying [p], and what follows it. *)
Fixpoint span (p : ascii -> bool) (s : string) : string * string :=
  match s with
  | EmptyString => (EmptyString, EmptyString)
  | String c s' =>
      if p c then let '(run, rest) := span p s' in (String c run, rest)
      else (EmptyString, s)
  end.

Definition is_empty (s : string) : bool :=
  match s with EmptyString => true | _ => false end.

(** What one successful match of the regex reports: the matched text
    ([group(0)]) and the two capture groups. *)
Record groups : Type := mkGroups {
  g_text : string;
  g_name : option string;
  g_index : option string
}.

(** First alternative: [(?:^|(?<=\.)) ([a-zA-Z0-9_]+)].  [prev] is the
    character just before the position, [None] at the start of the text. *)
Definition alt_name (prev : option ascii) (s : string) : option groups :=
  let look :=
    match prev with
    | None => true
    | Some c => Ascii.eqb c dot
    end in
  if look then
    let '(run, _) := span is_ident s in
    if is_empty run then None else Some (mkGroups run (Some run) None)
  else None.

(** Second alternative: [\[ (-?[0-9]+) \]]. *)
Definition alt_index (s : string) : option groups :=
  match s with
  | String c r =>
      if Ascii.eqb c lbracket then
        let '(sign, r1) :=
          match r with
          | String c1 r' =>
              if Ascii.eqb c1 minus then (String minus EmptyString, r') else (EmptyString, r)
          | EmptyString => (EmptyString, r)
          end in
        let '(ds, r2) := span is_digit r1 in
        if is_empty ds then None
        else
          match r2 with
          | String c2 _ =>
              if Ascii.eqb c2 rbracket then
                let lit := String.append sign ds in
                Some (mkGroups (String lbracket (String.append lit (String rbracket EmptyString)))
                               None (Some lit))
              else None
          | EmptyString => None
          end
      else None
  | EmptyString => None
  end.

(** [$] without MULTILINE: the end of the text, or just before a final newline. *)
Definition at_dollar (s : string) : bool :=
  match s with
  | EmptyString => true
  | String c EmptyString => Ascii.eqb c newline
  | _ => false
  end.

Definition starts_with (c : ascii) (s : string) : bool :=
  match s with
  | String c' _ => Ascii.eqb c' c
  | EmptyString => false
  end.

(** Third alternative: [(?<!^) \. (?:(?!$)(?!\.)(?!\[))]. *)
Definition alt_dot (prev : option ascii) (s : string) : option groups :=
  match prev, s with
  | Some _, String c r =>
      if Ascii.eqb c dot
         && negb (at_dollar r) && negb (starts_with dot r) && negb (starts_with lbracket r)
      then Some (mkGroups (String dot EmptyString) None None)
      else None
  | _, _ => None
  end.

(** The regex tried at one position: alternatives in order. *)
Definition match_at (prev : option ascii) (s : string) : option groups :=
  match alt_name prev s with
  | Some g => Some g
  | None =>
      match alt_index s with
      | Some g => Some g
      | None => alt_dot prev s
      end
  end.

(** A match object: [start()], [end()] and the groups. *)
Record rmatch : Type := mkMatch {
  m_start : nat;
  m_end : nat;
  m_groups : groups
}.

(** [finditer]: left-to-right, non-overlapping matches.  The walk is one
    character at a time; [skip] counts the characters still covered by the
    match found last (no alternative matches the empty text, so the engine
    resumes exactly at the end of each match). *)
Fixpoint scan (prev : option ascii) (pos skip : nat) (s : string) : list rmatch :=
  match s with
  | EmptyString => []
  | String c s' =>
      match skip with
      | S k => scan (Some c) (S pos) k s'
      | O =>
          match match_at prev s with
          | Some g =>
              mkMatch pos (pos + String.length (g_text g)) g
                :: scan (Some c) (S pos) (String.length (g_text g) - 1) s'
          | None => scan (Some c) (S pos) 0 s'
          end
      end
  end.

Definition finditer (path_str : string) : list rmatch := scan None 0 0 path_str.

(** The validation loop of [split_path]: [end_] is the variable [end]. *)
Fixpoint validate_loop (end_ : option nat) (ms : list rmatch) : result (option nat) :=
  match ms with
  | [] => Ok end_
  | m :: ms' =>
      if Nat.eqb (m_start m) (match end_ with Some e => e | None => 0 end)
      then validate_loop (Some (m_end m)) ms'
      else Raise ValueError
  end.

(** Python's [int] on the text of the second group, and [str] of an [int]. *)
Definition py_int (lit : string) : option Z :=
  option_map Z.of_int (NilZero.int_of_string lit).

Definition py_str_of_int (z : Z) : string :=
  NilZero.string_of_int (Z.to_int z).

(** Python truth value of a capture group: [None] and the empty text are false. *)
Definition group_truthy (g : option string) : bool :=
  match g with
  | Some t => negb (is_empty t)
  | None => false
  end.

(** One turn of the yielding loop of [split_path]: the component a match
    yields, [None] for a separating dot. *)
Definition component_of_match (m : rmatch) : result (option component) :=
  let g := m_groups m in
  if group_truthy (g_name g) then
    Ok (option_map Name (g_name g))
  else if group_truthy (g_index g) then
    match from_option py_int None (g_index g) with
    | Some z => Ok (Some (Index z))
    | None => Raise ValueError
    end
  else if String.eqb (g_text g) (String dot EmptyString) then Ok None
  else Raise AssertionError.

Fixpoint yield_components (ms : list rmatch) : result (list component) :=
  match ms with
  | [] => Ok []
  | m :: ms' =>
      bind_result (component_of_match m) (fun c =>
      bind_result (yield_components ms') (fun cs =>
      Ok (match c with Some c => c :: cs | None => cs end)))
  end.

(** [split_path(path_str, validate=True)].  The function is a generator:
    the result is what consuming it gives, the components or the exception.
    The specification names the [ValueError] raised here [InvalidPath]. *)
Definition split_path (path_str : string) (validate : bool) : result (list component) :=
  let matches := finditer path_str in
  if validate then
    match validate_loop None matches with
    | Raise e => Raise e
    | Ok end_ =>
        if negb (is_empty path_str)
           && negb (match end_ with
                    | Some e => Nat.eqb e (String.length path_str)
                    | None => false
                    end)
        then Raise ValueError
        else yield_components matches
    end
  else yield_components matches.

(** [_get_child_accessor(childname, myname)]. *)
Definition _get_child_accessor (childname : component) (myname : string) : string :=
  match childname with
  | Index z => String lbracket (String.append (py_str_of_int z) (String rbracket EmptyString))
  | Name n =>
      String.append (if is_empty myname then EmptyString else String dot EmptyString) n
  end.

(** [join_path(path_list)]: the loop, from a value [ret] of the result. *)
Definition join_path_from (ret : string) (path_list : list component) : string :=
  fold_left (fun ret component => String.append ret (_get_child_accessor component ret))
            path_list ret.

Definition join_path (path_list : list component) : string :=
  join_path_from EmptyString path_list.

(** The shape of a list of matches, in the words of the specification: a
    gap between two matches (or before the first one), and the position up
    to which the matches reach. *)
Fixpoint has_gap (from : nat) (ms : list rmatch) : bool :=
  match ms with
  | [] => false
  | m :: ms' => negb (Nat.eqb (m_start m) from) || has_gap (m_end m) ms'
  end.

Fixpoint reach (from : nat) (ms : list rmatch) : nat :=
  match ms with
  | [] => from
  | m :: ms' => reach (m_end m) ms'
  end.

(** An integer literal in the form in which Python prints the integer: no
    leading zero, and no negative zero. *)
Definition zero : ascii := "0"%char.

Definition canonical_literal (lit : string) : bool :=
  match lit with
  | EmptyString => true
  | String c r =>
      if Ascii.eqb c minus then negb (starts_with zero r)
      else
        match r with
        | EmptyString => true
        | String _ _ => negb (Ascii.eqb c zero)
        end
  end.

Definition canonical_match (m : rmatch) : bool :=
  match g_index (m_groups m) with
  | Some lit => canonical_literal lit
  | None => true
  end.

(** Notions used to reason about the walk of [scan]. *)

(** The character before the position reached after reading [t]. *)
Fixpoint last_prev (prev : option ascii) (t : string) : option ascii :=
  match t with
  | EmptyString => prev
  | String c t' => last_prev (Some c) t'
  end.

(** What a successful match at a position looks like. *)
Inductive match_shape (prev : option ascii) (s : string) (g : groups) : Prop :=
| shape_name (run rest : string) (c : ascii) :
    (prev = None \/ prev = Some dot) ->
    s = String.append run rest -> run <> EmptyString ->
    last_prev prev run = Some c -> is_ident c = true ->
    g = mkGroups run (Some run) None ->
    match_shape prev s g
| shape_index (lit rest : string) :
    s = String lbracket (String.append lit (String rbracket rest)) ->
    lit <> EmptyString ->
    g = mkGroups (String lbracket (String.append lit (String rbracket EmptyString)))
                 None (Some lit) ->
    match_shape prev s g
| shape_dot (rest : string) :
    prev <> None ->
    s = String dot rest -> rest <> EmptyString ->
    starts_with dot rest = false -> starts_with lbracket rest = false ->
    g = mkGroups (String dot EmptyString) None None ->
    match_shape prev s g.

Definition pending_text (pend : bool) : string :=
  if pend then String dot EmptyString else EmptyString.

(** The state of the walk between two matches: [acc] is what [join_path]
    has produced from the components so far, [pend] tells that the match
    just before was a separating dot. *)
Definition walk_inv (prev : option ascii) (acc : string) (pend : bool) (s : string) : Prop :=
  if pend then
    prev = Some dot /\ acc <> EmptyString /\ starts_with dot s = false
    /\ starts_with lbracket s = false /\ s <> EmptyString
  else prev <> Some dot /\ (prev = None <-> acc = EmptyString).

End Path.


(** ** Node flags and the properties of [ConfigNode] *)

(** Native (non-node) Python values carried by scalar leaves. *)
Inductive native : Type :=
| NNone
| NBool (b : bool)
| NInt (z : Z)
| NStr (s : string).

(** Python truth value of a native value. *)
Definition native_truth (v : native) : bool :=
  match v with
  | NNone => false
  | NBool b => b
  | NInt z => negb (Z.eqb z 0)
  | NStr s => negb (Path.is_empty s)
  end.

(** The instance attributes set by [ConfigNode.__init__]. *)
Record flags : Type := mkFlags {
  _idx : option Z;
  _priority : option Z;
  _delete : option bool;
  _allow_new : option bool;
  _implicit_delete : option bool;
  _implicit_allow_new : option bool;
  _source_file : option string;
  _metadata : list (string * native)
}.

Definition WEAK : Z := (-1)%Z.
Definition STANDARD : Z := 0%Z.
Definition FORCE : Z := 1%Z.

Definition _default_priority : Z := STANDARD.
Definition _default_delete : bool := false.
Definition _default_allow_new : bool := true.

(** Flags of a node built with no keyword argument. *)
Definition no_flags : flags := mkFlags None None None None None None None [].

Module Flags.

(** The property [priority]. *)
Definition priority (fl : flags) : Z :=
  match _priority fl with
  | None => _default_priority
  | Some p => p
  end.

(** The property [delete]. *)
Definition delete (fl : flags) : bool :=
  match _delete fl with
  | None =>
      match _implicit_delete fl with
      | Some d => d
      | None => _default_delete
      end
  | Some d => d
  end.

(** The property [allow_new]: the explicit [_allow_new] is not read. *)
Definition allow_new (fl : flags) : bool :=
  match _implicit_allow_new fl with
  | Some a => a
  | None => _default_allow_new
  end.

(** The property [explicit_delete]. *)
Definition explicit_delete (fl : flags) : bool :=
  match _delete fl with
  | None => _default_delete
  | Some d => d
  end.

(** [has_priority_over(self, other, if_equal=False)]. *)
Definition has_priority_over (self other : flags) (if_equal : bool) : bool :=
  if Z.eqb (priority self) (priority other) then if_equal
  else Z.gtb (priority self) (priority other).

End Flags.

(** [dir(ConfigDict)]: the names bound in the bodies of [ConfigDict],
    [ComposedNode] and [ConfigNode] (the namespaces [yamlfigns], [ayns] and
    [node_info] among them, and the two methods that [dict.py] defines for
    a namespace), the names that every class has, and the attributes of
    the built-in [dict] and [object], special names included, over the
    versions of Python 3.  The members of a namespace are not attributes
    of the class: the sources reach each of them through the namespace.
    [ConfigDict._set] refuses a child whose name is among
    [dir(type(self))]. *)
Definition class_dir : list string :=
  [ "merge"; "clear"; "setdefault"; "pop"; "popitem"; "update";
    "_set"; "_del"; "_get_value"; "_set_value"; "node_info";
    "set_child"; "remove_child";
    "split_path"; "join_path"; "_get_child_accessor"; "get_list_path";
    "get_str_path"; "maybe_inherit_flags"; "_path_component_regex"; "yamlfigns";
    "WEAK"; "STANDARD"; "FORCE"; "special_metadata_names"; "default_filename";
    "_default_filename"; "_default_priority"; "_default_delete";
    "_default_allow_new"; "ayns";
    "copy"; "fromkeys"; "get"; "items"; "keys"; "values";
    "__class__"; "__class_getitem__"; "__contains__"; "__delattr__"; "__delitem__";
    "__dict__"; "__dir__"; "__doc__"; "__eq__"; "__format__"; "__ge__";
    "__getattr__"; "__getattribute__"; "__getitem__"; "__getstate__"; "__gt__";
    "__hash__"; "__init__"; "__init_subclass__"; "__ior__"; "__iter__"; "__le__";
    "__len__"; "__lt__"; "__module__"; "__ne__"; "__new__"; "__or__";
    "__reduce__"; "__reduce_ex__"; "__repr__"; "__reversed__"; "__ror__";
    "__setattr__"; "__setitem__"; "__sizeof__"; "__str__"; "__subclasshook__";
    "__weakref__"; "__firstlineno__"; "__static_attributes__" ]%string.

(** [name in dir(type(self))]: an [int] name is never an attribute name. *)
Definition shadows_class_attribute (name : component) : bool :=
  match name with
  | Name s => bool_decide (s ∈ class_dir)
  | Index _ => false
  end.

(** ** Trees of nodes: [merge], [filter_nodes], path lookup

    In this module a node is a value: a composed node owns its children.
    This is the situation of a destination tree in which no node object
    occurs twice and which shares no object with the source being merged;
    the in-place updates of [self] then read as the new value of the tree.
    A call that raises reports the state in which it leaves [self]. *)

Module Tree.

#[local] Set Warnings "-register-all".

Inductive node : Type :=
| Scalar (fl : flags) (v : native)
  (** Modelled from the spec: the scalar leaf class ([nodes/scalar.py] is
      not among the sources), a leaf wrapping a native value whose truth
      value is that of the wrapped value. *)
| Dict (fl : flags) (children : list (component * node))
  (** [ConfigDict]: the ordered [_children] of a [ComposedNode]. *).

Definition children : Type := list (component * node).

Definition node_flags (n : node) : flags :=
  match n with
  | Scalar fl _ => fl
  | Dict fl _ => fl
  end.

Definition is_leaf (n : node) : bool :=
  match n with
  | Scalar _ _ => true
  | Dict _ _ => false
  end.

(** [bool(node)]: a [ConfigDict] is a [dict], true when it has an entry. *)
Definition truthy (n : node) : bool :=
  match n with
  | Scalar _ v => native_truth v
  | Dict _ cs => match cs with [] => false | _ => true end
  end.

Definition priority (n : node) : Z := Flags.priority (node_flags n).
Definition delete (n : node) : bool := Flags.delete (node_flags n).
Definition allow_new (n : node) : bool := Flags.allow_new (node_flags n).

Definition has_priority_over (self other : node) (if_equal : bool) : bool :=
  Flags.has_priority_over (node_flags self) (node_flags other) if_equal.

(** [self.premerge], read on a leaf: [premerge] is a member of the
    namespace, which the sources reach as [self.ayns.premerge]; the node
    itself has no attribute of that name. *)
Definition premerge_attribute : result unit := Raise AttributeError.

(** [ConfigNode.merge(self, other)], the method of a leaf (a composed node
    has the [merge] of [ComposedNode] in its namespace): [self], a scalar
    with flags [fl] and value [v], is the incoming node, [other] the node it
    is merged into, [None] when there is none.  The first statement is
    [self.premerge(other)]. *)
Definition ConfigNode_merge (fl : flags) (v : native) (other : option node) : result node :=
  let self := Scalar fl v in
  bind_result premerge_attribute (fun _ =>
  match other with
  | None =>
      if negb (allow_new self) then Raise ValueError else Ok self
  | Some o =>
      if has_priority_over self o false then Ok self else Ok o
  end).

(** *** The ordered dictionary [_children] *)

Fixpoint get_child (cs : children) (name : component) : option node :=
  match cs with
  | [] => None
  | (k, v) :: cs' => if decide (k = name) then Some v else get_child cs' name
  end.

Definition has_child (cs : children) (name : component) : bool :=
  match get_child cs name with Some _ => true | None => false end.

(** Assignment to a key that is present keeps its position. *)
Fixpoint replace_child (name : component) (v : node) (cs : children) : children :=
  match cs with
  | [] => []
  | (k, v') :: cs' =>
      if decide (k = name) then (k, v) :: cs' else (k, v') :: replace_child name v cs'
  end.

(** [self._children[name] = value]. *)
Definition assign_child (name : component) (v : node) (cs : children) : children :=
  if has_child cs name then replace_child name v cs else cs ++ [(name, v)].

(** [remove_child(name)]: [self._children.pop(name, None)], and for a
    [ConfigDict] the deletion of the key from the [dict] itself; every call
    below passes a name that is present. *)
Definition remove_child (name : component) (cs : children) : children :=
  List.filter (fun kv => negb (bool_decide (fst kv = name))) cs.

(** [ConfigDict.set_child], that is [ConfigDict._set]: [ConfigNode(value)]
    is [value] itself for a node. *)
Definition set_child (name : component) (v : node) (cs : children) : result children :=
  if shadows_class_attribute name then Raise ValueError
  else Ok (assign_child name v cs).

(** *** Lookup by path *)

(** [get_node(path)] with the default [incomplete=None]: the node at
    [path], [None] when a component is missing. *)
Fixpoint get_node (self : node) (path : list component) : option node :=
  match path with
  | [] => Some self
  | c :: path' =>
      match self with
      | Dict _ cs =>
          match get_child cs c with
          | Some n => get_node n path'
          | None => None
          end
      | Scalar _ _ => None
      end
  end.

(** [get_first_not_missing_node(path)]: the last node reached before the
    first missing component. *)
Fixpoint get_first_not_missing_node (self : node) (path : list component) : node :=
  match path with
  | [] => self
  | c :: path' =>
      match self with
      | Dict _ cs =>
          match get_child cs c with
          | Some n => get_first_not_missing_node n path'
          | None => self
          end
      | Scalar _ _ => self
      end
  end.

(** *** [filter_nodes] *)

Section FilterLoop.
Variable condition : list component -> node -> bool.
Variable prefix : list component.
(** The recursive call [child.yamlfigns.filter_nodes(condition, prefix=child_path)]. *)
Variable filter_child : list component -> node -> node.

(** The first loop of [filter_nodes]: composed children are filtered in
    place, and the names to delete are collected in [to_del]. *)
Fixpoint filter_loop (cs : children) : children * list component :=
  match cs with
  | [] => ([], [])
  | (name, child) :: cs' =>
      let child_path := prefix ++ [name] in
      let keep0 := condition child_path child in
      let '(child1, keep) :=
        match child with
        | Scalar _ _ => (child, keep0)
        | Dict _ _ =>
            let possibly_new_child := filter_child child_path child in
            (possibly_new_child, keep0 && truthy possibly_new_child)
        end in
      let '(cs1, to_del) := filter_loop cs' in
      ((name, child1) :: cs1, if keep then to_del else name :: to_del)
  end.
End FilterLoop.

(** The second loop: [for name in reversed(to_del): remove_child(name)]. *)
Definition remove_children (to_del : list component) (cs : children) : children :=
  fold_left (fun cs name => remove_child name cs) (rev to_del) cs.

(** [filter_nodes(condition, prefix)]; it returns [self], so the list
    [to_re_set] stays empty. *)
Fixpoint filter_nodes (condition : list component -> node -> bool)
    (prefix : list component) (self : node) {struct self} : node :=
  match self with
  | Scalar _ _ => self
  | Dict fl cs =>
      let '(cs1, to_del) := filter_loop condition prefix (filter_nodes condition) cs in
      Dict fl (remove_children to_del cs1)
  end.

Definition node_children (n : node) : children :=
  match n with
  | Dict _ cs => cs
  | Scalar _ _ => []
  end.

(** The value of [keep] at the end of a turn of the first loop of
    [filter_nodes], for the child [child] named [name]. *)
Definition keeps (condition : list component -> node -> bool)
    (prefix : list component) (name : component) (child : node) : bool :=
  condition (prefix ++ [name]) child
  && (is_leaf child || truthy (filter_nodes condition (prefix ++ [name]) child)).

(** The names collected in [to_del]. *)
Definition rejected (condition : list component -> node -> bool)
    (prefix : list component) (cs : children) : list component :=
  map fst (List.filter (fun kv => negb (keeps condition prefix (fst kv) (snd kv))) cs).

(** *** [ComposedNode.merge] *)

(** The outcome of a call that updates [self] in place: the state of
    [self] when the call returns, or when an exception leaves it. *)
Inductive outcome (S : Type) : Type :=
| Returned (s : S)
| Raised (e : exn) (s : S).
Arguments Returned {S} s.
Arguments Raised {S} e s.

Definition final_state {S : Type} (o : outcome S) : S :=
  match o with
  | Returned s => s
  | Raised _ s => s
  end.

Definition outcome_map {S T : Type} (f : S -> T) (o : outcome S) : outcome T :=
  match o with
  | Returned s => Returned (f s)
  | Raised e s => Raised e (f s)
  end.

(** A step that either replaces the children or raises before any update. *)
Definition lift_result (cs : children) (r : result children) : outcome children :=
  match r with
  | Ok cs' => Returned cs'
  | Raise e => Raised e cs
  end.

(** The closure [maybe_keep] of [merge]. *)
Definition maybe_keep (other : node) (path : list component) (n : node) : bool :=
  if match get_node other path with Some m => truthy m | None => false end then true
  else has_priority_over n (get_first_not_missing_node other path) false.

(** The branch of [merge] taken when the children were not merged
    structurally: the priority comparison. *)
Definition merge_by_priority (key : component) (child value : node) (cs : children)
  : outcome children :=
  if has_priority_over value child true then
    if negb (truthy value) && delete value then Returned (remove_child key cs)
    else lift_result cs (set_child key value cs)
  else Returned cs.

Section MergeLoop.
(** The recursive call [child.yamlfigns.merge(value)]. *)
Variable merge_child : node -> node -> outcome node.

(** One turn of the loop of [merge] over [other._children.items()]. *)
Definition merge_step (key : component) (value : node) (scs : children) : outcome children :=
  match get_child scs key with
  | None => lift_result scs (set_child key value scs)
  | Some child =>
      if is_leaf child then merge_by_priority key child value scs
      else
        match merge_child child value with
        | Returned possibly_new_child =>
            let scs1 := replace_child key possibly_new_child scs in
            if negb (truthy possibly_new_child)
               && negb (has_priority_over possibly_new_child value false)
            then Returned (remove_child key scs1)
            else Returned scs1
        | Raised AttributeError child1 =>
            merge_by_priority key child1 value (replace_child key child1 scs)
        | Raised e child1 => Raised e (replace_child key child1 scs)
        end
  end.

Fixpoint merge_loop (ocs : children) (scs : children) {struct ocs} : outcome children :=
  match ocs with
  | [] => Returned scs
  | (key, value) :: ocs' =>
      match merge_step key value scs with
      | Returned scs1 => merge_loop ocs' scs1
      | Raised e scs1 => Raised e scs1
      end
  end.
End MergeLoop.

(** The pruning of [merge]: [self.yamlfigns.filter_nodes(maybe_keep)] when
    [other.yamlfigns.delete] holds. *)
Definition prune (self other : node) : node :=
  if delete other then filter_nodes (maybe_keep other) [] self else self.

(** [ComposedNode.merge]: [self.yamlfigns.merge(other)].  [premerge] maps
    [on_premerge] over [other]; it returns every node unchanged and updates
    nothing.  A leaf [other] has neither [_children] nor [get_node]: the
    call raises [AttributeError] before any update of [self].  The method
    belongs to composed nodes; the case of a leaf [self] is not reached. *)
Fixpoint merge (self other : node) {struct other} : outcome node :=
  match other with
  | Scalar _ _ => Raised AttributeError self
  | Dict _ ocs =>
      match prune self other with
      | Scalar _ _ => Raised AttributeError self
      | Dict fl pruned => outcome_map (Dict fl) (merge_loop merge ocs pruned)
      end
  end.

(** [self[name].is_leaf] in [ConfigDict.merge]: a plain attribute of the
    child, not the property [is_leaf] of the namespace.  A leaf has no
    attribute of that name; on a [ConfigDict] the lookup falls back to
    [__getattr__], which returns the child named [is_leaf] when there is one
    and raises [AttributeError] otherwise. *)
Definition is_leaf_attribute (child : node) : result node :=
  match child with
  | Scalar _ _ => Raise AttributeError
  | Dict _ ccs =>
      match get_child ccs (Name "is_leaf") with
      | Some n => Ok n
      | None => Raise AttributeError
      end
  end.

Section ConfigDictMergeLoop.
(** The recursive call [self[name].merge(value)]. *)
Variable merge_child : node -> node -> outcome node.

Definition ConfigDict_merge_step (name : component) (value : node) (scs : children)
  : outcome children :=
  match get_child scs name with
  | Some child =>
      match is_leaf_attribute child with
      | Raise e => Raised e scs
      | Ok attr =>
          if negb (truthy attr) then
            match merge_child child value with
            | Returned child1 => Returned (replace_child name child1 scs)
            | Raised e child1 => Raised e (replace_child name child1 scs)
            end
          else lift_result scs (set_child name value scs)
      end
  | None => lift_result scs (set_child name value scs)
  end.

Fixpoint ConfigDict_merge_loop (ocs : children) (scs : children) {struct ocs}
  : outcome children :=
  match ocs with
  | [] => Returned scs
  | (name, value) :: ocs' =>
      match ConfigDict_merge_step name value scs with
      | Returned scs1 => ConfigDict_merge_loop ocs' scs1
      | Raised e scs1 => Raised e scs1
      end
  end.
End ConfigDictMergeLoop.

(** [ConfigDict.merge], the plain method of [dict.py]; [other.items()]
    needs a mapping. *)
Fixpoint ConfigDict_merge (self other : node) {struct other} : outcome node :=
  match other, self with
  | Dict _ ocs, Dict fl scs =>
      outcome_map (Dict fl) (ConfigDict_merge_loop ConfigDict_merge ocs scs)
  | _, _ => Raised AttributeError self
  end.

(** A dictionary has each key once. *)
Fixpoint keys_unique (cs : children) : bool :=
  match cs with
  | [] => true
  | (k, _) :: cs' => negb (has_child cs' k) && keys_unique cs'
  end.

Fixpoint well_formed (n : node) : bool :=
  match n with
  | Scalar _ _ => true
  | Dict _ cs => keys_unique cs && forallb (fun kv => let '(_, c) := kv in well_formed c) cs
  end.

(** *** Inputs of the examples *)

(** Flags of a node tagged [!del], and of a node of given priority. *)
Definition del_flags : flags := mkFlags None None (Some true) None None None None [].
Definition priority_flags (p : Z) : flags := mkFlags None (Some p) None None None None None [].

(** Flags of a node that may not create a new entry: the explicit flag and
    the inherited one are both false. *)
Definition not_new_flags : flags :=
  mkFlags None None None (Some false) None (Some false) None [].

(** A condition that accepts the one path [a.b]. *)
Definition only_a_b (path : list component) (_ : node) : bool :=
  bool_decide (path = [Name "a"; Name "b"]).

End Tree.

(** ** Nodes as objects: identity, the constructor, [map_nodes], [evaluate]

    In this module a node is an object of a heap, known by its address (its
    [id]); a composed node holds the addresses of its children, so that two
    slots can hold the identical object, and an update of an object is seen
    through every slot that holds it. *)

Module Heap.

(** An address is the [id] of an object. *)
Abbreviation addr := nat (only parsing).

Inductive body : Type :=
| BScalar (v : native)
  (** Modelled from the spec: the scalar leaf class ([nodes/scalar.py] is
      not among the sources), a leaf wrapping a native value. *)
| BDict (children : list (component * addr))
  (** [ConfigDict]: the ordered [_children]. *).

Record obj : Type := mkObj {
  o_flags : flags;
  o_body : body
}.

Abbreviation heap := (list obj) (only parsing).

(** A Python value handed to the constructor or returned by a transform: a
    node, or a native value. *)
Inductive pyobj : Type :=
| PNode (a : addr)
| PNative (v : native).

(** [x is child]. *)
Definition is_same (x : pyobj) (child : addr) : bool :=
  match x with
  | PNode a => Nat.eqb a child
  | PNative _ => false
  end.

(** The keyword arguments of a constructor call: for each name, whether it
    was passed, and with what value. *)
Record kwargs : Type := mkKwargs {
  kw_idx : option (option Z);
  kw_priority : option (option Z);
  kw_delete : option (option bool);
  kw_allow_new : option (option bool);
  kw_metadata : option (list (string * native));
  kw_source_file : option (option string);
  kw_implicit_delete : option (option bool);
  kw_implicit_allow_new : option (option bool)
}.

Definition no_kwargs : kwargs := mkKwargs None None None None None None None None.

(** The loop over [_kwargs_to_inherit] in [ConfigNodeMeta.__call__]:
    [priority], [implicit_delete] and [implicit_allow_new] are set on the
    node when they were passed. *)
Definition inherit_kwargs (kw : kwargs) (fl : flags) : flags :=
  mkFlags (_idx fl)
          (match kw_priority kw with Some p => p | None => _priority fl end)
          (_delete fl)
          (_allow_new fl)
          (match kw_implicit_delete kw with Some d => d | None => _implicit_delete fl end)
          (match kw_implicit_allow_new kw with Some a => a | None => _implicit_allow_new fl end)
          (_source_file fl)
          (_metadata fl).

(** [ConfigNode.__init__]: the flags of a new node. *)
Definition init_flags (kw : kwargs) : result flags :=
  let priority := default None (kw_priority kw) in
  if bool_decide (priority ∈ [None; Some STANDARD; Some WEAK; Some FORCE]) then
    Ok (mkFlags (default None (kw_idx kw)) priority
                (default None (kw_delete kw)) (default None (kw_allow_new kw))
                (default None (kw_implicit_delete kw))
                (default None (kw_implicit_allow_new kw))
                (default None (kw_source_file kw))
                (default [] (kw_metadata kw)))
  else Raise ValueError.

Definition set_flags (fl : flags) (o : obj) : obj := mkObj fl (o_body o).

(** [ConfigNode(value, **kwargs)]: the call of the metaclass with [cls]
    being [ConfigNode], no [nodes_memo] and no [_force_type].  A node is
    returned as it is, after the loop over [_kwargs_to_inherit]; a native
    value is deduced to be a scalar, for which a new object is made. *)
Definition ConfigNode_call (h : heap) (value : pyobj) (kw : kwargs) : result (addr * heap) :=
  match value with
  | PNode v => Ok (v, alter (fun o => set_flags (inherit_kwargs kw (o_flags o)) o) v h)
  | PNative n =>
      bind_result (init_flags kw) (fun fl =>
      Ok (List.length h, h ++ [mkObj fl (BScalar n)]))
  end.

(** *** Children of an object *)

Fixpoint get_child (cs : list (component * addr)) (name : component) : option addr :=
  match cs with
  | [] => None
  | (k, v) :: cs' => if decide (k = name) then Some v else get_child cs' name
  end.

Fixpoint replace_child (name : component) (v : addr) (cs : list (component * addr))
  : list (component * addr) :=
  match cs with
  | [] => []
  | (k, v') :: cs' =>
      if decide (k = name) then (k, v) :: cs' else (k, v') :: replace_child name v cs'
  end.

(** [self._children[name] = value]. *)
Definition assign_child (name : component) (v : addr) (cs : list (component * addr))
  : list (component * addr) :=
  match get_child cs name with
  | Some _ => replace_child name v cs
  | None => cs ++ [(name, v)]
  end.

Definition children_of (h : heap) (a : addr) : option (list (component * addr)) :=
  match h !! a with
  | Some (mkObj _ (BDict cs)) => Some cs
  | _ => None
  end.

(** The child of the object [a] named [name]. *)
Definition child_of (h : heap) (a : addr) (name : component) : option addr :=
  match children_of h a with
  | Some cs => get_child cs name
  | None => None
  end.

Definition set_children (cs : list (component * addr)) (o : obj) : obj :=
  match o_body o with
  | BDict _ => mkObj (o_flags o) (BDict cs)
  | BScalar _ => o
  end.

(** [ConfigDict.set_child(name, value)], that is [ConfigDict._set]. *)
Definition set_child (h : heap) (self : addr) (name : component) (value : pyobj)
  : result heap :=
  if shadows_class_attribute name then Raise ValueError
  else
    bind_result (ConfigNode_call h value no_kwargs) (fun '(v, h1) =>
    Ok (alter (fun o => match o_body o with
                        | BDict cs => set_children (assign_child name v cs) o
                        | BScalar _ => o
                        end) self h1)).

(** [get_node(path)] from the object [a]. *)
Fixpoint get_node (h : heap) (a : addr) (path : list component) : option addr :=
  match path with
  | [] => Some a
  | c :: path' =>
      match child_of h a c with
      | Some b => get_node h b path'
      | None => None
      end
  end.

(** *** [map_nodes] *)

(** What a call leaves behind: the heap, the dictionary [cache] shared by
    the calls of one pass, and the record of the nodes the transform was
    applied to (latest first). *)
Record state : Type := mkState {
  st_heap : heap;
  st_cache : gmap addr pyobj;
  st_calls : list addr
}.

Definition init_state (h : heap) : state := mkState h ∅ [].

(** [cache[persistent_id(child)] = possibly_new_child].  Modelled from the
    spec: [persistent_id], of [utils.py], is the identity [id] of the object. *)
Definition cache_put (child : addr) (x : pyobj) (st : state) : state :=
  mkState (st_heap st) (<[child := x]> (st_cache st)) (st_calls st).

Inductive run (A : Type) : Type :=
| OutOfFuel
| Raises (e : exn) (st : state)
| Returns (a : A) (st : state).
Arguments OutOfFuel {A}.
Arguments Raises {A} e st.
Arguments Returns {A} a st.

Section MapNodes.
(** The transform: a function of the path and of the node, which may
    read the heap; its result is a node or a native value. *)
Variable map_fn : heap -> list component -> addr -> pyobj.
Variable cache_results : bool.
Variable leafs_only : bool.

Definition apply_fn (path : list component) (a : addr) (st : state) : run pyobj :=
  Returns (map_fn (st_heap st) path a)
          (mkState (st_heap st) (st_cache st) (a :: st_calls st)).

Section Loop.
(** The recursive call [child.yamlfigns.map_nodes(...)]. *)
Variable map_child : addr -> list component -> state -> run pyobj.
Variable prefix : list component.

(** One child of the first loop of [map_nodes]: the value of
    [possibly_new_child]. *)
Definition visit_child (name : component) (child : addr) (st : state) : run pyobj :=
  match (if cache_results then st_cache st !! child else None) with
  | Some cached => Returns cached st
  | None =>
      let child_path := prefix ++ [name] in
      match st_heap st !! child with
      | Some (mkObj _ (BDict _)) => map_child child child_path st
      | Some (mkObj _ (BScalar _)) => apply_fn child_path child st
      | None => Raises AttributeError st
      end
  end.

Fixpoint map_children (cs : list (component * addr))
    (to_re_set : list (component * pyobj)) (st : state)
  : run (list (component * pyobj)) :=
  match cs with
  | [] => Returns to_re_set st
  | (name, child) :: cs' =>
      match visit_child name child st with
      | Returns possibly_new_child st1 =>
          let to_re_set1 :=
            if is_same possibly_new_child child then to_re_set
            else to_re_set ++ [(name, possibly_new_child)] in
          let st2 :=
            if cache_results then cache_put child possibly_new_child st1 else st1 in
          map_children cs' to_re_set1 st2
      | Raises e st1 => Raises e st1
      | OutOfFuel => OutOfFuel
      end
  end.
End Loop.

(** The second loop: [for name, child in to_re_set: set_child(name, child)]. *)
Fixpoint re_set (self : addr) (to_re_set : list (component * pyobj)) (st : state)
  : run unit :=
  match to_re_set with
  | [] => Returns tt st
  | (name, child) :: rest =>
      match set_child (st_heap st) self name child with
      | Ok h1 => re_set self rest (mkState h1 (st_cache st) (st_calls st))
      | Raise e => Raises e st
      end
  end.

(** [self.yamlfigns.map_nodes(map_fn, prefix, cache_results, cache, leafs_only)];
    [fuel] bounds the depth of the recursion. *)
Fixpoint map_nodes (fuel : nat) (self : addr) (prefix : list component) (st : state)
  : run pyobj :=
  match fuel with
  | O => OutOfFuel
  | S fuel' =>
      match children_of (st_heap st) self with
      | None => Raises AttributeError st
      | Some cs =>
          match map_children (map_nodes fuel') prefix cs [] st with
          | Returns to_re_set st1 =>
              match re_set self to_re_set st1 with
              | Returns _ st2 =>
                  if leafs_only then Returns (PNode self) st2
                  else apply_fn prefix self st2
              | Raises e st2 => Raises e st2
              | OutOfFuel => OutOfFuel
              end
          | Raises e st1 => Raises e st1
          | OutOfFuel => OutOfFuel
          end
      end
  end.
End MapNodes.

(** *** Evaluation *)

(** [on_evaluate(path, ctx)]: the default returns [self.value], which is
    [_get_value()]; [ConfigDict._get_value] returns [self], and a scalar
    (modelled from the spec) gives the native value it wraps. *)
Definition on_evaluate (h : heap) (path : list component) (a : addr) : pyobj :=
  match h !! a with
  | Some (mkObj _ (BScalar v)) => PNative v
  | _ => PNode a
  end.

(** [evaluate_node(path, root)], with its two assertions. *)
Definition evaluate_node (h : heap) (path : list component) (a : addr) : result native :=
  match on_evaluate h path a with
  | PNode _ => Raise AssertionError
  | PNative v => Ok v
  end.

(** [ComposedNode.evaluate], [premerge] and [preprocess] are passes of
    [map_nodes] with [cache_results=True] and [leafs_only=False]. *)
Definition evaluate (fuel : nat) (h : heap) (root : addr) : run pyobj :=
  map_nodes on_evaluate true false fuel root [] (init_state h).

(** *** Well-formed heaps, and notions used to reason about a pass *)

Fixpoint keys_unique (cs : list (component * addr)) : bool :=
  match cs with
  | [] => true
  | (k, _) :: cs' =>
      match get_child cs' k with Some _ => false | None => true end && keys_unique cs'
  end.

(** Every dictionary of the heap has each key once. *)
Definition dicts_well_formed (h : heap) : Prop :=
  forall a cs, children_of h a = Some cs -> keys_unique cs = true.

(** No node is its own descendant: children have a smaller rank. *)
Definition acyclic (rank : addr -> nat) (h : heap) : Prop :=
  forall a cs name c, children_of h a = Some cs -> In (name, c) cs -> rank c < rank a.

(** Every child is an object of the heap. *)
Definition closed (h : heap) : Prop :=
  forall a cs name c, children_of h a = Some cs -> In (name, c) cs -> is_Some (h !! c).

(** No child is named like an attribute of the class, so that [set_child]
    accepts every name in use. *)
Definition no_shadowing (h : heap) : Prop :=
  forall a cs name c, children_of h a = Some cs -> In (name, c) cs ->
                      shadows_class_attribute name = false.

(** The transform returns nodes. *)
Definition returns_nodes (map_fn : heap -> list component -> addr -> pyobj) : Prop :=
  forall h path a, exists b, map_fn h path a = PNode b.

(** The entries of [to_re_set] after the first loop has visited [cs]. *)
Definition re_set_of (c : gmap addr pyobj) (cs : list (component * addr))
  : list (component * pyobj) :=
  flat_map (fun '(n, x) =>
              match c !! x with
              | Some r => if is_same r x then [] else [(n, r)]
              | None => []
              end) cs.

(** The children after the second loop. *)
Definition apply_assigns (trs : list (component * pyobj)) (cs : list (component * addr))
  : list (component * addr) :=
  fold_left (fun cs '(n, x) =>
               match x with
               | PNode v => assign_child n v cs
               | PNative _ => cs
               end) trs cs.

Section PassInvariants.
Variable rank : addr -> nat.
(** The heap in which the pass starts. *)
Variable h0 : heap.

Definition cached (st : state) (a : addr) : Prop := is_Some (st_cache st !! a).

(** A node that is not cached yet has the children it started with. *)
Definition uncached_unchanged (st : state) : Prop :=
  forall a, st_cache st !! a = None -> children_of (st_heap st) a = children_of h0 a.

Definition cache_of_nodes (st : state) : Prop :=
  forall a r, st_cache st !! a = Some r -> exists b, r = PNode b.

(** Each slot of [d] holds the cached replacement of the child it
    started with. *)
Definition slots_replaced (st : state) (d : addr) : Prop :=
  forall cs n x, children_of h0 d = Some cs -> get_child cs n = Some x ->
    exists r, st_cache st !! x = Some (PNode r) /\ child_of (st_heap st) d n = Some r.

Definition cached_slots_replaced (st : state) : Prop :=
  forall d, cached st d -> slots_replaced st d.

(** The transform was applied once to each recorded node, and each of
    them is cached, but for the node [except] whose call just returned. *)
Definition calls_cached (except : option addr) (st : state) : Prop :=
  NoDup (st_calls st)
  /\ forall a, a ∈ st_calls st -> Some a = except \/ cached st a.

(** The cache only grows, by nodes of rank below [bound]. *)
Definition grows (bound : nat) (st st' : state) : Prop :=
  (forall a r, st_cache st !! a = Some r -> st_cache st' !! a = Some r)
  /\ (forall a, st_cache st !! a = None -> cached st' a -> rank a < bound).

(** The children of a node that was cached before, or is not cached
    after, are untouched. *)
Definition frame (except : option addr) (st st' : state) : Prop :=
  forall a, Some a <> except ->
            cached st a \/ st_cache st' !! a = None ->
            children_of (st_heap st') a = children_of (st_heap st) a.

(** The heap of a state still has every object of the initial heap. *)
Definition present (st : state) : Prop :=
  forall a, is_Some (h0 !! a) -> is_Some (st_heap st !! a).

(** What holds between two children of the first loop of [map_nodes]
    running on [self]. *)
Definition loop_invariant (self : addr) (st : state) : Prop :=
  st_cache st !! self = None
  /\ uncached_unchanged st /\ cache_of_nodes st
  /\ cached_slots_replaced st /\ calls_cached None st.

(** What holds when [map_nodes] on [self], started in [st], returns [ret]
    in [st']. *)
Definition pass_post (self : addr) (st : state) (ret : pyobj) (st' : state) : Prop :=
  (exists b, ret = PNode b)
  /\ grows (rank self) st st' /\ frame (Some self) st st'
  /\ cache_of_nodes st' /\ slots_replaced st' self
  /\ cached_slots_replaced st' /\ calls_cached (Some self) st'.
End PassInvariants.

(** *** Observations of a run, and inputs of the examples *)

(** The part of a run that the claims look at. *)
Definition final_heap (r : run pyobj) : heap :=
  match r with
  | Returns _ st => st_heap st
  | Raises _ st => st_heap st
  | OutOfFuel => []
  end.

Definition final_calls (r : run pyobj) : list addr :=
  match r with
  | Returns _ st => st_calls st
  | Raises _ st => st_calls st
  | OutOfFuel => []
  end.

Definition returned (r : run pyobj) : option pyobj :=
  match r with
  | Returns x _ => Some x
  | _ => None
  end.

(** A heap with the one node [ConfigScalar(5)], and the keyword arguments
    [delete=True, allow_new=False]. *)
Definition one_scalar : heap := [mkObj no_flags (BScalar (NInt 5))].
Definition kw_delete_not_new : kwargs :=
  mkKwargs None None (Some (Some true)) (Some (Some false)) None None None None.

(** A dictionary whose keys [a] and [b] hold the identical leaf. *)
Definition shared_leaf : heap :=
  [mkObj no_flags (BDict [(Name "a", 1); (Name "b", 1)]);
   mkObj no_flags (BScalar (NInt 5))].

(** The transform that returns every node as it is. *)
Definition keep_node (_ : heap) (_ : list component) (a : addr) : pyobj := PNode a.

(** A rank for [shared_leaf]: the root above its leaf. *)
Definition root_rank (a : addr) : nat := match a with 0 => 1 | _ => 0 end.

End Heap.

(** ** The forms of a path ([get_list_path], [get_str_path]) *)

Module PathForms.
Import Path.

Fixpoint all_chars (p : ascii -> bool) (s : string) : bool :=
  match s with
  | EmptyString => true
  | String c s' => p c && all_chars p s'
  end.

(** A name that the first alternative of the regex matches whole:
    [[a-zA-Z0-9_]+]. *)
Definition identifier (n : string) : bool :=
  negb (is_empty n) && all_chars is_ident n.

Definition plain (c : component) : bool :=
  match c with
  | Name n => identifier n
  | Index _ => true
  end.

(** What the callers pass as a path: nothing or [None], one [int], one
    [str], or a sequence of [str] and [int] (also given as several
    positional arguments).  For these the check of the element types
    passes. *)
Inductive pathlike : Type :=
| PNone
| PInt (z : Z)
| PStr (s : string)
| PSeq (cs : list component).

(** [get_list_path] for one argument: an [int] stays the one element of the tuple of
    arguments, a [str] is split (with validation), a sequence is returned
    as it is. *)
Definition get_list_path (path : pathlike) : result (list component) :=
  match path with
  | PNone => Ok []
  | PInt z => Ok [Index z]
  | PStr s => split_path s true
  | PSeq cs => Ok cs
  end.

(** [get_str_path] for one argument. *)
Definition get_str_path (path : pathlike) : string :=
  match path with
  | PNone => EmptyString
  | PInt z => _get_child_accessor (Index z) EmptyString
  | PSeq cs => join_path cs
  | PStr s => s
  end.

(** The text [join_path] builds, read from the left: [first] tells that
    nothing was produced yet. *)
Fixpoint render (first : bool) (cs : list component) : string :=
  match cs with
  | [] => EmptyString
  | Name n :: cs' =>
      String.append (if first then EmptyString else String dot EmptyString)
                    (String.append n (render false cs'))
  | Index z :: cs' =>
      String lbracket (String.append (py_str_of_int z) (String rbracket (render false cs')))
  end.

End PathForms.
(** ** Lookup with its modes, removal, renaming and enumeration
    ([get_node], [get_first_not_missing_node], [remove_node],
    [rename_child], [nodes_with_paths]) *)

Module Nav.
Import Tree.

(** The argument [incomplete] of [get_node]: [None], or a value that is
    false, or a value that is true. *)
Inductive incomplete_arg : Type :=
| INone
| IFalse
| ITrue.

(** An element of the list [ret] of [get_node]: the node (or [None]) on
    its own, or, with [names], the tuple [(node, name, path)]. *)
Inductive item : Type :=
| Bare (child : option node)
| Named (child : option node) (name : option component) (path : list component).

(** [_get_node(n)] of [get_first_not_missing_node]: the node of an element. *)
Definition item_node (it : item) : option node :=
  match it with
  | Bare child => child
  | Named child _ _ => child
  end.

(** The first call [_add(self, None)], on the empty [ret]. *)
Definition self_item (names : bool) (self : node) : item :=
  if names then Named (Some self) None [] else Bare (Some self).

(** The closure [_add(child, name)] on a [ret] that has an element. *)
Definition _add (names : bool) (ret : list item) (child : option node) (name : component)
  : list item :=
  if names then
    let path :=
      match last ret with
      | Some (Named _ _ p) => p ++ [name]
      | _ => []
      end in
    ret ++ [Named child (Some name) path]
  else ret ++ [Bare child].

(** The loop of [get_node] over the components: the list [ret] and the
    flag [found] when it ends. *)
Fixpoint get_node_loop (names : bool) (node : node) (path : list component)
    (ret : list item) : list item * bool :=
  match path with
  | [] => (ret, true)
  | component :: path' =>
      match match node with
            | Dict _ cs => get_child cs component
            | Scalar _ _ => None
            end with
      | None => (_add names ret None component, false)
      | Some n => get_node_loop names n path' (_add names ret (Some n) component)
      end
  end.

(** What [get_node] returns: the list [ret], or its last element. *)
Inductive answer : Type :=
| Items (ret : list item)
| One (it : item).

(** The ways [get_node] ends: a result, [None], or [KeyError]. *)
Inductive get_node_result : Type :=
| Found (a : answer)
| Missing
| KeyError.

(** [ret[-1]]; [ret] always has the element of [self]. *)
Definition last_item (names : bool) (self : node) (ret : list item) : item :=
  List.last ret (self_item names self).

(** [get_node(path, intermediate, names, incomplete)]. *)
Definition get_node (self : node) (path : list component)
    (intermediate names : bool) (incomplete : incomplete_arg) : get_node_result :=
  let '(ret, found) := get_node_loop names self path [self_item names self] in
  match found, incomplete with
  | false, INone => Missing
  | false, IFalse => KeyError
  | _, _ => Found (if intermediate then Items ret else One (last_item names self ret))
  end.

(** [nodes[-1] is self], which the assertion of
    [get_first_not_missing_node] evaluates only when [nodes] has the one
    element added for [self]: that element is [self] unless it is a tuple. *)
Definition is_self (it : item) : bool :=
  match it with
  | Bare (Some _) => true
  | _ => false
  end.

(** [get_first_not_missing_node(path, intermediate, names)], with its two
    assertions; [nodes] is what
    [get_node(path, intermediate=True, names=names, incomplete=True)] returns. *)
Definition get_first_not_missing_node (self : node) (path : list component)
    (intermediate names : bool) : result answer :=
  let nodes := fst (get_node_loop names self path [self_item names self]) in
  if negb ((2 <=? List.length nodes) || is_self (last_item names self nodes))
  then Raise AssertionError
  else
    match item_node (last_item names self nodes) with
    | Some _ => Ok (if intermediate then Items nodes else One (last_item names self nodes))
    | None =>
        let nodes1 := removelast nodes in
        match item_node (last_item names self nodes1) with
        | None => Raise AssertionError
        | Some _ =>
            Ok (if intermediate then Items nodes1 else One (last_item names self nodes1))
        end
    end.

(** An update of the node reached through [path], seen from [self]: the
    nodes on the way are the objects of the tree, updated in place (in a
    tree in which no node object occurs twice, as everywhere in [Tree]). *)
Fixpoint update_node (path : list component) (f : node -> node) (self : node) : node :=
  match path with
  | [] => f self
  | c :: path' =>
      match self with
      | Dict fl cs =>
          match get_child cs c with
          | Some n => Dict fl (replace_child c (update_node path' f n) cs)
          | None => self
          end
      | Scalar _ _ => self
      end
  end.

(** [parent.remove_child(name)] on a node. *)
Definition drop_child (name : component) (parent : node) : node :=
  match parent with
  | Dict fl cs => Dict fl (remove_child name cs)
  | Scalar _ _ => parent
  end.

(** [remove_node(path)]: the state of [self] when the call returns (it
    returns [None]: nothing was found, or the [remove_child] of a
    [ConfigDict] returned). *)
Definition remove_node (self : node) (path : list component) : result node :=
  match get_node self path true true INone with
  | Found (Items nodes) =>
      if Nat.eqb (List.length nodes) 1 then Raise ValueError
      else
        match last_item true self nodes, last_item true self (removelast nodes) with
        | Named (Some _) (Some name) _, Named (Some _) _ parent_path =>
            Ok (update_node parent_path (drop_child name) self)
        | _, _ => Raise AssertionError
        end
  | _ => Ok self
  end.

(** [rename_child(old_name, new_name)] on the children: the child, and
    the children after the call. *)
Definition rename_child (old_name new_name : component) (cs : children)
  : result (node * children) :=
  if negb (has_child cs old_name) then Raise ValueError
  else if has_child cs new_name then Raise ValueError
  else
    match get_child cs old_name with
    | Some child => Ok (child, assign_child new_name child (remove_child old_name cs))
    | None => Raise ValueError
    end.

(** [nodes_with_paths(prefix, recursive, include_self)] with the default
    [allow_duplicates=True]: the pairs the generator yields, in order. *)
Fixpoint nodes_with_paths (recursive : bool) (prefix : list component)
    (include_self : bool) (self : node) {struct self} : list (list component * node) :=
  (if include_self then [(prefix, self)] else [])
  ++ match self with
     | Dict _ cs =>
         flat_map (fun kv =>
                     let child_path := prefix ++ [fst kv] in
                     match snd kv with
                     | Dict _ _ =>
                         if recursive
                         then nodes_with_paths recursive child_path true (snd kv)
                         else [(child_path, snd kv)]
                     | Scalar _ _ => [(child_path, snd kv)]
                     end) cs
     | Scalar _ _ => []
     end.

(** The elements that the loop of [get_node] adds below [node], whose
    path from [self] is [pre]. *)
Fixpoint steps (names : bool) (pre : list component) (node : node) (path : list component)
  : list item :=
  match path with
  | [] => []
  | c :: path' =>
      let it child := if names then Named child (Some c) (pre ++ [c]) else Bare child in
      match match node with
            | Dict _ cs => get_child cs c
            | Scalar _ _ => None
            end with
      | None => [it None]
      | Some n => it (Some n) :: steps names (pre ++ [c]) n path'
      end
  end.

(** Whether [path] leads to a node. *)
Definition resolves (node : node) (path : list component) : bool :=
  match Tree.get_node node path with Some _ => true | None => false end.

End Nav.
(** ** Shapes of trees, used to state properties of [merge] and [filter_nodes] *)

Module Shape.
Import Tree.

(** No name in the tree is refused by [ConfigDict._set]. *)
Fixpoint names_accepted (n : node) : bool :=
  match n with
  | Scalar _ _ => true
  | Dict _ cs =>
      forallb (fun kv => negb (shadows_class_attribute (fst kv)) && names_accepted (snd kv)) cs
  end.

(** No composed node below [n] is empty. *)
Fixpoint no_empty_dict (n : node) : bool :=
  match n with
  | Scalar _ _ => true
  | Dict _ cs =>
      forallb (fun kv => (is_leaf (snd kv) || truthy (snd kv)) && no_empty_dict (snd kv)) cs
  end.

(** The conditions that accept, and that reject, every node. *)
Definition accept_all (_ : list component) (_ : node) : bool := true.
Definition reject_all (_ : list component) (_ : node) : bool := false.

(** A call of [merge] on composed nodes ends well: it returns, or it
    raises the [ValueError] of a refused name of [other]. *)
Definition ends_well (other : node) (o : outcome node) : Prop :=
  match o with
  | Returned _ => True
  | Raised e _ => e = ValueError /\ names_accepted other = false
  end.

End Shape.
(** ** The default passes and the iteration over children
    ([premerge], [preprocess], [named_children]) *)

Module Passes.
Import Heap.

(** [on_premerge(path, into)] and [on_preprocess(path, builder)]: the
    defaults of [ConfigNode] return [self]. *)
Definition on_premerge (_ : heap) (_ : list component) (a : addr) : pyobj := PNode a.
Definition on_preprocess (_ : heap) (_ : list component) (a : addr) : pyobj := PNode a.

(** [ComposedNode.premerge(into)] and [ComposedNode.preprocess(builder)]. *)
Definition premerge (fuel : nat) (h : heap) (self : addr) : run pyobj :=
  map_nodes on_premerge true false fuel self [] (init_state h).

Definition preprocess (fuel : nat) (h : heap) (self : addr) : run pyobj :=
  map_nodes on_preprocess true false fuel self [] (init_state h).

(** The loop of [named_children(allow_duplicates)], with the set [memo]
    of the [id]s seen. *)
Fixpoint named_children_from (allow_duplicates : bool) (memo : gset addr)
    (cs : list (component * addr)) : list (component * addr) :=
  match cs with
  | [] => []
  | (name, child) :: cs' =>
      if allow_duplicates
      then (name, child) :: named_children_from allow_duplicates memo cs'
      else if bool_decide (child ∈ memo)
           then named_children_from allow_duplicates memo cs'
           else (name, child) :: named_children_from allow_duplicates ({[child]} ∪ memo) cs'
  end.

Definition named_children (allow_duplicates : bool) (cs : list (component * addr))
  : list (component * addr) :=
  named_children_from allow_duplicates ∅ cs.

(** [children(allow_duplicates)]. *)
Definition children (allow_duplicates : bool) (cs : list (component * addr)) : list addr :=
  map snd (named_children allow_duplicates cs).

(** A transform that returns every node as it is. *)
Definition returns_self (map_fn : heap -> list component -> addr -> pyobj) : Prop :=
  forall h path a, map_fn h path a = PNode a.

(** Every cached result is the node it was computed for. *)
Definition cache_identity (st : state) : Prop :=
  forall a r, st_cache st !! a = Some r -> r = PNode a.

(** A run of a pass whose transform returns every node as it is: the
    heap is the one the run started with. *)
Definition unchanged_run (h : heap) (self : addr) (r : run pyobj) : Prop :=
  match r with
  | OutOfFuel => True
  | Raises _ st => st_heap st = h /\ cache_identity st
  | Returns ret st => ret = PNode self /\ st_heap st = h /\ cache_identity st
  end.

(** A dictionary with a child dictionary and a leaf, and a rank for it. *)
Definition nested_heap : heap :=
  [mkObj no_flags (BDict [(Name "a", 1); (Name "b", 2)]);
   mkObj no_flags (BDict [(Name "c", 2)]);
   mkObj no_flags (BScalar (NInt 5))].

Definition nested_rank (a : addr) : nat :=
  match a with 0 => 2 | 1 => 1 | _ => 0 end.

End Passes.

(** ** The two stores of a [ConfigDict] ([nodes/dict.py]) *)

Module Store.
Import Tree.

(** A [ConfigDict] holds its children twice: in [_children], as every
    [ComposedNode] does, and as the entries of the [dict] that it also is. *)
Record config_dict : Type := mkDict {
  _children : children;
  entries : children
}.

(** What the methods raise: the exceptions above, and the [KeyError] of
    the built-in [dict]. *)
Inductive raised : Type :=
| Std (e : exn)
| KeyError.

(** A call on a [ConfigDict]: the value returned and the state of the
    object, or what is raised and the state in which the object is left. *)
Inductive effect (A : Type) : Type :=
| Done (a : A) (d : config_dict)
| Failed (e : raised) (d : config_dict).
Arguments Done {A} a d.
Arguments Failed {A} e d.

Definition state_of {A : Type} (r : effect A) : config_dict :=
  match r with
  | Done _ d => d
  | Failed _ d => d
  end.

(** [ConfigDict.__init__(value)]: [_children] is built from [value], and
    the [dict] is initialised from [_children]. *)
Definition __init__ (value : children) : config_dict := mkDict value value.

(** [isinstance(name, str) and name.startswith('_')]. *)
Definition is_private (name : component) : bool :=
  match name with
  | Name (String c _) => Ascii.eqb c "_"%char
  | _ => false
  end.

(** [ConfigDict._set(name, value)]. *)
Definition _set (name : component) (value : node) (d : config_dict) : effect node :=
  if shadows_class_attribute name then Failed (Std ValueError) d
  else Done value (mkDict (assign_child name value (_children d))
                          (assign_child name value (entries d))).

(** [dict.__delitem__(self, name)]. *)
Definition dict_delitem (name : component) (d : config_dict) : effect unit :=
  if has_child (entries d) name
  then Done tt (mkDict (_children d) (remove_child name (entries d)))
  else Failed KeyError d.

(** [ConfigDict._del(name)]: [remove_child] of [ComposedNode], then
    [dict.__delitem__]. *)
Definition _del (name : component) (d : config_dict) : effect unit :=
  dict_delitem name (mkDict (remove_child name (_children d)) (entries d)).

(** [ConfigDict.__setitem__(name, value)]. *)
Definition __setitem__ (name : component) (value : node) (d : config_dict) : effect unit :=
  if is_private name
  then Done tt (mkDict (_children d) (assign_child name value (entries d)))
  else match _set name value d with
       | Done _ d' => Done tt d'
       | Failed e d' => Failed e d'
       end.

(** [ConfigDict.__delitem__(name)]. *)
Definition __delitem__ (name : component) (d : config_dict) : effect unit :=
  if is_private name then dict_delitem name d else _del name d.

(** [ConfigDict.__contains__(name)]: [has_child]. *)
Definition __contains__ (name : component) (d : config_dict) : bool :=
  has_child (_children d) name.

(** [self[name]], which is [dict.__getitem__]. *)
Definition dict_getitem (name : component) (d : config_dict) : effect node :=
  match get_child (entries d) name with
  | Some v => Done v d
  | None => Failed KeyError d
  end.

(** The method [ConfigDict.__getattr__(name)]: the hook that Python calls
    for an attribute that the object and its class do not have. *)
Definition __getattr__ (name : component) (d : config_dict) : effect node :=
  match get_child (_children d) name with
  | Some v => Done v d
  | None => Failed (Std AttributeError) d
  end.

(** [ConfigDict.clear()]. *)
Definition clear (_ : config_dict) : config_dict := mkDict [] [].

(** [ConfigDict.setdefault(key, value)]. *)
Definition setdefault (key : component) (value : node) (d : config_dict) : effect node :=
  if negb (__contains__ key d) then _set key value d else dict_getitem key d.

(** [ConfigDict.pop(k, *d)]: [default] is the optional second argument. *)
Definition pop (k : component) (default : option node) (d : config_dict) : effect node :=
  let after (val : node) (d' : config_dict) : effect node :=
    Done val (if has_child (_children d') k
              then mkDict (remove_child k (_children d')) (entries d')
              else d') in
  match get_child (entries d) k with
  | Some val => after val (mkDict (_children d) (remove_child k (entries d)))
  | None =>
      match default with
      | Some val => after val d
      | None => Failed KeyError d
      end
  end.

(** [ConfigDict.update(other)], over the items of [other]. *)
Fixpoint update (other : children) (d : config_dict) : effect unit :=
  match other with
  | [] => Done tt d
  | (name, item) :: other' =>
      match _set name item d with
      | Done _ d' => update other' d'
      | Failed e d' => Failed e d'
      end
  end.

(** [ConfigDict._set_value(other)]. *)
Definition _set_value (other : children) (d : config_dict) : effect unit :=
  update other (clear d).

(** [rename_child(old_name, new_name)], which [ConfigDict] inherits from
    [ComposedNode]: it works on [_children]. *)
Definition rename_child (old_name new_name : component) (d : config_dict) : effect node :=
  match Nav.rename_child old_name new_name (_children d) with
  | Ok (child, cs) => Done child (mkDict cs (entries d))
  | Raise e => Failed (Std e) d
  end.

(** The two stores agree. *)
Definition in_sync (d : config_dict) : Prop := entries d = _children d.

End Store.

(** * Properties

    ** The path language *)

(** Splits the conjunctions of the goal, without unfolding anything. *)
Ltac split_conj := repeat match goal with |- _ /\ _ => split end.

Section PathFacts.
Import Path.
#[local] Arguments String.append !_ _ / : simpl nomatch.

Lemma append_empty_r (s : string) : String.append s EmptyString = s.
Proof. induction s as [|c s IH]; simpl; [reflexivity | now rewrite IH]. Qed.

Lemma append_assoc (a b c : string) :
  String.append (String.append a b) c = String.append a (String.append b c).
Proof. induction a as [|x a IH]; simpl; [reflexivity | now rewrite IH]. Qed.

Lemma length_append (a b : string) :
  String.length (String.append a b) = String.length a + String.length b.
Proof. induction a as [|x a IH]; simpl; [reflexivity | now rewrite IH]. Qed.

Lemma last_prev_snoc (prev : option ascii) (t : string) (c : ascii) :
  last_prev prev (String.append t (String c EmptyString)) = Some c.
Proof. revert prev; induction t as [|x t IH]; intros prev; simpl; [reflexivity | apply IH]. Qed.

Lemma scan_skip_app (t r : string) : forall prev pos,
  scan prev pos (String.length t) (String.append t r)
  = scan (last_prev prev t) (pos + String.length t) 0 r.
Proof.
  induction t as [|c t IH]; intros prev pos; simpl.
  - now rewrite Nat.add_0_r.
  - rewrite IH. f_equal. lia.
Qed.

Lemma scan_starts_ge (s : string) : forall prev pos skip,
  Forall (fun m => pos <= m_start m) (scan prev pos skip s).
Proof.
  induction s as [|c s IH]; intros prev pos skip; simpl.
  - constructor.
  - destruct skip as [|k].
    + destruct (match_at prev (String c s)) as [g|].
      * constructor; [simpl; lia|].
        eapply Forall_impl; [apply IH|]. simpl; intros; lia.
      * eapply Forall_impl; [apply IH|]. simpl; intros; lia.
    + eapply Forall_impl; [apply IH|]. simpl; intros; lia.
Qed.


Lemma span_spec (p : ascii -> bool) (s : string) :
  forall run rest, span p s = (run, rest) ->
    s = String.append run rest
    /\ (forall prev, run <> EmptyString ->
          exists c, last_prev prev run = Some c /\ p c = true)
    /\ (forall c, starts_with c rest = true -> p c = false).
Proof.
  induction s as [|c s IH]; intros run rest; simpl.
  - intros [= <- <-]. repeat split; [congruence | simpl; discriminate].
  - destruct (p c) eqn:Hp.
    + destruct (span p s) as [run' rest'] eqn:Hs. intros [= <- <-].
      destruct (IH _ _ eq_refl) as (-> & Hlast & Hrest).
      repeat split; [|exact Hrest].
      intros prev _. simpl. destruct run' as [|c' run'].
      * simpl. eauto.
      * apply Hlast. discriminate.
    + intros [= <- <-]. repeat split; [congruence|].
      intros c'. simpl. intros Hc%Ascii.eqb_eq. now subst.
Qed.

Lemma alt_index_shape (prev : option ascii) (s : string) (g : groups) :
  alt_index s = Some g -> match_shape prev s g.
Proof.
  unfold alt_index. destruct s as [|c r]; [discriminate|].
  destruct (Ascii.eqb c lbracket) eqn:Hc; [|discriminate].
  apply Ascii.eqb_eq in Hc; subst c.
  set (sr := match r with
             | String c1 r' =>
                 if Ascii.eqb c1 minus then (String minus EmptyString, r') else (EmptyString, r)
             | EmptyString => (EmptyString, r)
             end).
  assert (Hsr : r = String.append (fst sr) (snd sr)).
  { subst sr. destruct r as [|c1 r']; [reflexivity|].
    destruct (Ascii.eqb c1 minus) eqn:Hm; [|reflexivity].
    apply Ascii.eqb_eq in Hm; now subst. }
  destruct sr as [sign r1]. simpl in Hsr.
  destruct (span is_digit r1) as [ds r2] eqn:Hspan.
  destruct (span_spec _ _ _ _ Hspan) as (Hr1 & _ & _).
  destruct (is_empty ds) eqn:He; [discriminate|].
  destruct r2 as [|c2 r2']; [discriminate|].
  destruct (Ascii.eqb c2 rbracket) eqn:Hc2; [|discriminate].
  apply Ascii.eqb_eq in Hc2; subst c2.
  intros [= <-]. eapply shape_index with (rest := r2'); [| |reflexivity].
  - rewrite Hsr, Hr1. f_equal. now rewrite append_assoc.
  - destruct sign; [|discriminate]. destruct ds; [discriminate|]. simpl. discriminate.
Qed.

Lemma match_at_shape (prev : option ascii) (s : string) (g : groups) :
  match_at prev s = Some g -> match_shape prev s g.
Proof.
  unfold match_at.
  destruct (alt_name prev s) as [g1|] eqn:H1.
  - intros [= <-]. unfold alt_name in H1.
    set (look := match prev with None => true | Some c => Ascii.eqb c dot end) in H1.
    destruct look eqn:Hlook; [|discriminate].
    destruct (span is_ident s) as [run rest] eqn:Hspan.
    destruct (span_spec _ _ _ _ Hspan) as (Hs & Hlast & _).
    destruct (is_empty run) eqn:He; [discriminate|].
    assert (Hne : run <> EmptyString) by (destruct run; [discriminate | congruence]).
    destruct (Hlast prev Hne) as (c & Hc & Hid).
    injection H1 as <-. eapply shape_name; eauto.
    subst look. destruct prev as [p|]; [right | now left].
    apply Ascii.eqb_eq in Hlook. now subst.
  - destruct (alt_index s) as [g2|] eqn:H2.
    + intros [= <-]. now apply alt_index_shape.
    + unfold alt_dot. destruct prev as [p|]; [|discriminate].
      destruct s as [|c r]; [discriminate|].
      destruct (Ascii.eqb c dot) eqn:Hc; [|discriminate]. simpl.
      destruct (at_dollar r) eqn:Hd; [discriminate|]. simpl.
      destruct (starts_with dot r) eqn:Hsd; [discriminate|]. simpl.
      destruct (starts_with lbracket r) eqn:Hsb; [discriminate|]. simpl.
      intros [= <-]. apply Ascii.eqb_eq in Hc; subst c.
      apply shape_dot with (rest := r); try reflexivity; try assumption.
      * discriminate.
      * destruct r; [discriminate | congruence].
Qed.


Lemma match_shape_text (prev : option ascii) (s : string) (g : groups) :
  match_shape prev s g ->
  exists r, s = String.append (g_text g) r /\ g_text g <> EmptyString.
Proof.
  intros [run rest c _ Hs Hne _ _ ->|lit rest Hs _ ->|rest _ Hs _ _ _ ->]; simpl.
  - eauto.
  - exists rest. split; [|discriminate]. rewrite Hs. f_equal.
    now rewrite append_assoc.
  - exists rest. split; [assumption | discriminate].
Qed.

Lemma scan_match (prev : option ascii) (pos : nat) (s r : string) (g : groups) :
  match_at prev s = Some g ->
  s = String.append (g_text g) r -> g_text g <> EmptyString ->
  scan prev pos 0 s
  = mkMatch pos (pos + String.length (g_text g)) g
      :: scan (last_prev prev (g_text g)) (pos + String.length (g_text g)) 0 r.
Proof.
  intros Hm Hs Hne. destruct (g_text g) as [|c t] eqn:Ht; [congruence|].
  subst s. simpl. simpl in Hm. rewrite Hm, Ht. simpl.
  rewrite Nat.sub_0_r, scan_skip_app. do 2 f_equal. lia.
Qed.

Lemma validate_no_match (prev : option ascii) (pos : nat) (c : ascii) (s : string) :
  match_at prev (String c s) = None ->
  validate_loop (Some pos) (scan prev pos 0 (String c s))
  <> Ok (Some (pos + String.length (String c s))).
Proof.
  intros Hm. simpl scan. rewrite Hm.
  pose proof (scan_starts_ge s (Some c) (S pos) 0) as Hge.
  destruct (scan (Some c) (S pos) 0 s) as [|m ms]; simpl.
  - intros [= H]. lia.
  - apply Forall_cons in Hge as [Hge _].
    destruct (Nat.eqb_spec (m_start m) pos); [lia | discriminate].
Qed.

Lemma canonical_literal_norm (lit : string) (d : Decimal.int) :
  NilZero.int_of_string lit = Some d -> canonical_literal lit = true -> norm d = d.
Proof.
  destruct lit as [|c r]; [discriminate|].
  unfold NilZero.int_of_string, canonical_literal, minus, zero.
  destruct (Ascii.eqb c "-") eqn:Hc.
  - destruct r as [|c1 r1]; [discriminate|].
    change (NilZero.uint_of_string (String c1 r1))
      with (uint_of_char c1 (NilEmpty.uint_of_string r1)).
    destruct (NilEmpty.uint_of_string r1) as [u|] eqn:Hu; [|discriminate].
    destruct (uint_of_char c1 (Some u)) as [u'|] eqn:Hc1; [|discriminate].
    cbn [option_map starts_with]. intros [= <-] Hz. apply uint_of_char_spec in Hc1.
    destruct Hc1 as [[-> ->]|Hc1]; [discriminate|].
    decompose [or and] Hc1; subst; reflexivity.
  - change (NilZero.uint_of_string (String c r))
      with (uint_of_char c (NilEmpty.uint_of_string r)).
    destruct (NilEmpty.uint_of_string r) as [u|] eqn:Hu; [|discriminate].
    destruct (uint_of_char c (Some u)) as [u'|] eqn:Hc1; [|discriminate].
    cbn [option_map]. intros [= <-] Hz. apply uint_of_char_spec in Hc1.
    destruct Hc1 as [[-> ->]|Hc1].
    + destruct r as [|c2 r2]; [|discriminate]. simpl in Hu. now injection Hu as <-.
    + decompose [or and] Hc1; subst; reflexivity.
Qed.

Lemma py_int_canonical (lit : string) (z : Z) :
  py_int lit = Some z -> canonical_literal lit = true -> py_str_of_int z = lit.
Proof.
  unfold py_int, py_str_of_int.
  destruct (NilZero.int_of_string lit) as [d|] eqn:Hd; [|discriminate].
  simpl. intros [= <-] Hc. rewrite DecimalZ.to_of.
  rewrite (canonical_literal_norm _ _ Hd Hc). now apply NilZero.sis.
Qed.

Lemma append_nonempty_r (a b : string) : b <> EmptyString -> String.append a b <> EmptyString.
Proof. destruct a; simpl; [auto | discriminate]. Qed.

Lemma round_trip_from (n : nat) : forall (s : string), String.length s <= n ->
  forall prev pos acc pend comps,
    walk_inv prev acc pend s ->
    validate_loop (Some pos) (scan prev pos 0 s) = Ok (Some (pos + String.length s)) ->
    yield_components (scan prev pos 0 s) = Ok comps ->
    forallb canonical_match (scan prev pos 0 s) = true ->
    join_path_from acc comps = String.append acc (String.append (pending_text pend) s).
Proof.
  induction n as [|n IH]; intros s Hlen prev pos acc pend comps Hinv Hval Hyield Hcan.
  - destruct s; [|simpl in Hlen; lia]. simpl in *.
    destruct pend; [now destruct Hinv as (_ & _ & _ & _ & ?)|].
    injection Hyield as <-. simpl. now rewrite append_empty_r.
  - destruct s as [|c0 s0].
    { simpl in *. destruct pend; [now destruct Hinv as (_ & _ & _ & _ & ?)|].
      injection Hyield as <-. simpl. now rewrite append_empty_r. }
    destruct (match_at prev (String c0 s0)) as [g|] eqn:Hm;
      [|exfalso; exact (validate_no_match _ pos _ _ Hm Hval)].
    pose proof (match_at_shape _ _ _ Hm) as Hshape.
    destruct (match_shape_text _ _ _ Hshape) as (r & Hs & Hne).
    rewrite (scan_match _ pos _ r _ Hm Hs Hne) in Hval, Hyield, Hcan.
    assert (Hlen_s : String.length (String c0 s0) = String.length (g_text g) + String.length r)
      by (rewrite Hs at 1; apply length_append).
    assert (Hpos : 0 < String.length (g_text g))
      by (destruct (g_text g); [congruence | simpl; lia]).
    simpl validate_loop in Hval. rewrite Nat.eqb_refl in Hval.
    replace (pos + String.length (String c0 s0))
      with (pos + String.length (g_text g) + String.length r) in Hval by lia.
    simpl in Hyield, Hcan. apply andb_prop in Hcan as [Hcan1 Hcan].
    destruct (component_of_match
                (mkMatch pos (pos + String.length (g_text g)) g)) as [oc|e] eqn:Hcomp;
      [|discriminate]. simpl in Hyield.
    destruct (yield_components
                (scan (last_prev prev (g_text g)) (pos + String.length (g_text g)) 0 r))
      as [cs|e] eqn:Hrest; [|discriminate]. simpl in Hyield. injection Hyield as <-.
    assert (Hr : String.length r <= n) by (rewrite Hlen_s in Hlen; lia).
    specialize (IH r Hr (last_prev prev (g_text g)) (pos + String.length (g_text g))).
    specialize (fun acc pend Hi => IH acc pend cs Hi Hval Hrest Hcan).
    clear Hval Hrest Hcan.
    unfold component_of_match in Hcomp. simpl in Hcomp.
    destruct Hshape as [run rest c Hprev Hs' Hrun Hlast Hid ->
                       |lit rest Hs' Hlit ->
                       |rest Hprev Hs' Hrest' Hnd Hnb ->]; simpl in *.
    + (* a name *)
      assert (Hr' : rest = r) by (rewrite Hs' in Hs; now apply String.app_inj in Hs).
      subst rest. destruct run as [|rc run']; [congruence|]. simpl in Hcomp.
      injection Hcomp as <-. simpl. unfold join_path_from in *. simpl.
      rewrite IH with (pend := false).
      * simpl. destruct pend; simpl.
        -- destruct Hinv as (_ & Hacc & _). destruct acc; [congruence|]. simpl.
           rewrite Hs'. now rewrite !append_assoc.
        -- destruct Hinv as (Hnd & Hacc). destruct Hprev as [Hp|Hp]; [|congruence].
           apply Hacc in Hp. subst acc. simpl. now rewrite Hs'.
      * split.
        -- rewrite Hlast. intros [= ->]. discriminate.
        -- rewrite Hlast. split; [discriminate|]. intros Habs.
           apply append_nonempty_r in Habs; [contradiction|].
           apply append_nonempty_r. discriminate.
    + (* an index *)
      assert (Hr' : rest = r).
      { rewrite Hs' in Hs. injection Hs as Hs. rewrite append_assoc in Hs.
        apply String.app_inj in Hs. now injection Hs. }
      subst rest. destruct lit as [|lc lit']; [congruence|]. simpl in Hcomp.
      destruct (py_int (String lc lit')) as [z|] eqn:Hz; [|discriminate].
      injection Hcomp as <-. unfold join_path_from in *. simpl.
      unfold canonical_match in Hcan1. simpl in Hcan1.
      rewrite (py_int_canonical _ _ Hz Hcan1).
      destruct pend.
      { destruct Hinv as (_ & _ & _ & Hb & _). rewrite Hs' in Hb. discriminate. }
      rewrite IH with (pend := false).
      * simpl. rewrite Hs'. rewrite !append_assoc. simpl. now rewrite !append_assoc.
      * rewrite last_prev_snoc. split; [discriminate|]. split; [discriminate|].
        intros Habs. apply append_nonempty_r in Habs; [contradiction | discriminate].
    + (* a separating dot *)
      assert (Hr' : rest = r) by (rewrite Hs' in Hs; now injection Hs).
      subst rest. injection Hcomp as <-.
      destruct pend.
      { destruct Hinv as (_ & _ & Hd & _). rewrite Hs' in Hd. discriminate. }
      destruct Hinv as (Hnd' & Hacc).
      rewrite IH with (pend := true).
      * simpl. now rewrite Hs'.
      * simpl. repeat split; try assumption.
        intros ->. apply Hprev. now apply Hacc.
Qed.

Lemma validate_loop_start (ms : list rmatch) :
  ms <> [] -> validate_loop None ms = validate_loop (Some 0) ms.
Proof. destruct ms; [congruence | reflexivity]. Qed.

Lemma validate_loop_gap (ms : list rmatch) : forall e,
  has_gap (default 0 e) ms = true -> validate_loop e ms = Raise ValueError.
Proof.
  induction ms as [|m ms IH]; intros e; simpl; [discriminate|].
  destruct (Nat.eqb (m_start m) (default 0 e)) eqn:He.
  - destruct e; simpl in *; rewrite He; simpl; apply (IH (Some (m_end m))).
  - destruct e; simpl in *; now rewrite He.
Qed.

Lemma validate_loop_reach (ms : list rmatch) : forall e,
  has_gap (default 0 e) ms = false ->
  validate_loop e ms = Ok (match ms with [] => e | _ => Some (reach (default 0 e) ms) end).
Proof.
  induction ms as [|m ms IH]; intros e; simpl; [reflexivity|].
  intros [Hs Hg]%orb_false_elim. apply negb_false_iff in Hs.
  assert (Hs' : Nat.eqb (m_start m) (match e with Some e0 => e0 | None => 0 end) = true)
    by (destruct e; exact Hs).
  rewrite Hs'. rewrite (IH (Some (m_end m)) Hg). now destruct ms.
Qed.

End PathFacts.

(** C5 (as amended). For every path text that [split_path] accepts and in
    which every bracketed integer is written the way Python prints it (no
    leading zero, no negative zero), [join_path] returns the text exactly. *)
Theorem split_path_join_path_round_trip (s : string) (comps : list component) :
  Path.split_path s true = Ok comps ->
  forallb Path.canonical_match (Path.finditer s) = true ->
  Path.join_path comps = s.
Proof.
  unfold Path.split_path, Path.finditer, Path.join_path. intros Hsplit Hcan.
  destruct s as [|c s].
  { simpl in Hsplit. now injection Hsplit as <-. }
  destruct (Path.validate_loop None (Path.scan None 0 0 (String c s)))
    as [end_|e] eqn:Hval; [|discriminate].
  cbn [Path.is_empty negb andb] in Hsplit.
  destruct end_ as [e|]; [|discriminate].
  destruct (Nat.eqb_spec e (String.length (String c s))) as [->|]; [|discriminate].
  cbn [negb] in Hsplit.
  destruct (Path.scan None 0 0 (String c s)) as [|m ms] eqn:Hscan; [discriminate|].
  rewrite validate_loop_start in Hval by discriminate. rewrite <- Hscan in *.
  rewrite (round_trip_from _ (String c s) (le_n _) None 0 EmptyString false comps);
    [reflexivity | | exact Hval | exact Hsplit | exact Hcan].
  split; [discriminate | tauto].
Qed.

Lemma split_path_join_path_round_trip_witness :
  Path.join_path [Name "a"; Name "b"; Index 1; Name "c"] = "a.b[1].c"%string.
Proof.
  apply split_path_join_path_round_trip; reflexivity.
Defined.

(** C5, counterexample. [split_path] accepts the text [[01]], and
    [join_path] of its components is [[1]]. *)
Lemma split_path_join_path_leading_zero :
  Path.split_path "[01]" true = Ok [Index 1]
  /\ Path.join_path [Index 1] <> "[01]"%string.
Proof. split; [reflexivity | discriminate]. Qed.

(** C6. [split_path] raises [ValueError] (the specification's [InvalidPath])
    on every non-empty text whose matches leave a gap or do not reach the end
    of the text, and in particular on each of the five listed texts. *)
Theorem split_path_rejects_malformed :
  (forall s : string,
      s <> EmptyString ->
      Path.has_gap 0 (Path.finditer s) = true
      \/ Path.reach 0 (Path.finditer s) <> String.length s ->
      Path.split_path s true = Raise ValueError)
  /\ Path.split_path "a..b" true = Raise ValueError
  /\ Path.split_path "a[x]" true = Raise ValueError
  /\ Path.split_path ".a" true = Raise ValueError
  /\ Path.split_path "a." true = Raise ValueError
  /\ Path.split_path "a[1" true = Raise ValueError.
Proof.
  split; [|repeat split; reflexivity].
  intros s Hne Hbad. unfold Path.split_path.
  destruct (Path.has_gap 0 (Path.finditer s)) eqn:Hgap.
  - now rewrite (validate_loop_gap _ None Hgap).
  - rewrite (validate_loop_reach _ None Hgap).
    destruct Hbad as [?|Hreach]; [discriminate|].
    destruct s as [|c s]; [congruence|]. cbn [Path.is_empty negb andb].
    destruct (Path.finditer (String c s)) as [|m ms]; [reflexivity|].
    simpl default. apply Nat.eqb_neq in Hreach. now rewrite Hreach.
Qed.

Lemma split_path_rejects_malformed_witness :
  Path.split_path "a[1]x" true = Raise ValueError.
Proof.
  apply (proj1 split_path_rejects_malformed); [discriminate | right; vm_compute; lia].
Defined.

(** ** Trees: the ordered dictionary of children *)

Section ChildrenFacts.
Import Tree.

Lemma get_child_replace (name key : component) (v : node) (cs : children) :
  get_child (replace_child name v cs) key
  = if decide (name = key) then (if has_child cs name then Some v else None)
    else get_child cs key.
Proof.
  unfold has_child. induction cs as [|[k c] cs IH]; simpl.
  - now destruct (decide (name = key)).
  - destruct (decide (k = name)) as [->|Hk]; simpl.
    + destruct (decide (name = key)); [reflexivity|].
      reflexivity.
    + destruct (decide (k = key)) as [->|Hk'].
      * destruct (decide (name = key)); [congruence | reflexivity].
      * exact IH.
Qed.

Lemma get_child_remove (name key : component) (cs : children) :
  get_child (remove_child name cs) key
  = if decide (name = key) then None else get_child cs key.
Proof.
  unfold remove_child. induction cs as [|[k c] cs IH]; simpl.
  - now destruct (decide (name = key)).
  - destruct (decide (k = name)) as [->|Hk].
    + rewrite bool_decide_true by reflexivity. simpl. rewrite IH.
      destruct (decide (name = key)); reflexivity.
    + rewrite bool_decide_false by assumption. simpl. rewrite IH.
      destruct (decide (k = key)) as [->|]; [|reflexivity].
      destruct (decide (name = key)); [congruence | reflexivity].
Qed.

Lemma get_child_app (cs1 cs2 : children) (key : component) :
  get_child (cs1 ++ cs2) key
  = match get_child cs1 key with Some v => Some v | None => get_child cs2 key end.
Proof.
  induction cs1 as [|[k c] cs1 IH]; simpl; [reflexivity|].
  destruct (decide (k = key)); [reflexivity | exact IH].
Qed.

Lemma get_child_assign (name key : component) (v : node) (cs : children) :
  get_child (assign_child name v cs) key
  = if decide (name = key) then Some v else get_child cs key.
Proof.
  unfold assign_child. destruct (has_child cs name) eqn:Hh.
  - rewrite get_child_replace, Hh. reflexivity.
  - rewrite get_child_app. unfold has_child in Hh. simpl.
    destruct (decide (name = key)) as [<-|].
    + destruct (get_child cs name); [discriminate | reflexivity].
    + destruct (get_child cs key); reflexivity.
Qed.

Lemma elem_of_rev_iff (x : component) (l : list component) : x ∈ rev l <-> x ∈ l.
Proof. rewrite !list_elem_of_In. symmetry. apply in_rev. Qed.

Lemma get_child_remove_children (to_del : list component) (key : component) :
  forall cs : children,
  get_child (remove_children to_del cs) key
  = if bool_decide (key ∈ to_del) then None else get_child cs key.
Proof.
  unfold remove_children.
  assert (Hfold : forall (l : list component) (cs : children),
             get_child (fold_left (fun cs name => remove_child name cs) l cs) key
             = if bool_decide (key ∈ l) then None else get_child cs key).
  { induction l as [|n l IH]; intros cs; cbn [fold_left].
    - rewrite bool_decide_false; [reflexivity | apply not_elem_of_nil].
    - rewrite IH, get_child_remove.
      destruct (decide (n = key)) as [->|Hn].
      + rewrite (bool_decide_true (key ∈ key :: l)) by (apply elem_of_cons; auto).
        now destruct (bool_decide (key ∈ l)).
      + destruct (decide (key ∈ l)) as [Hl|Hl].
        * rewrite !bool_decide_true by (try apply elem_of_cons; auto). reflexivity.
        * rewrite !bool_decide_false by (rewrite ?elem_of_cons; intuition congruence).
          reflexivity. }
  intros cs. rewrite Hfold.
  destruct (decide (key ∈ to_del)) as [Hd|Hd].
  - rewrite (bool_decide_true (key ∈ rev to_del)) by now apply elem_of_rev_iff.
    now rewrite bool_decide_true.
  - rewrite (bool_decide_false (key ∈ rev to_del)) by now rewrite elem_of_rev_iff.
    now rewrite bool_decide_false.
Qed.

Lemma get_child_In (cs : children) (key : component) (v : node) :
  get_child cs key = Some v -> In (key, v) cs.
Proof.
  induction cs as [|[k c] cs IH]; simpl; [discriminate|].
  destruct (decide (k = key)) as [->|]; [intros [= ->]; now left | auto].
Qed.

Lemma keys_unique_In (cs : children) (key : component) (v : node) :
  keys_unique cs = true -> In (key, v) cs -> get_child cs key = Some v.
Proof.
  induction cs as [|[k c] cs IH]; simpl; [contradiction|].
  intros [Hk Hu]%andb_prop [[= -> ->]|Hin].
  - now rewrite decide_True.
  - destruct (decide (k = key)) as [->|]; [|auto].
    apply negb_true_iff in Hk. unfold has_child in Hk.
    rewrite (IH Hu Hin) in Hk. discriminate.
Qed.

End ChildrenFacts.

(** ** Trees: [filter_nodes] *)

Section FilterFacts.
Import Tree.
Variable condition : list component -> node -> bool.

Lemma filter_loop_spec (prefix : list component) (cs : children) :
  filter_loop condition prefix (filter_nodes condition) cs
  = (map (fun kv => (fst kv, filter_nodes condition (prefix ++ [fst kv]) (snd kv))) cs,
     rejected condition prefix cs).
Proof.
  unfold rejected. induction cs as [|[name child] cs IH]; [reflexivity|].
  cbn [filter_loop]. rewrite IH. cbn [map List.filter fst snd].
  assert (Hk : keeps condition prefix name child
               = match child with
                 | Scalar _ _ => condition (prefix ++ [name]) child
                 | Dict _ _ => condition (prefix ++ [name]) child
                               && truthy (filter_nodes condition (prefix ++ [name]) child)
                 end).
  { unfold keeps. destruct child; cbn [is_leaf orb]; [apply andb_true_r | reflexivity]. }
  rewrite Hk. destruct child as [fl v|fl ccs].
  - now destruct (condition (prefix ++ [name]) (Scalar fl v)).
  - now destruct (condition (prefix ++ [name]) (Dict fl ccs)
                  && truthy (filter_nodes condition (prefix ++ [name]) (Dict fl ccs))).
Qed.

Lemma filter_nodes_Dict (prefix : list component) (fl : flags) (cs : children) :
  filter_nodes condition prefix (Dict fl cs)
  = Dict fl (remove_children (rejected condition prefix cs)
               (map (fun kv => (fst kv, filter_nodes condition (prefix ++ [fst kv]) (snd kv))) cs)).
Proof. cbn [filter_nodes]. now rewrite filter_loop_spec. Qed.

Lemma get_child_map_filter (prefix : list component) (cs : children) (key : component) :
  get_child (map (fun kv => (fst kv, filter_nodes condition (prefix ++ [fst kv]) (snd kv))) cs) key
  = option_map (filter_nodes condition (prefix ++ [key])) (get_child cs key).
Proof.
  induction cs as [|[k c] cs IH]; simpl; [reflexivity|].
  destruct (decide (k = key)) as [->|]; [reflexivity | exact IH].
Qed.

Lemma get_child_filter_nodes (prefix : list component) (fl : flags) (cs : children)
    (key : component) :
  get_child (node_children (filter_nodes condition prefix (Dict fl cs))) key
  = if bool_decide (key ∈ rejected condition prefix cs) then None
    else option_map (filter_nodes condition (prefix ++ [key])) (get_child cs key).
Proof.
  rewrite filter_nodes_Dict. cbn [node_children].
  now rewrite get_child_remove_children, get_child_map_filter.
Qed.

Lemma rejected_In (prefix : list component) (cs : children) (key : component) :
  key ∈ rejected condition prefix cs
  <-> exists c, In (key, c) cs /\ keeps condition prefix key c = false.
Proof.
  unfold rejected. rewrite list_elem_of_In, in_map_iff. split.
  - intros ([k c] & <- & [Hin Hk]%filter_In). simpl in *.
    exists c. split; [assumption | now apply negb_true_iff].
  - intros (c & Hin & Hk). exists (key, c). split; [reflexivity|].
    apply filter_In. split; [assumption | simpl; now rewrite Hk].
Qed.

(** A node that the condition rejects is gone after filtering. *)
Lemma filter_nodes_removes (path : list component) :
  forall (self : node) (prefix : list component) (n : node),
    path <> [] ->
    get_node self path = Some n ->
    condition (prefix ++ path) n = false ->
    get_node (filter_nodes condition prefix self) path = None.
Proof.
  induction path as [|k path IH]; intros self prefix n Hne Hget Hcond; [congruence|].
  destruct self as [fl v|fl cs]; [discriminate|].
  cbn [get_node] in Hget. destruct (get_child cs k) as [m|] eqn:Hk; [|discriminate].
  pose proof (get_child_filter_nodes prefix fl cs k) as Hf.
  destruct (filter_nodes condition prefix (Dict fl cs)) as [fl' v'|fl' cs'] eqn:Hfilt.
  { rewrite filter_nodes_Dict in Hfilt. discriminate. }
  cbn [node_children] in Hf. cbn [get_node]. rewrite Hf, Hk.
  destruct (bool_decide (k ∈ rejected condition prefix cs)) eqn:Hrej; [reflexivity|].
  cbn [option_map]. destruct path as [|k' path'].
  - exfalso. apply bool_decide_eq_false in Hrej. apply Hrej. apply rejected_In.
    exists m. split; [now apply get_child_In|].
    injection Hget as ->. unfold keeps. now rewrite Hcond.
  - apply (IH m (prefix ++ [k]) n); [discriminate | assumption|].
    now rewrite <- app_assoc.
Qed.

(** Filtering creates no path. *)
Lemma filter_nodes_no_new_path (path : list component) :
  forall (self : node) (prefix : list component),
    get_node self path = None ->
    get_node (filter_nodes condition prefix self) path = None.
Proof.
  induction path as [|k path IH]; intros self prefix Hget; [discriminate|].
  destruct self as [fl v|fl cs]; [reflexivity|].
  cbn [get_node] in Hget.
  pose proof (get_child_filter_nodes prefix fl cs k) as Hf.
  destruct (filter_nodes condition prefix (Dict fl cs)) as [fl' v'|fl' cs'] eqn:Hfilt.
  { reflexivity. }
  cbn [node_children] in Hf. cbn [get_node]. rewrite Hf.
  destruct (bool_decide (k ∈ rejected condition prefix cs)); [reflexivity|].
  destruct (get_child cs k) as [m|]; [|reflexivity].
  cbn [option_map]. now apply IH.
Qed.

(** The rule by which [filter_nodes] keeps or removes a child. *)
Lemma filter_nodes_child (prefix : list component) (fl : flags) (cs : children)
    (name : component) (child : node) :
  keys_unique cs = true ->
  get_child cs name = Some child ->
  get_node (filter_nodes condition prefix (Dict fl cs)) [name]
  = if keeps condition prefix name child
    then Some (filter_nodes condition (prefix ++ [name]) child)
    else None.
Proof.
  intros Hu Hget.
  pose proof (get_child_filter_nodes prefix fl cs name) as Hf.
  destruct (filter_nodes condition prefix (Dict fl cs)) as [fl' v'|fl' cs'] eqn:Hfilt.
  { rewrite filter_nodes_Dict in Hfilt. discriminate. }
  cbn [node_children] in Hf. cbn [get_node]. rewrite Hf, Hget. cbn [option_map].
  destruct (keeps condition prefix name child) eqn:Hk.
  - rewrite bool_decide_false; [reflexivity|].
    intros (c & Hin & Hc)%rejected_In.
    rewrite (keys_unique_In _ _ _ Hu Hin) in Hget. congruence.
  - rewrite bool_decide_true; [reflexivity|].
    apply rejected_In. exists child. split; [now apply get_child_In | assumption].
Qed.

End FilterFacts.

(** ** Trees: [merge] *)

Section MergeFacts.
Import Tree.

Lemma has_priority_over_flip (v c : node) :
  has_priority_over v c true = negb (has_priority_over c v false).
Proof.
  unfold has_priority_over, Flags.has_priority_over.
  destruct (Z.eqb_spec (Flags.priority (node_flags v)) (Flags.priority (node_flags c)))
    as [->|Hne].
  - now rewrite Z.eqb_refl.
  - destruct (Z.eqb_spec (Flags.priority (node_flags c)) (Flags.priority (node_flags v)));
      [congruence|].
    rewrite !Z.gtb_ltb. apply eq_true_iff_eq. rewrite negb_true_iff.
    rewrite Z.ltb_lt, Z.ltb_nlt. lia.
Qed.

Lemma final_state_lift (cs : children) (r : result children) :
  final_state (lift_result cs r) = match r with Ok cs' => cs' | Raise _ => cs end.
Proof. now destruct r. Qed.

(** The slot [key] after the priority branch. *)
Lemma merge_by_priority_slot (key : component) (child value : node) (cs : children)
    (Q : option node -> Prop) :
  Q None -> Q (Some value) -> Q (get_child cs key) ->
  Q (get_child (final_state (merge_by_priority key child value cs)) key).
Proof.
  intros HN HV HC. unfold merge_by_priority, set_child.
  destruct (has_priority_over value child true); [|exact HC].
  destruct (negb (truthy value) && delete value); cbn [final_state].
  - rewrite get_child_remove. now rewrite decide_True.
  - destruct (shadows_class_attribute key); cbn [lift_result final_state]; [exact HC|].
    rewrite get_child_assign. now rewrite decide_True.
Qed.

Lemma merge_by_priority_other (key key' : component) (child value : node) (cs : children) :
  key <> key' ->
  get_child (final_state (merge_by_priority key child value cs)) key' = get_child cs key'.
Proof.
  intros Hne. unfold merge_by_priority, set_child.
  destruct (has_priority_over value child true); [|reflexivity].
  destruct (negb (truthy value) && delete value); cbn [final_state].
  - rewrite get_child_remove. now rewrite decide_False.
  - destruct (shadows_class_attribute key); cbn [lift_result final_state]; [reflexivity|].
    rewrite get_child_assign. now rewrite decide_False.
Qed.

Section Loop.
Variable rec : node -> node -> outcome node.

Lemma merge_step_other (key key' : component) (value : node) (scs : children) :
key <> key' ->
get_child (final_state (merge_step rec key value scs)) key' = get_child scs key'.
Proof.
intros Hne. unfold merge_step.
destruct (get_child scs key) as [child|] eqn:Hc.
- destruct (is_leaf child); [now apply merge_by_priority_other|].
  destruct (rec child value) as [c1|e c1].
  + destruct (negb (truthy c1) && negb (has_priority_over c1 value false));
      cbn [final_state]; rewrite ?get_child_remove, get_child_replace;
      now rewrite ?decide_False.
  + destruct e; cbn [final_state];
      rewrite ?merge_by_priority_other by assumption;
      rewrite get_child_replace; now rewrite decide_False.
- unfold set_child. destruct (shadows_class_attribute key);
    cbn [lift_result final_state]; [reflexivity|].
  rewrite get_child_assign. now rewrite decide_False.
Qed.

(** The slot [key] after the turn of the loop for [key]: it is emptied,
  holds [value], is left alone, or holds the child after the recursive merge. *)
Lemma merge_step_slot (key : component) (value : node) (scs : children)
  (Q : option node -> Prop) :
Q None -> Q (Some value) -> Q (get_child scs key) ->
(forall child, get_child scs key = Some child ->
               Q (Some (final_state (rec child value)))) ->
Q (get_child (final_state (merge_step rec key value scs)) key).
Proof.
intros HN HV HC HR. unfold merge_step.
destruct (get_child scs key) as [child|] eqn:Hc.
- assert (Hh : has_child scs key = true) by (unfold has_child; now rewrite Hc).
  destruct (is_leaf child).
  { apply merge_by_priority_slot; [assumption..|]. now rewrite Hc. }
  specialize (HR child eq_refl).
  destruct (rec child value) as [c1|e c1]; cbn [final_state] in HR.
  + destruct (negb (truthy c1) && negb (has_priority_over c1 value false));
      cbn [final_state].
    * rewrite get_child_remove. now rewrite decide_True.
    * rewrite get_child_replace, Hh. now rewrite decide_True.
  + assert (Hslot : get_child (replace_child key c1 scs) key = Some c1)
      by (rewrite get_child_replace, Hh; now rewrite decide_True).
    destruct e; cbn [final_state]; try (now rewrite Hslot).
    apply merge_by_priority_slot; [assumption..|]. now rewrite Hslot.
- unfold set_child. destruct (shadows_class_attribute key);
    cbn [lift_result final_state]; [now rewrite Hc|].
  rewrite get_child_assign. now rewrite decide_True.
Qed.

Lemma merge_loop_preserves (P : children -> Prop) (ocs : children) :
(forall key value scs, In (key, value) ocs -> P scs ->
                       P (final_state (merge_step rec key value scs))) ->
forall scs, P scs -> P (final_state (merge_loop rec ocs scs)).
Proof.
induction ocs as [|[key value] ocs IH]; intros Hstep scs HP; [exact HP|].
cbn [merge_loop].
pose proof (Hstep key value scs (or_introl eq_refl) HP) as H1.
destruct (merge_step rec key value scs) as [scs1|e scs1]; cbn [final_state] in *.
- apply IH; [|exact H1]. intros k v s Hin. apply Hstep. now right.
- exact H1.
Qed.

Lemma merge_loop_other_keys (key : component) (ocs : children) :
get_child ocs key = None ->
forall scs, get_child (final_state (merge_loop rec ocs scs)) key = get_child scs key.
Proof.
intros Hnone scs.
apply (merge_loop_preserves (fun s => get_child s key = get_child scs key)); [|reflexivity].
intros k v s Hin <-. apply merge_step_other. intros ->.
induction ocs as [|[k' v'] ocs IH]; [contradiction|].
simpl in Hnone. destruct (decide (k' = key)) as [->|Hk]; [discriminate|].
destruct Hin as [[= -> ->]|Hin]; [congruence | auto].
Qed.

(** In a loop that returns, the slot [key] is decided by the turn for [key]. *)
Lemma merge_loop_split (key : component) (value : node) (ocs : children) :
keys_unique ocs = true ->
get_child ocs key = Some value ->
forall scs scs',
  merge_loop rec ocs scs = Returned scs' ->
  exists scs0 scs1,
    get_child scs0 key = get_child scs key
    /\ merge_step rec key value scs0 = Returned scs1
    /\ get_child scs' key = get_child scs1 key.
Proof.
induction ocs as [|[k v] ocs IH]; intros Hu Hget scs scs' Hloop; [discriminate|].
cbn [keys_unique] in Hu. apply andb_prop in Hu as [Hk Hu].
cbn [get_child] in Hget. cbn [merge_loop] in Hloop.
destruct (merge_step rec k v scs) as [scs1|e scs1] eqn:Hstep; [|discriminate].
destruct (decide (k = key)) as [->|Hne].
- injection Hget as ->. exists scs, scs1. repeat split; [assumption|].
  pose proof (merge_loop_other_keys key ocs) as Ho.
  apply negb_true_iff in Hk. unfold has_child in Hk.
  destruct (get_child ocs key) eqn:Hg; [discriminate|].
  specialize (Ho eq_refl scs1). now rewrite Hloop in Ho.
- destruct (IH Hu Hget scs1 scs' Hloop) as (scs0 & scs2 & H0 & H1 & H2).
  exists scs0, scs2. repeat split; [|assumption..].
  rewrite H0. pose proof (merge_step_other k key v scs Hne) as Ho.
  now rewrite Hstep in Ho.
Qed.

End Loop.

Lemma final_state_map {S T : Type} (f : S -> T) (o : outcome S) :
  final_state (outcome_map f o) = f (final_state o).
Proof. now destruct o. Qed.

Lemma well_formed_child (fl : flags) (cs : children) (key : component) (v : node) :
  well_formed (Dict fl cs) = true -> In (key, v) cs -> well_formed v = true.
Proof.
  cbn [well_formed]. intros [_ Hall]%andb_prop Hin.
  rewrite forallb_forall in Hall. exact (Hall _ Hin).
Qed.

(** The loop of [merge] creates no path that neither tree has. *)
Lemma merge_loop_no_new_path (k : component) (path : list component)
    (ofl fl : flags) (ocs scs : children) :
  (forall child value, well_formed value = true ->
      get_node child path = None -> get_node value path = None ->
      get_node (final_state (merge child value)) path = None) ->
  well_formed (Dict ofl ocs) = true ->
  get_node (Dict ofl ocs) (k :: path) = None ->
  get_node (Dict fl scs) (k :: path) = None ->
  get_node (Dict fl (final_state (merge_loop merge ocs scs))) (k :: path) = None.
Proof.
  intros Hrec Hwf Hother Hself.
  set (P := fun s : children =>
              match get_child s k with Some x => get_node x path | None => None end = None).
  change (P (final_state (merge_loop merge ocs scs))).
  apply merge_loop_preserves; [|exact Hself].
  intros key value s Hin HP. unfold P in *.
  destruct (decide (key = k)) as [->|Hne].
  - assert (Hv : get_node value path = None).
    { cbn [get_node] in Hother. cbn [well_formed] in Hwf.
      apply andb_prop in Hwf as [Hu _].
      now rewrite (keys_unique_In _ _ _ Hu Hin) in Hother. }
    apply (merge_step_slot merge k value s
             (fun o => match o with Some x => get_node x path | None => None end = None));
      [reflexivity | exact Hv | exact HP|].
    intros child Hc. rewrite Hc in HP.
    apply Hrec; [|assumption..]. eapply well_formed_child; eassumption.
  - now rewrite merge_step_other.
Qed.

Lemma merge_Dict (self : node) (ofl : flags) (ocs : children) :
  merge self (Dict ofl ocs)
  = match prune self (Dict ofl ocs) with
    | Scalar _ _ => Raised AttributeError self
    | Dict fl pruned => outcome_map (Dict fl) (merge_loop merge ocs pruned)
    end.
Proof. reflexivity. Qed.

Lemma prune_no_new_path (self other : node) (path : list component) :
  get_node self path = None -> get_node (prune self other) path = None.
Proof.
  unfold prune. destruct (delete other); [|auto]. apply filter_nodes_no_new_path.
Qed.

Lemma merge_no_new_path (path : list component) :
  forall self other,
    well_formed other = true ->
    get_node self path = None -> get_node other path = None ->
    get_node (final_state (merge self other)) path = None.
Proof.
  induction path as [|k path IH]; intros self other Hwf Hself Hother; [discriminate|].
  destruct other as [ofl ov|ofl ocs]; [exact Hself|].
  rewrite merge_Dict. pose proof (prune_no_new_path self (Dict ofl ocs) _ Hself) as Hp.
  destruct (prune self (Dict ofl ocs)) as [fl v|fl pruned]; [exact Hself|].
  rewrite final_state_map. now apply (merge_loop_no_new_path k path ofl).
Qed.

End MergeFacts.

(** ** Claims about [merge] and [filter_nodes] *)

Section TreeClaims.
Import Tree.


(** C1, at a failing input.  Merging the source [{a: 1, merge: 2}] into an
    empty [ConfigDict] inserts [a] and then raises [ValueError] at the key
    [merge], which shadows a class attribute: the exception leaves the
    destination changed, for [ComposedNode.merge] and for [ConfigDict.merge]
    alike, although the docstring of the latter promises the contrary. *)
Theorem merge_leaves_destination_changed_on_error :
  let a := Scalar no_flags (NInt 1) in
  let dst := Dict no_flags [] in
  let src := Dict no_flags [(Name "a", a); (Name "merge", Scalar no_flags (NInt 2))] in
  merge dst src = Raised ValueError (Dict no_flags [(Name "a", a)])
  /\ ConfigDict_merge dst src = Raised ValueError (Dict no_flags [(Name "a", a)])
  /\ final_state (merge dst src) <> dst
  /\ final_state (ConfigDict_merge dst src) <> dst.
Proof. repeat split; discriminate. Qed.

(** C2 (as amended).  [has_priority_over(a, b, if_equal)] holds iff [a] has
    the greater priority, or the priorities are equal and [if_equal] is set.
    When both trees hold a leaf under [key] and [merge] returns, the
    destination keeps its child exactly when that child has strictly higher
    priority; otherwise the slot holds the source's child, except that a
    source child that is false as a Python value and carries [delete]
    empties the slot (unless the source parent is itself in delete mode). *)
Theorem merge_leaf_conflict_by_priority :
  (forall (a b : flags) (if_equal : bool),
      Flags.has_priority_over a b if_equal = true
      <-> (Flags.priority a > Flags.priority b)%Z
          \/ (Flags.priority a = Flags.priority b /\ if_equal = true))
  /\ (forall (dfl ofl : flags) (dcs ocs : children) (key : component) (c v dst' : node),
        keys_unique dcs = true -> keys_unique ocs = true ->
        get_child dcs key = Some c -> is_leaf c = true ->
        get_child ocs key = Some v -> is_leaf v = true ->
        merge (Dict dfl dcs) (Dict ofl ocs) = Returned dst' ->
        get_node dst' [key]
        = if has_priority_over c v false then Some c
          else if negb (truthy v) && delete v && negb (Flags.delete ofl) then None
          else Some v).
Proof.
  split.
  - intros a b e. unfold Flags.has_priority_over.
    destruct (Z.eqb_spec (Flags.priority a) (Flags.priority b)) as [Heq|Hne].
    + split; [intros ->; right; now split | intros [?|[_ ?]]; [lia | assumption]].
    + rewrite Z.gtb_ltb, Z.ltb_lt. split; [intros; left; lia | intros [?|[? _]]; lia].
  - intros dfl ofl dcs ocs key c v dst' Hud Huo Hc Hcl Hv Hvl Hm.
    rewrite merge_Dict in Hm.
    assert (Hp : exists pruned,
               prune (Dict dfl dcs) (Dict ofl ocs) = Dict dfl pruned
               /\ get_child pruned key
                  = if Flags.delete ofl && negb (truthy v) && negb (has_priority_over c v false)
                    then None else Some c).
    { unfold prune, delete. cbn [node_flags]. destruct (Flags.delete ofl); cbn [andb].
      - pose proof (filter_nodes_child (maybe_keep (Dict ofl ocs)) [] dfl dcs key c Hud Hc) as Hf.
        rewrite filter_nodes_Dict in *. eexists; split; [reflexivity|].
        cbn [get_node] in Hf.
        match goal with |- ?l = _ => destruct l as [x|] eqn:Hl end.
        + destruct c as [cfl cv|]; [|discriminate].
          unfold keeps, maybe_keep in Hf. cbn [app get_node get_first_not_missing_node] in Hf.
          rewrite Hv in Hf. cbn [is_leaf orb filter_nodes] in Hf. rewrite andb_true_r in Hf.
          destruct (truthy v); cbn [negb andb]; [assumption|].
          destruct (has_priority_over (Scalar cfl cv) v false); cbn [negb] in *;
            [assumption | discriminate].
        + destruct c as [cfl cv|]; [|discriminate].
          unfold keeps, maybe_keep in Hf. cbn [app get_node get_first_not_missing_node] in Hf.
          rewrite Hv in Hf. cbn [is_leaf orb filter_nodes] in Hf. rewrite andb_true_r in Hf.
          destruct (truthy v); cbn [negb andb]; [discriminate|].
          destruct (has_priority_over (Scalar cfl cv) v false); cbn [negb] in *;
            [discriminate | reflexivity].
      - eexists; split; [reflexivity | exact Hc]. }
    destruct Hp as (pruned & Hpr & Hslot). rewrite Hpr in Hm.
    destruct (merge_loop merge ocs pruned) as [scs'|] eqn:Hloop; [|discriminate].
    injection Hm as <-. cbn [get_node].
    destruct (merge_loop_split merge key v ocs Huo Hv _ _ Hloop)
      as (scs0 & scs1 & H0 & Hstep & ->).
    rewrite Hslot in H0. unfold merge_step in Hstep.
    destruct (Flags.delete ofl), (truthy v) eqn:HT, (has_priority_over c v false) eqn:HP;
      cbn [andb negb] in *; rewrite H0 in Hstep; rewrite ?Hcl in Hstep;
      unfold merge_by_priority, set_child in Hstep;
      rewrite ?has_priority_over_flip, ?HP, ?HT in Hstep; cbn [negb andb] in Hstep;
      repeat match type of Hstep with
             | context [if ?b then _ else _] => destruct b
             end;
      try discriminate; injection Hstep as <-;
      rewrite ?get_child_assign, ?get_child_remove, ?decide_True by reflexivity;
      rewrite ?H0, ?andb_false_r; reflexivity.
Qed.

Lemma merge_leaf_conflict_by_priority_witness :
  get_node (Dict no_flags [(Name "a", Scalar (priority_flags FORCE) (NInt 2))]) [Name "a"]
  = Some (Scalar (priority_flags FORCE) (NInt 2)).
Proof.
  exact (proj2 merge_leaf_conflict_by_priority no_flags no_flags
           [(Name "a", Scalar no_flags (NInt 1))]
           [(Name "a", Scalar (priority_flags FORCE) (NInt 2))]
           (Name "a") (Scalar no_flags (NInt 1)) (Scalar (priority_flags FORCE) (NInt 2))
           (Dict no_flags [(Name "a", Scalar (priority_flags FORCE) (NInt 2))])
           eq_refl eq_refl eq_refl eq_refl eq_refl eq_refl eq_refl).
Defined.

(** C2, counterexample.  The destination leaf [a: 1] does not have strictly
    higher priority than the source leaf [a: !del] (an empty value, tagged
    for deletion), yet the merge does not put the source's child in the
    slot: the key is removed. *)
Lemma merge_leaf_conflict_removes_key :
  let c := Scalar no_flags (NInt 1) in
  let v := Scalar del_flags NNone in
  has_priority_over c v false = false
  /\ merge (Dict no_flags [(Name "a", c)]) (Dict no_flags [(Name "a", v)])
     = Returned (Dict no_flags []).
Proof. split; reflexivity. Qed.

(** C3.  When the source (a composed node) has its delete flag set, a node
    of the destination whose path is missing from the source and that has
    not strictly higher priority than the deepest node of the source along
    that path is gone after the pruning, and stays gone in the state in which
    [merge] leaves the destination.  Merging [{a: {b: 1, c: 2}}] with
    [{a: !del {b: 10}}] gives [{a: {b: 10}}]. *)
Theorem merge_delete_prunes_subtree :
  (forall (dst src : node) (path : list component) (n : node),
      is_leaf src = false -> well_formed src = true -> delete src = true ->
      get_node dst path = Some n ->
      get_node src path = None ->
      has_priority_over n (get_first_not_missing_node src path) false = false ->
      get_node (prune dst src) path = None
      /\ get_node (final_state (merge dst src)) path = None)
  /\ merge (Dict no_flags [(Name "a", Dict no_flags [(Name "b", Scalar no_flags (NInt 1));
                                                    (Name "c", Scalar no_flags (NInt 2))])])
           (Dict no_flags [(Name "a", Dict del_flags [(Name "b", Scalar no_flags (NInt 10))])])
     = Returned (Dict no_flags [(Name "a", Dict no_flags [(Name "b", Scalar no_flags (NInt 10))])]).
Proof.
  split; [|reflexivity].
  intros dst src path n Hleaf Hwf Hdel Hdst Hsrc Hpo.
  assert (Hprune : get_node (prune dst src) path = None).
  { unfold prune. rewrite Hdel. apply (filter_nodes_removes _ path dst [] n).
    - intros ->. discriminate.
    - exact Hdst.
    - cbn [app]. unfold maybe_keep. now rewrite Hsrc. }
  split; [exact Hprune|].
  destruct src as [ofl ov|ofl ocs]; [discriminate|].
  rewrite merge_Dict.
  destruct path as [|k path]; [discriminate|].
  destruct (prune dst (Dict ofl ocs)) as [fl v|fl pruned] eqn:Hp.
  - unfold prune in Hp. rewrite Hdel in Hp.
    destruct dst as [dfl dv|dfl dcs]; [discriminate|].
    rewrite filter_nodes_Dict in Hp. discriminate.
  - rewrite final_state_map.
    apply (merge_loop_no_new_path k path ofl); try assumption.
    intros child value Hv Hc1 Hv1. now apply merge_no_new_path.
Qed.

Lemma merge_delete_prunes_subtree_witness :
  get_node (final_state
              (merge (Dict no_flags [(Name "b", Scalar no_flags (NInt 1));
                                     (Name "c", Scalar no_flags (NInt 2))])
                     (Dict del_flags [(Name "b", Scalar no_flags (NInt 10))])))
           [Name "c"] = None.
Proof.
  apply (proj1 merge_delete_prunes_subtree _ _ [Name "c"] (Scalar no_flags (NInt 2)));
    reflexivity.
Defined.

(** C4, at a failing input.  No merge checks the allow-new flag.
    [ConfigNode.merge], the one method that holds the check, raises
    [AttributeError] at its first statement for every leaf and every
    destination, so that a node whose [allow_new] is false and that has no
    destination gets that exception and never the [ValueError] of the check.
    [ComposedNode.merge] makes no check: whenever it returns, a child of the
    source under a key that the destination lacks was inserted as it is;
    and the node whose allow-new flag is false, merged as the brand-new key
    [a] into the empty destination, is inserted. *)
Theorem allow_new_check_is_never_reached :
  (forall (fl : flags) (v : native) (other : option node),
      ConfigNode_merge fl v other = Raise AttributeError)
  /\ (forall (dfl ofl : flags) (dcs ocs : children) (key : component) (value dst' : node),
        keys_unique ocs = true ->
        get_child ocs key = Some value ->
        get_child dcs key = None ->
        merge (Dict dfl dcs) (Dict ofl ocs) = Returned dst' ->
        get_node dst' [key] = Some value)
  /\ allow_new (Scalar not_new_flags (NInt 1)) = false
  /\ ConfigNode_merge not_new_flags (NInt 1) None <> Raise ValueError
  /\ merge (Dict no_flags []) (Dict no_flags [(Name "a", Scalar not_new_flags (NInt 1))])
     = Returned (Dict no_flags [(Name "a", Scalar not_new_flags (NInt 1))]).
Proof.
  split_conj.
  - intros fl v other. reflexivity.
  - intros dfl ofl dcs ocs key value dst' Huo Hv Hc Hm.
    rewrite merge_Dict in Hm.
    assert (Hp : get_node (prune (Dict dfl dcs) (Dict ofl ocs)) [key] = None)
      by (apply prune_no_new_path; cbn [get_node]; now rewrite Hc).
    destruct (prune (Dict dfl dcs) (Dict ofl ocs)) as [fl v|fl pruned]; [discriminate|].
    destruct (merge_loop merge ocs pruned) as [scs'|] eqn:Hloop; [|discriminate].
    injection Hm as <-.
    destruct (merge_loop_split merge key value ocs Huo Hv _ _ Hloop)
      as (scs0 & scs1 & H0 & Hstep & H1).
    cbn [get_node] in *. rewrite H1.
    destruct (get_child pruned key) as [x|] eqn:Hx; [discriminate|].
    unfold merge_step, set_child in Hstep. rewrite H0 in Hstep.
    destruct (shadows_class_attribute key); [discriminate|].
    injection Hstep as <-. rewrite get_child_assign. now rewrite decide_True.
  - reflexivity.
  - discriminate.
  - reflexivity.
Qed.

Lemma allow_new_check_is_never_reached_witness :
  get_node (Dict no_flags [(Name "x", Scalar no_flags (NInt 1));
                           (Name "a", Scalar no_flags (NInt 2))]) [Name "a"]
  = Some (Scalar no_flags (NInt 2)).
Proof.
  exact (proj1 (proj2 allow_new_check_is_never_reached)
           no_flags no_flags [(Name "x", Scalar no_flags (NInt 1))]
           [(Name "a", Scalar no_flags (NInt 2))] (Name "a") (Scalar no_flags (NInt 2))
           (Dict no_flags [(Name "x", Scalar no_flags (NInt 1));
                           (Name "a", Scalar no_flags (NInt 2))])
           eq_refl eq_refl eq_refl eq_refl).
Defined.

(** C7 (as amended).  [filter_nodes] removes a leaf child exactly when the
    condition rejects it, and a composed child exactly when the condition
    rejects it or filtering its subtree leaves it empty; a child that stays
    is the child after the filtering of its own subtree. *)
Theorem filter_nodes_keep_rule
    (condition : list component -> node -> bool) (prefix : list component)
    (fl : flags) (cs : children) (name : component) (child : node) :
  keys_unique cs = true ->
  get_child cs name = Some child ->
  get_node (filter_nodes condition prefix (Dict fl cs)) [name]
  = if condition (prefix ++ [name]) child
       && (is_leaf child || truthy (filter_nodes condition (prefix ++ [name]) child))
    then Some (filter_nodes condition (prefix ++ [name]) child)
    else None.
Proof. apply filter_nodes_child. Qed.

Lemma filter_nodes_keep_rule_witness :
  get_node (filter_nodes only_a_b []
              (Dict no_flags [(Name "a", Dict no_flags [(Name "b", Scalar no_flags (NInt 1))])]))
           [Name "a"] = None.
Proof.
  exact (filter_nodes_keep_rule only_a_b [] no_flags
           [(Name "a", Dict no_flags [(Name "b", Scalar no_flags (NInt 1))])]
           (Name "a") (Dict no_flags [(Name "b", Scalar no_flags (NInt 1))])
           eq_refl eq_refl).
Defined.

(** C7, counterexample.  In [{a: {b: 1}}] the condition rejects [a] and
    accepts its descendant [a.b], which survives the filtering of the subtree
    of [a]; [filter_nodes] removes [a] all the same. *)
Lemma filter_nodes_drops_child_with_surviving_descendant :
  let b := Scalar no_flags (NInt 1) in
  let a := Dict no_flags [(Name "b", b)] in
  only_a_b [Name "a"] a = false
  /\ only_a_b [Name "a"; Name "b"] b = true
  /\ filter_nodes only_a_b [Name "a"] a = a
  /\ filter_nodes only_a_b [] (Dict no_flags [(Name "a", a)]) = Dict no_flags [].
Proof. repeat split; reflexivity. Qed.

End TreeClaims.

(** ** Objects: the constructor, [map_nodes] and [evaluate] *)

Section HeapFacts.
Import Heap.

Lemma inherit_no_kwargs (fl : flags) : inherit_kwargs no_kwargs fl = fl.
Proof. now destruct fl. Qed.

Lemma heap_get_child_replace (name key : component) (v : addr) (cs : list (component * addr)) :
  get_child (replace_child name v cs) key
  = if decide (name = key) then (match get_child cs name with Some _ => Some v | None => None end)
    else get_child cs key.
Proof.
  induction cs as [|[k c] cs IH]; simpl.
  - now destruct (decide (name = key)).
  - destruct (decide (k = name)) as [->|Hk]; simpl.
    + now destruct (decide (name = key)).
    + destruct (decide (k = key)) as [->|Hk'].
      * destruct (decide (name = key)); [congruence | reflexivity].
      * exact IH.
Qed.

Lemma heap_get_child_app (cs1 cs2 : list (component * addr)) (key : component) :
  get_child (cs1 ++ cs2) key
  = match get_child cs1 key with Some v => Some v | None => get_child cs2 key end.
Proof.
  induction cs1 as [|[k c] cs1 IH]; simpl; [reflexivity|].
  destruct (decide (k = key)); [reflexivity | exact IH].
Qed.

Lemma heap_get_child_assign (name key : component) (v : addr) (cs : list (component * addr)) :
  get_child (assign_child name v cs) key
  = if decide (name = key) then Some v else get_child cs key.
Proof.
  unfold assign_child. destruct (get_child cs name) eqn:Hh.
  - rewrite heap_get_child_replace, Hh. reflexivity.
  - rewrite heap_get_child_app. simpl.
    destruct (decide (name = key)) as [<-|].
    + now rewrite Hh.
    + now destruct (get_child cs key).
Qed.

Lemma heap_get_child_In (cs : list (component * addr)) (key : component) (v : addr) :
  get_child cs key = Some v -> In (key, v) cs.
Proof.
  induction cs as [|[k c] cs IH]; simpl; [discriminate|].
  destruct (decide (k = key)) as [->|]; [intros [= ->]; now left | auto].
Qed.

Lemma children_of_alter_flags (f : flags -> flags) (v a : addr) (h : heap) :
  children_of (alter (fun o => set_flags (f (o_flags o)) o) v h) a = children_of h a.
Proof.
  unfold children_of. destruct (decide (v = a)) as [->|Hne].
  - rewrite list_lookup_alter_eq. destruct (h !! a) as [[fl [x|cs]]|]; reflexivity.
  - now rewrite list_lookup_alter_ne.
Qed.

Lemma children_of_alter_children (g : list (component * addr) -> list (component * addr))
    (self a : addr) (h : heap) :
  children_of (alter (fun o => match o_body o with
                               | BDict cs => set_children (g cs) o
                               | BScalar _ => o
                               end) self h) a
  = if decide (a = self) then option_map g (children_of h self) else children_of h a.
Proof.
  unfold children_of. destruct (decide (a = self)) as [->|Hne].
  - rewrite list_lookup_alter_eq. destruct (h !! self) as [[fl [x|cs]]|]; reflexivity.
  - now rewrite list_lookup_alter_ne.
Qed.

Lemma set_child_node (h h' : heap) (self : addr) (name : component) (v : addr) :
  set_child h self name (PNode v) = Ok h' ->
  forall a, children_of h' a
            = if decide (a = self) then option_map (assign_child name v) (children_of h self)
              else children_of h a.
Proof.
  unfold set_child. destruct (shadows_class_attribute name); [discriminate|].
  cbn [ConfigNode_call bind_result]. intros [= <-] a.
  rewrite children_of_alter_children.
  now rewrite !(children_of_alter_flags (inherit_kwargs no_kwargs)).
Qed.

Lemma re_set_spec (self : addr) (trs : list (component * pyobj)) :
  Forall (fun kv => exists v, snd kv = PNode v) trs ->
  forall st st' u,
    re_set self trs st = Returns u st' ->
    st_cache st' = st_cache st /\ st_calls st' = st_calls st
    /\ forall a, children_of (st_heap st') a
                 = if decide (a = self)
                   then option_map (apply_assigns trs) (children_of (st_heap st) self)
                   else children_of (st_heap st) a.
Proof.
  induction trs as [|[n x] trs IH]; intros Hall st st' u Hrun.
  - injection Hrun as _ <-. repeat split. intros a.
    destruct (decide (a = self)) as [->|]; [|reflexivity].
    now destruct (children_of (st_heap st) self).
  - apply Forall_cons in Hall as [[v Hx] Hall]. simpl in Hx. subst x.
    cbn [re_set] in Hrun.
    destruct (set_child (st_heap st) self n (PNode v)) as [h1|e] eqn:Hset; [|discriminate].
    destruct (IH Hall _ _ _ Hrun) as (Hc & Hl & Hch). cbn [st_cache st_calls st_heap] in *.
    repeat split; [assumption..|]. intros a. rewrite Hch.
    rewrite !(set_child_node _ _ _ _ _ Hset).
    destruct (decide (a = self)) as [->|]; [|reflexivity].
    rewrite decide_True by reflexivity.
    now destruct (children_of (st_heap st) self).
Qed.

Lemma apply_assigns_app (t1 t2 : list (component * pyobj)) (cs : list (component * addr)) :
  apply_assigns (t1 ++ t2) cs = apply_assigns t2 (apply_assigns t1 cs).
Proof. unfold apply_assigns. apply fold_left_app. Qed.

Lemma get_child_apply_assigns (c : gmap addr pyobj) (cs : list (component * addr)) :
  keys_unique cs = true ->
  forall cs0 n,
    get_child (apply_assigns (re_set_of c cs) cs0) n
    = match get_child cs n with
      | Some x =>
          match c !! x with
          | Some (PNode r) => if Nat.eqb r x then get_child cs0 n else Some r
          | _ => get_child cs0 n
          end
      | None => get_child cs0 n
      end.
Proof.
  induction cs as [|[m y] cs IH]; intros Hu cs0 n; [reflexivity|].
  cbn [keys_unique] in Hu. apply andb_prop in Hu as [Hm Hu].
  change (re_set_of c ((m, y) :: cs))
    with (match c !! y with
          | Some r => if is_same r y then [] else [(m, r)]
          | None => []
          end ++ re_set_of c cs).
  rewrite apply_assigns_app, (IH Hu). cbn [get_child].
  destruct (decide (m = n)) as [->|Hne].
  - destruct (get_child cs n); [discriminate|].
    destruct (c !! y) as [[r|v]|]; cbn [is_same]; try reflexivity.
    destruct (Nat.eqb r y); [reflexivity|]. cbn [apply_assigns fold_left].
    rewrite heap_get_child_assign. now rewrite decide_True.
  - assert (Hsame : get_child
                      (apply_assigns
                         match c !! y with
                         | Some r => if is_same r y then [] else [(m, r)]
                         | None => []
                         end cs0) n = get_child cs0 n).
    { destruct (c !! y) as [[r|v]|]; cbn [is_same]; try reflexivity.
      destruct (Nat.eqb r y); [reflexivity|]. cbn [apply_assigns fold_left].
      rewrite heap_get_child_assign. now rewrite decide_False. }
    now rewrite Hsame.
Qed.

End HeapFacts.

Section PassFacts.
Import Heap.
Variable rank : addr -> nat.
Variable h0 : heap.
Variable map_fn : heap -> list component -> addr -> pyobj.
Variable leafs_only : bool.
Hypothesis Hacyclic : acyclic rank h0.
Hypothesis Hwf : dicts_well_formed h0.
Hypothesis Hnodes : returns_nodes map_fn.

Lemma grows_trans (b : nat) (st st1 st2 : state) :
  grows rank b st st1 -> grows rank b st1 st2 -> grows rank b st st2.
Proof.
  intros [H1 H2] [H3 H4]. split.
  - intros a r Ha. apply H3, H1, Ha.
  - intros a Ha Hc. destruct (st_cache st1 !! a) as [r|] eqn:Ha1.
    + apply H2; [assumption|]. unfold cached. rewrite Ha1. eauto.
    + now apply H4.
Qed.

Lemma frame_trans (b : nat) (st st1 st2 : state) :
  grows rank b st st1 -> grows rank b st1 st2 ->
  frame None st st1 -> frame None st1 st2 -> frame None st st2.
Proof.
  intros [H1 _] [H3 _] F1 F2 a _ [[r Ha]|Ha].
  - rewrite F2 by (try discriminate; left; unfold cached; erewrite H1; eauto).
    apply F1; [discriminate | left; unfold cached; rewrite Ha; eauto].
  - assert (Ha1 : st_cache st1 !! a = None).
    { destruct (st_cache st1 !! a) as [r|] eqn:E; [|reflexivity].
      apply H3 in E. congruence. }
    rewrite F2 by (try discriminate; now right).
    apply F1; [discriminate | now right].
Qed.

Lemma re_set_of_ext (c c' : gmap addr pyobj) (cs : list (component * addr)) :
  (forall n x, In (n, x) cs -> c !! x = c' !! x) -> re_set_of c cs = re_set_of c' cs.
Proof.
  induction cs as [|[n x] cs IH]; intros H; [reflexivity|].
  unfold re_set_of in *. cbn [flat_map]. rewrite (H n x) by now left.
  f_equal. apply IH. intros n' x' Hin. apply (H n'). now right.
Qed.

Lemma re_set_of_snoc (c : gmap addr pyobj) (cs : list (component * addr))
    (n : component) (x : addr) :
  re_set_of c (cs ++ [(n, x)])
  = re_set_of c cs ++ match c !! x with
                      | Some r => if is_same r x then [] else [(n, r)]
                      | None => []
                      end.
Proof. unfold re_set_of. rewrite flat_map_app. cbn [flat_map]. now rewrite app_nil_r. Qed.

Lemma re_set_of_nodes (c : gmap addr pyobj) (cs : list (component * addr)) :
  (forall a r, c !! a = Some r -> exists b, r = PNode b) ->
  Forall (fun kv => exists v, snd kv = PNode v) (re_set_of c cs).
Proof.
  intros Hc. induction cs as [|[n x] cs IH]; [constructor|].
  unfold re_set_of in *. cbn [flat_map]. apply Forall_app. split; [|exact IH].
  destruct (c !! x) as [r|] eqn:E; [|constructor].
  destruct (is_same r x); [constructor|]. constructor; [|constructor].
  simpl. eauto.
Qed.

(** The invariant across one child of the first loop. *)
Lemma visit_step (fuel : nat) (self : addr) (prefix : list component)
    (name : component) (child : addr) (st st1 : state) (r : pyobj) :
  (forall self prefix st ret st',
      st_cache st !! self = None ->
      uncached_unchanged h0 st -> cache_of_nodes st ->
      cached_slots_replaced h0 st -> calls_cached None st ->
      map_nodes map_fn true leafs_only fuel self prefix st = Returns ret st' ->
      pass_post rank h0 self st ret st') ->
  loop_invariant h0 self st -> rank child < rank self ->
  visit_child map_fn true (map_nodes map_fn true leafs_only fuel) prefix name child st
  = Returns r st1 ->
  (exists b, r = PNode b)
  /\ loop_invariant h0 self (cache_put child r st1)
  /\ grows rank (rank self) st (cache_put child r st1)
  /\ frame None st (cache_put child r st1).
Proof.
  intros IH (Hself & Hun & Hcn & Hsl & Hnd & Hcc) Hrank Hvisit.
  unfold visit_child in Hvisit.
  destruct (st_cache st !! child) as [cr|] eqn:Hchild.
  - (* the child is cached already *)
    injection Hvisit as <- <-.
    assert (Hput : st_cache (cache_put child cr st) = st_cache st)
      by (unfold cache_put; cbn [st_cache]; now apply insert_id).
    split; [now apply (Hcn child)|].
    unfold loop_invariant, uncached_unchanged, cache_of_nodes, cached_slots_replaced,
      slots_replaced, calls_cached, grows, frame, cached.
    rewrite Hput. cbn [cache_put st_heap st_calls].
    repeat split; try assumption; try (intros; reflexivity); try (intros; assumption).
    intros a Ha [r' Hr']. congruence.
  - destruct (st_heap st !! child) as [[cfl [v|ccs]]|] eqn:Hobj; [| |discriminate].
    + (* a leaf child: the transform is applied *)
      unfold apply_fn in Hvisit. injection Hvisit as <- <-.
      destruct (Hnodes (st_heap st) (prefix ++ [name]) child) as [b Hb]. rewrite Hb.
      assert (Hne : child <> self) by (intros ->; lia).
      split; [eauto|].
      unfold loop_invariant, uncached_unchanged, cache_of_nodes, cached_slots_replaced,
        slots_replaced, calls_cached, grows, frame, cached, cache_put.
      cbn [st_cache st_heap st_calls].
      repeat split.
      * now rewrite lookup_insert_ne.
      * intros a Ha. apply lookup_insert_None in Ha as [Ha _]. now apply Hun.
      * intros a r' Ha. apply lookup_insert_Some in Ha as [[_ <-]|[_ Ha]]; eauto.
      * intros d Hd cs n x Hcs Hx.
        destruct (decide (d = child)) as [->|Hdc].
        -- rewrite <- (Hun child Hchild) in Hcs. unfold children_of in Hcs.
           rewrite Hobj in Hcs. discriminate.
        -- rewrite lookup_insert_ne in Hd by congruence.
           destruct (Hsl d Hd cs n x Hcs Hx) as (r' & Hr' & Hch).
           exists r'. split; [|exact Hch].
           rewrite lookup_insert_ne; [exact Hr' | congruence].
      * constructor; [|exact Hnd]. intros Hin.
        destruct (Hcc _ Hin) as [?|[? ?]]; congruence.
      * intros a [->|Hin]%elem_of_cons; right.
        -- rewrite lookup_insert_eq. eauto.
        -- destruct (Hcc _ Hin) as [?|[r' Hr']]; [discriminate|].
           destruct (decide (child = a)) as [->|]; [congruence|].
           rewrite lookup_insert_ne by assumption. eauto.
      * intros a r' Ha. rewrite lookup_insert_ne; [exact Ha | congruence].
      * intros a Ha [r' Hr']. apply lookup_insert_Some in Hr' as [[<- _]|[_ Hr']];
          [exact Hrank | congruence].
    + (* a composed child: the recursive call *)
      pose proof (IH child (prefix ++ [name]) st r st1 Hchild Hun Hcn Hsl (conj Hnd Hcc) Hvisit)
        as ((b & ->) & (Hg1 & Hg2) & Hfr & Hcn1 & Hslc & Hsl1 & Hnd1 & Hcc1).
      assert (Hne : child <> self) by (intros ->; lia).
      assert (Hchild1 : st_cache st1 !! child = None).
      { destruct (st_cache st1 !! child) as [x|] eqn:E; [|reflexivity].
        assert (rank child < rank child); [|lia].
        apply Hg2; [assumption | unfold cached; rewrite E; eauto]. }
      assert (Hself1 : st_cache st1 !! self = None).
      { destruct (st_cache st1 !! self) as [x|] eqn:E; [|reflexivity].
        assert (rank self < rank child); [|lia].
        apply Hg2; [assumption | unfold cached; rewrite E; eauto]. }
      assert (Hback : forall a, st_cache st1 !! a = None -> st_cache st !! a = None).
      { intros a Ha. destruct (st_cache st !! a) as [x|] eqn:E; [|reflexivity].
        apply Hg1 in E. congruence. }
      split; [eauto|].
      unfold loop_invariant, uncached_unchanged, cache_of_nodes, cached_slots_replaced,
        slots_replaced, calls_cached, grows, frame, cached, cache_put.
      cbn [st_cache st_heap st_calls].
      repeat split.
      * now rewrite lookup_insert_ne.
      * intros a Ha. apply lookup_insert_None in Ha as [Ha Hac].
        rewrite Hfr; [now apply Hun, Hback | congruence | now right].
      * intros a r' Ha. apply lookup_insert_Some in Ha as [[_ <-]|[_ Ha]]; eauto.
      * intros d Hd cs n x Hcs Hx.
        assert (Hslots : exists r', st_cache st1 !! x = Some (PNode r')
                                    /\ child_of (st_heap st1) d n = Some r').
        { destruct (decide (d = child)) as [->|Hdc]; [now apply (Hslc cs)|].
          rewrite lookup_insert_ne in Hd by congruence. now apply (Hsl1 d Hd cs). }
        destruct Hslots as (r' & Hr' & Hch). exists r'. split; [|exact Hch].
        rewrite lookup_insert_ne; [exact Hr' | congruence].
      * exact Hnd1.
      * intros a Hin. right. destruct (Hcc1 _ Hin) as [[= ->]|[r' Hr']].
        -- rewrite lookup_insert_eq. eauto.
        -- destruct (decide (child = a)) as [->|]; [congruence|].
           rewrite lookup_insert_ne by assumption. eauto.
      * intros a r' Ha. rewrite lookup_insert_ne; [now apply Hg1 | congruence].
      * intros a Ha [r' Hr']. apply lookup_insert_Some in Hr' as [[<- _]|[_ Hr']];
          [exact Hrank|].
        assert (rank a < rank child); [|lia].
        apply Hg2; [assumption | unfold cached; rewrite Hr'; eauto].
      * intros a _ [[r' Hr']|Ha].
        -- apply Hfr; [congruence | left; unfold cached; rewrite Hr'; eauto].
        -- apply lookup_insert_None in Ha as [Ha Hac].
           apply Hfr; [congruence | now right].
Qed.

(** The first loop of [map_nodes] on [self], whose children are [cs_all]. *)
Lemma map_children_post (fuel : nat) (self : addr) (prefix : list component)
    (cs_all : list (component * addr)) :
  (forall self prefix st ret st',
      st_cache st !! self = None ->
      uncached_unchanged h0 st -> cache_of_nodes st ->
      cached_slots_replaced h0 st -> calls_cached None st ->
      map_nodes map_fn true leafs_only fuel self prefix st = Returns ret st' ->
      pass_post rank h0 self st ret st') ->
  children_of h0 self = Some cs_all ->
  forall rest done trs st trs' st',
    cs_all = done ++ rest ->
    loop_invariant h0 self st ->
    (forall n x, In (n, x) done -> cached st x) ->
    trs = re_set_of (st_cache st) done ->
    map_children map_fn true (map_nodes map_fn true leafs_only fuel) prefix rest trs st
    = Returns trs' st' ->
    loop_invariant h0 self st'
    /\ (forall n x, In (n, x) cs_all -> cached st' x)
    /\ trs' = re_set_of (st_cache st') cs_all
    /\ grows rank (rank self) st st' /\ frame None st st'.
Proof.
  intros IH Hcs. induction rest as [|[name child] rest IHrest];
    intros done trs st trs' st' Hsplit Hinv Hdone Htrs Hrun.
  - injection Hrun as <- <-. rewrite app_nil_r in Hsplit. subst done.
    split_conj; try assumption.
    + split; [intros a r Ha; exact Ha | intros a Ha [r Hr]; congruence].
    + intros a _ _. reflexivity.
  - cbn [map_children] in Hrun.
    destruct (visit_child map_fn true (map_nodes map_fn true leafs_only fuel)
                prefix name child st) as [|e st1|r st1] eqn:Hvisit; try discriminate.
    assert (Hrank : rank child < rank self).
    { apply (Hacyclic self cs_all name); [assumption|]. rewrite Hsplit.
      apply in_or_app. right. now left. }
    destruct (visit_step fuel self prefix name child st st1 r IH Hinv Hrank Hvisit)
      as ((b & ->) & Hinv2 & Hg & Hf).
    set (st2 := cache_put child (PNode b) st1) in *.
    assert (Hchild2 : st_cache st2 !! child = Some (PNode b))
      by (unfold st2, cache_put; cbn [st_cache]; apply lookup_insert_eq).
    assert (Hdone2 : forall n x, In (n, x) (done ++ [(name, child)]) -> cached st2 x).
    { intros n x [Hin|[[= <- <-]|[]]]%in_app_or.
      - destruct (Hdone n x Hin) as [r Hr]. exists r. now apply Hg.
      - unfold cached. rewrite Hchild2. eauto. }
    destruct (IHrest (done ++ [(name, child)])
                (if is_same (PNode b) child then trs else trs ++ [(name, PNode b)])
                st2 trs' st') as (Hinv' & Hall & Htrs' & Hg' & Hf');
      try assumption.
    + now rewrite <- app_assoc.
    + rewrite re_set_of_snoc, Hchild2. subst trs.
      rewrite (re_set_of_ext (st_cache st2) (st_cache st) done).
      * destruct (is_same (PNode b) child); [now rewrite app_nil_r | reflexivity].
      * intros n x Hin. destruct (Hdone n x Hin) as [r Hr]. rewrite Hr.
        now apply Hg.
    + split_conj; try assumption.
      * eapply grows_trans; eassumption.
      * eapply frame_trans; eassumption.
Qed.

(** What holds when [map_nodes] returns. *)
Lemma map_nodes_post (fuel : nat) :
  forall self prefix st ret st',
    st_cache st !! self = None ->
    uncached_unchanged h0 st -> cache_of_nodes st ->
    cached_slots_replaced h0 st -> calls_cached None st ->
    map_nodes map_fn true leafs_only fuel self prefix st = Returns ret st' ->
    pass_post rank h0 self st ret st'.
Proof.
  induction fuel as [|fuel IH]; intros self prefix st ret st' Hself Hun Hcn Hsl Hcc Hrun;
    [discriminate|].
  cbn [map_nodes] in Hrun.
  destruct (children_of (st_heap st) self) as [cs|] eqn:Hcs; [|discriminate].
  assert (Hcs0 : children_of h0 self = Some cs) by (now rewrite <- (Hun self Hself)).
  destruct (map_children map_fn true (map_nodes map_fn true leafs_only fuel) prefix cs [] st)
    as [|e st1|trs st1] eqn:Hloop; try discriminate.
  destruct (map_children_post fuel self prefix cs IH Hcs0 cs [] [] st trs st1)
    as ((Hself1 & Hun1 & Hcn1 & Hsl1 & (Hnd1 & Hcc1)) & Hall & Htrs & Hg & Hf);
    try assumption; try reflexivity.
  { unfold loop_invariant. split_conj; assumption. }
  { intros n x []. }
  destruct (re_set self trs st1) as [|e st2|u st2] eqn:Hre; try discriminate.
  destruct (re_set_spec self trs (eq_ind_r _ (re_set_of_nodes _ cs Hcn1) Htrs) _ _ _ Hre)
    as (Hc2 & Hl2 & Hch2).
  assert (Hslots : slots_replaced h0 st2 self).
  { intros cs' n x Hcs' Hx. rewrite Hcs0 in Hcs'. injection Hcs' as <-.
    destruct (Hall n x (heap_get_child_In _ _ _ Hx)) as [r Hr].
    destruct (Hcn1 _ _ Hr) as [b ->]. exists b. rewrite Hc2. split; [exact Hr|].
    unfold child_of. rewrite Hch2, decide_True by reflexivity.
    rewrite (Hun1 self Hself1), Hcs0. cbn [option_map]. rewrite Htrs.
    rewrite (get_child_apply_assigns _ cs (Hwf _ _ Hcs0)), Hx, Hr.
    destruct (Nat.eqb_spec b x) as [->|]; reflexivity. }
  assert (Hother : forall a, a <> self ->
                     children_of (st_heap st2) a = children_of (st_heap st1) a).
  { intros a Ha. rewrite Hch2. now rewrite decide_False. }
  assert (Hcached : cached_slots_replaced h0 st2).
  { intros d [r Hr] cs' n x Hcs' Hx. rewrite Hc2 in Hr.
    assert (Hd : d <> self) by congruence.
    destruct (Hsl1 d (ex_intro _ r Hr) cs' n x Hcs' Hx) as (r' & Hr' & Hch).
    exists r'. rewrite Hc2. split; [exact Hr'|].
    unfold child_of in *. now rewrite Hother. }
  assert (Hframe : forall st3, st_heap st3 = st_heap st2 -> st_cache st3 = st_cache st2 ->
                               frame (Some self) st st3).
  { intros st3 Hh3 Hc3 a Ha Hor. rewrite Hh3, Hother by congruence.
    apply Hf; [discriminate|]. now rewrite Hc3, Hc2 in Hor. }
  assert (Hgrows : forall st3, st_cache st3 = st_cache st2 -> grows rank (rank self) st st3).
  { intros st3 Hc3. destruct Hg as [Hg1 Hg2]. unfold grows, cached.
    rewrite Hc3, Hc2. split; assumption. }
  destruct leafs_only.
  - injection Hrun as <- <-. unfold pass_post. split_conj.
    + eauto.
    + now apply Hgrows.
    + now apply Hframe.
    + unfold cache_of_nodes. rewrite Hc2. exact Hcn1.
    + exact Hslots.
    + exact Hcached.
    + split; rewrite Hl2; [exact Hnd1|].
      intros a Hin. right. unfold cached. rewrite Hc2.
      destruct (Hcc1 a Hin) as [?|?]; [discriminate | assumption].
  - unfold apply_fn in Hrun. injection Hrun as <- <-.
    destruct (Hnodes (st_heap st2) prefix self) as [b Hb]. unfold pass_post. split_conj.
    + eauto.
    + now apply Hgrows.
    + now apply Hframe.
    + unfold cache_of_nodes. cbn [st_cache]. rewrite Hc2. exact Hcn1.
    + exact Hslots.
    + exact Hcached.
    + split; cbn [st_calls]; rewrite Hl2.
      * constructor; [|exact Hnd1].
        intros Hin. destruct (Hcc1 _ Hin) as [?|[r Hr]]; congruence.
      * intros a [->|Hin]%elem_of_cons; [now left|]. right.
        unfold cached. cbn [st_cache]. rewrite Hc2.
        destruct (Hcc1 a Hin) as [?|?]; [discriminate | assumption].
Qed.

(** *** The pass returns *)

Hypothesis Hclosed : closed h0.
Hypothesis Hnames : no_shadowing h0.

Lemma alter_present (f : obj -> obj) (i a : addr) (h : heap) :
  is_Some (h !! a) -> is_Some (alter f i h !! a).
Proof.
  intros [o Ho]. destruct (decide (i = a)) as [->|Hne].
  - rewrite list_lookup_alter_eq, Ho. cbn. eauto.
  - rewrite list_lookup_alter_ne, Ho by assumption. eauto.
Qed.

Lemma set_child_present (h h' : heap) (self : addr) (name : component) (x : pyobj) :
  set_child h self name x = Ok h' ->
  forall a, is_Some (h !! a) -> is_Some (h' !! a).
Proof.
  unfold set_child. destruct (shadows_class_attribute name); [discriminate|].
  destruct x as [v|n]; cbn [ConfigNode_call bind_result].
  - intros [= <-] a Ha. now do 2 apply alter_present.
  - destruct (init_flags no_kwargs) as [fl|e]; [|discriminate].
    cbn [bind_result]. intros [= <-] a Ha. apply alter_present.
    rewrite lookup_app_l by (now apply lookup_lt_is_Some). exact Ha.
Qed.

Lemma re_set_present (self : addr) (trs : list (component * pyobj)) :
  forall st st' u, re_set self trs st = Returns u st' ->
  forall a, is_Some (st_heap st !! a) -> is_Some (st_heap st' !! a).
Proof.
  induction trs as [|[n x] trs IH]; intros st st' u Hrun a Ha.
  - now injection Hrun as _ <-.
  - cbn [re_set] in Hrun.
    destruct (set_child (st_heap st) self n x) as [h1|e] eqn:Hset; [|discriminate].
    apply (IH _ _ _ Hrun). cbn [st_heap]. eapply set_child_present; eassumption.
Qed.

(** A pass removes no object from the heap. *)
Lemma map_nodes_present (fuel : nat) :
  forall self prefix st ret st',
    map_nodes map_fn true leafs_only fuel self prefix st = Returns ret st' ->
    forall a, is_Some (st_heap st !! a) -> is_Some (st_heap st' !! a).
Proof.
  induction fuel as [|fuel IH]; intros self prefix st ret st' Hrun; [discriminate|].
  cbn [map_nodes] in Hrun.
  destruct (children_of (st_heap st) self) as [cs|]; [|discriminate].
  assert (Hloop : forall cs trs st trs' st1,
             map_children map_fn true (map_nodes map_fn true leafs_only fuel) prefix cs trs st
             = Returns trs' st1 ->
             forall a, is_Some (st_heap st !! a) -> is_Some (st_heap st1 !! a)).
  { clear Hrun cs st. induction cs as [|[name child] cs IHcs]; intros trs st trs' st1 Hrun a Ha.
    - now injection Hrun as _ <-.
    - cbn [map_children] in Hrun.
      destruct (visit_child map_fn true (map_nodes map_fn true leafs_only fuel)
                  prefix name child st) as [|e st2|r st2] eqn:Hvisit; try discriminate.
      apply (IHcs _ _ _ _ Hrun). unfold cache_put. cbn [st_heap].
      unfold visit_child in Hvisit.
      destruct (st_cache st !! child); [now injection Hvisit as _ <-|].
      destruct (st_heap st !! child) as [[fl [v|ccs]]|]; [| |discriminate].
      + unfold apply_fn in Hvisit. now injection Hvisit as _ <-.
      + eapply IH; eassumption. }
  destruct (map_children map_fn true (map_nodes map_fn true leafs_only fuel) prefix cs [] st)
    as [|e st1|trs st1] eqn:Hmc; try discriminate.
  destruct (re_set self trs st1) as [|e st2|u st2] eqn:Hre; try discriminate.
  intros a Ha.
  assert (H2 : is_Some (st_heap st2 !! a)).
  { eapply re_set_present; [eassumption|]. eapply Hloop; eassumption. }
  destruct leafs_only; [now injection Hrun as _ <-|].
  unfold apply_fn in Hrun. now injection Hrun as _ <-.
Qed.

Lemma re_set_returns (self : addr) (trs : list (component * pyobj)) :
  Forall (fun kv => shadows_class_attribute (fst kv) = false
                    /\ exists v, snd kv = PNode v) trs ->
  forall st, exists st', re_set self trs st = Returns tt st'.
Proof.
  induction trs as [|[n x] trs IH]; intros Hall st; [eexists; reflexivity|].
  apply Forall_cons in Hall as [[Hn [v Hv]] Hall]. simpl in Hn, Hv. subst x.
  cbn [re_set]. unfold set_child. rewrite Hn. cbn [ConfigNode_call bind_result].
  apply IH, Hall.
Qed.

Lemma re_set_of_names (c : gmap addr pyobj) (cs : list (component * addr)) :
  (forall a r, c !! a = Some r -> exists b, r = PNode b) ->
  (forall n x, In (n, x) cs -> shadows_class_attribute n = false) ->
  Forall (fun kv => shadows_class_attribute (fst kv) = false
                    /\ exists v, snd kv = PNode v) (re_set_of c cs).
Proof.
  intros Hc. induction cs as [|[n x] cs IH]; intros Hn; [constructor|].
  unfold re_set_of in *. cbn [flat_map]. apply Forall_app. split.
  - destruct (c !! x) as [r|] eqn:E; [|constructor].
    destruct (is_same r x); [constructor|]. constructor; [|constructor].
    simpl. split; [apply (Hn n x); now left | eauto].
  - apply IH. intros n' x' Hin. apply (Hn n' x'). now right.
Qed.

Lemma map_children_returns (fuel : nat) (self : addr) (prefix : list component)
    (cs_all : list (component * addr)) :
  (forall self prefix st,
      rank self < fuel -> is_Some (children_of (st_heap st) self) ->
      st_cache st !! self = None ->
      uncached_unchanged h0 st -> cache_of_nodes st ->
      cached_slots_replaced h0 st -> calls_cached None st -> present h0 st ->
      exists ret st', map_nodes map_fn true leafs_only fuel self prefix st = Returns ret st') ->
  rank self <= fuel ->
  children_of h0 self = Some cs_all ->
  forall rest done trs st,
    cs_all = done ++ rest ->
    loop_invariant h0 self st -> present h0 st ->
    exists trs' st',
      map_children map_fn true (map_nodes map_fn true leafs_only fuel) prefix rest trs st
      = Returns trs' st'.
Proof.
  intros IH Hfuel Hcs. induction rest as [|[name child] rest IHrest];
    intros done trs st Hsplit Hinv Hpres; [eexists _, _; reflexivity|].
  assert (Hin : In (name, child) cs_all)
    by (rewrite Hsplit; apply in_or_app; right; now left).
  assert (Hrank : rank child < rank self) by (eapply Hacyclic; eassumption).
  assert (Hvisit : exists r st1,
             visit_child map_fn true (map_nodes map_fn true leafs_only fuel)
               prefix name child st = Returns r st1).
  { unfold visit_child. destruct (st_cache st !! child) as [r|] eqn:Hc; [eauto|].
    destruct Hinv as (Hself & Hun & Hcn & Hsl & Hcc).
    destruct (Hpres child (Hclosed _ _ _ _ Hcs Hin)) as [[fl [v|ccs]] Hobj]; rewrite Hobj.
    - unfold apply_fn. eauto.
    - apply IH; try assumption; [lia|].
      unfold children_of. rewrite Hobj. eauto. }
  destruct Hvisit as (r & st1 & Hvisit). cbn [map_children]. rewrite Hvisit.
  destruct (visit_step fuel self prefix name child st st1 r
              (map_nodes_post fuel)
              Hinv Hrank Hvisit) as (_ & Hinv2 & _ & _).
  apply (IHrest (done ++ [(name, child)])); [now rewrite <- app_assoc | exact Hinv2|].
  intros a Ha. unfold cache_put. cbn [st_heap].
  specialize (Hpres a Ha). unfold visit_child in Hvisit.
  destruct (st_cache st !! child); [now injection Hvisit as _ <-|].
  destruct (st_heap st !! child) as [[fl [v|ccs]]|]; [| |discriminate].
  - unfold apply_fn in Hvisit. now injection Hvisit as _ <-.
  - eapply map_nodes_present; eassumption.
Qed.

(** With fuel above the rank of [self], the pass on [self] returns. *)
Lemma map_nodes_returns (fuel : nat) :
  forall self prefix st,
    rank self < fuel -> is_Some (children_of (st_heap st) self) ->
    st_cache st !! self = None ->
    uncached_unchanged h0 st -> cache_of_nodes st ->
    cached_slots_replaced h0 st -> calls_cached None st -> present h0 st ->
    exists ret st', map_nodes map_fn true leafs_only fuel self prefix st = Returns ret st'.
Proof.
  induction fuel as [|fuel IH]; intros self prefix st Hfuel [cs Hcs] Hself Hun Hcn Hsl Hcc Hpres;
    [lia|].
  cbn [map_nodes]. rewrite Hcs.
  assert (Hcs0 : children_of h0 self = Some cs) by (now rewrite <- (Hun self Hself)).
  assert (Hinv : loop_invariant h0 self st) by (unfold loop_invariant; auto).
  destruct (map_children_returns fuel self prefix cs IH ltac:(lia) Hcs0 cs [] [] st
              eq_refl Hinv Hpres) as (trs & st1 & Hloop).
  rewrite Hloop.
  destruct (map_children_post fuel self prefix cs
              (map_nodes_post fuel)
              Hcs0 cs [] [] st trs st1 eq_refl Hinv)
    as ((_ & _ & Hcn1 & _) & _ & Htrs & _); try reflexivity; try assumption.
  { intros n x []. }
  destruct (re_set_returns self trs) with (st := st1) as [st2 Hre].
  { rewrite Htrs. apply re_set_of_names; [exact Hcn1|].
    intros n x Hin. eapply Hnames; eassumption. }
  rewrite Hre. destruct leafs_only; unfold apply_fn; eauto.
Qed.

End PassFacts.

(** ** [map_nodes] with any transform: the transform is applied once per node *)

Section PassCalls.
Import Heap.
Variable rank : addr -> nat.
Variable h0 : heap.
Variable map_fn : heap -> list component -> addr -> pyobj.
Variable leafs_only : bool.
Hypothesis Hacyclic : acyclic rank h0.

(** [set_child] on [self] leaves the children of every other object as
    they are, whatever the value: a node is kept, a native value becomes a
    new object at the end of the heap. *)
Lemma set_child_other (h h' : heap) (self : addr) (name : component) (value : pyobj) :
  set_child h self name value = Ok h' ->
  forall a, a <> self -> children_of h' a = children_of h a.
Proof.
  unfold set_child. destruct (shadows_class_attribute name); [discriminate|].
  destruct value as [v|x]; cbn [ConfigNode_call bind_result].
  - intros [= <-] a Ha. rewrite children_of_alter_children, decide_False by assumption.
    apply children_of_alter_flags.
  - destruct (init_flags no_kwargs) as [fl|e]; cbn [bind_result]; [|discriminate].
    intros [= <-] a Ha. rewrite children_of_alter_children, decide_False by assumption.
    unfold children_of. destruct (lt_eq_lt_dec a (List.length h)) as [[Hlt| ->]|Hgt].
    + now rewrite lookup_app_l.
    + rewrite lookup_app_r, Nat.sub_diag by reflexivity. cbn.
      now rewrite (lookup_ge_None_2 h (List.length h)).
    + rewrite !lookup_ge_None_2; [reflexivity | lia |].
      rewrite length_app. cbn. lia.
Qed.

(** The second loop touches the children of [self] only, and neither the
    cache nor the record of the calls. *)
Lemma re_set_other (self : addr) (trs : list (component * pyobj)) :
  forall st st' u,
    re_set self trs st = Returns u st' ->
    st_cache st' = st_cache st /\ st_calls st' = st_calls st
    /\ forall a, a <> self -> children_of (st_heap st') a = children_of (st_heap st) a.
Proof.
  induction trs as [|[n x] trs IH]; intros st st' u Hrun.
  - injection Hrun as _ <-. auto.
  - cbn [re_set] in Hrun.
    destruct (set_child (st_heap st) self n x) as [h1|e] eqn:Hset; [|discriminate].
    destruct (IH _ _ _ Hrun) as (Hc & Hl & Hch). cbn [st_cache st_calls st_heap] in *.
    split_conj; try assumption.
    intros a Ha. rewrite Hch by assumption. now apply (set_child_other _ _ _ _ _ Hset).
Qed.

(** The invariant across one child of the first loop. *)
Lemma visit_step_calls (fuel : nat) (self : addr) (prefix : list component)
    (name : component) (child : addr) (st st1 : state) (r : pyobj) :
  (forall self prefix st ret st',
      st_cache st !! self = None ->
      uncached_unchanged h0 st -> calls_cached None st ->
      map_nodes map_fn true leafs_only fuel self prefix st = Returns ret st' ->
      grows rank (rank self) st st' /\ frame (Some self) st st'
      /\ calls_cached (Some self) st') ->
  st_cache st !! self = None -> uncached_unchanged h0 st -> calls_cached None st ->
  rank child < rank self ->
  visit_child map_fn true (map_nodes map_fn true leafs_only fuel) prefix name child st
  = Returns r st1 ->
  st_cache (cache_put child r st1) !! self = None
  /\ uncached_unchanged h0 (cache_put child r st1)
  /\ calls_cached None (cache_put child r st1)
  /\ grows rank (rank self) st (cache_put child r st1)
  /\ frame None st (cache_put child r st1).
Proof.
  intros IH Hself Hun (Hnd & Hcc) Hrank Hvisit.
  unfold visit_child in Hvisit.
  destruct (st_cache st !! child) as [cr|] eqn:Hchild.
  - (* the child is cached already *)
    injection Hvisit as <- <-.
    assert (Hput : st_cache (cache_put child cr st) = st_cache st)
      by (unfold cache_put; cbn [st_cache]; now apply insert_id).
    unfold uncached_unchanged, calls_cached, grows, frame, cached.
    rewrite Hput. cbn [cache_put st_heap st_calls].
    repeat split; try assumption; try (intros; reflexivity); try (intros; assumption).
    intros a Ha [r' Hr']. congruence.
  - destruct (st_heap st !! child) as [[cfl [v|ccs]]|] eqn:Hobj; [| |discriminate].
    + (* a leaf child: the transform is applied *)
      unfold apply_fn in Hvisit. injection Hvisit as <- <-.
      assert (Hne : child <> self) by (intros ->; lia).
      unfold uncached_unchanged, calls_cached, grows, frame, cached, cache_put.
      cbn [st_cache st_heap st_calls].
      repeat split.
      * now rewrite lookup_insert_ne.
      * intros a Ha. apply lookup_insert_None in Ha as [Ha _]. now apply Hun.
      * constructor; [|exact Hnd]. intros Hin.
        destruct (Hcc _ Hin) as [?|[? ?]]; congruence.
      * intros a [->|Hin]%elem_of_cons; right.
        -- rewrite lookup_insert_eq. eauto.
        -- destruct (Hcc _ Hin) as [?|[r' Hr']]; [discriminate|].
           destruct (decide (child = a)) as [->|]; [congruence|].
           rewrite lookup_insert_ne by assumption. eauto.
      * intros a r' Ha. rewrite lookup_insert_ne; [exact Ha | congruence].
      * intros a Ha [r' Hr']. apply lookup_insert_Some in Hr' as [[<- _]|[_ Hr']];
          [exact Hrank | congruence].
    + (* a composed child: the recursive call *)
      pose proof (IH child (prefix ++ [name]) st r st1 Hchild Hun (conj Hnd Hcc) Hvisit)
        as ((Hg1 & Hg2) & Hfr & Hnd1 & Hcc1).
      assert (Hne : child <> self) by (intros ->; lia).
      assert (Hback : forall a, st_cache st1 !! a = None -> st_cache st !! a = None).
      { intros a Ha. destruct (st_cache st !! a) as [x|] eqn:E; [|reflexivity].
        apply Hg1 in E. congruence. }
      assert (Hchild1 : st_cache st1 !! child = None).
      { destruct (st_cache st1 !! child) as [x|] eqn:E; [|reflexivity].
        assert (rank child < rank child); [|lia].
        apply Hg2; [assumption | unfold cached; rewrite E; eauto]. }
      assert (Hself1 : st_cache st1 !! self = None).
      { destruct (st_cache st1 !! self) as [x|] eqn:E; [|reflexivity].
        assert (rank self < rank child); [|lia].
        apply Hg2; [assumption | unfold cached; rewrite E; eauto]. }
      unfold uncached_unchanged, calls_cached, grows, frame, cached, cache_put.
      cbn [st_cache st_heap st_calls].
      repeat split.
      * now rewrite lookup_insert_ne.
      * intros a Ha. apply lookup_insert_None in Ha as [Ha Hac].
        rewrite Hfr; [now apply Hun, Hback | congruence | now right].
      * exact Hnd1.
      * intros a Hin. right. destruct (Hcc1 _ Hin) as [[= ->]|[r' Hr']].
        -- rewrite lookup_insert_eq. eauto.
        -- destruct (decide (child = a)) as [->|]; [congruence|].
           rewrite lookup_insert_ne by assumption. eauto.
      * intros a r' Ha. rewrite lookup_insert_ne; [now apply Hg1 | congruence].
      * intros a Ha [r' Hr']. apply lookup_insert_Some in Hr' as [[<- _]|[_ Hr']];
          [exact Hrank|].
        assert (rank a < rank child); [|lia].
        apply Hg2; [assumption | unfold cached; rewrite Hr'; eauto].
      * intros a _ [[r' Hr']|Ha].
        -- apply Hfr; [congruence | left; unfold cached; rewrite Hr'; eauto].
        -- apply lookup_insert_None in Ha as [Ha Hac].
           apply Hfr; [congruence | now right].
Qed.

(** The first loop of [map_nodes] on [self], whose children are [cs_all]. *)
Lemma map_children_calls (fuel : nat) (self : addr) (prefix : list component)
    (cs_all : list (component * addr)) :
  (forall self prefix st ret st',
      st_cache st !! self = None ->
      uncached_unchanged h0 st -> calls_cached None st ->
      map_nodes map_fn true leafs_only fuel self prefix st = Returns ret st' ->
      grows rank (rank self) st st' /\ frame (Some self) st st'
      /\ calls_cached (Some self) st') ->
  children_of h0 self = Some cs_all ->
  forall rest trs st trs' st',
    (forall n x, In (n, x) rest -> In (n, x) cs_all) ->
    st_cache st !! self = None -> uncached_unchanged h0 st -> calls_cached None st ->
    map_children map_fn true (map_nodes map_fn true leafs_only fuel) prefix rest trs st
    = Returns trs' st' ->
    st_cache st' !! self = None /\ uncached_unchanged h0 st' /\ calls_cached None st'
    /\ grows rank (rank self) st st' /\ frame None st st'.
Proof.
  intros IH Hcs. induction rest as [|[name child] rest IHrest];
    intros trs st trs' st' Hsub Hself Hun Hcc Hrun.
  - injection Hrun as <- <-. split_conj; try assumption.
    + split; [intros a r Ha; exact Ha | intros a Ha [r Hr]; congruence].
    + intros a _ _. reflexivity.
  - cbn [map_children] in Hrun.
    destruct (visit_child map_fn true (map_nodes map_fn true leafs_only fuel)
                prefix name child st) as [|e st1|r st1] eqn:Hvisit; try discriminate.
    assert (Hrank : rank child < rank self).
    { apply (Hacyclic self cs_all name); [assumption|]. apply Hsub. now left. }
    destruct (visit_step_calls fuel self prefix name child st st1 r IH Hself Hun Hcc
                Hrank Hvisit) as (Hself2 & Hun2 & Hcc2 & Hg & Hf).
    destruct (IHrest _ _ _ _ (fun n x H => Hsub n x (or_intror H)) Hself2 Hun2 Hcc2 Hrun)
      as (Hself' & Hun' & Hcc' & Hg' & Hf').
    split_conj; try assumption.
    + eapply grows_trans; eassumption.
    + eapply frame_trans; eassumption.
Qed.

(** What holds when [map_nodes] returns, for any transform. *)
Lemma map_nodes_calls (fuel : nat) :
  forall self prefix st ret st',
    st_cache st !! self = None ->
    uncached_unchanged h0 st -> calls_cached None st ->
    map_nodes map_fn true leafs_only fuel self prefix st = Returns ret st' ->
    grows rank (rank self) st st' /\ frame (Some self) st st'
    /\ calls_cached (Some self) st'.
Proof.
  induction fuel as [|fuel IH]; intros self prefix st ret st' Hself Hun Hcc Hrun;
    [discriminate|].
  cbn [map_nodes] in Hrun.
  destruct (children_of (st_heap st) self) as [cs|] eqn:Hcs; [|discriminate].
  assert (Hcs0 : children_of h0 self = Some cs) by (now rewrite <- (Hun self Hself)).
  destruct (map_children map_fn true (map_nodes map_fn true leafs_only fuel) prefix cs [] st)
    as [|e st1|trs st1] eqn:Hloop; try discriminate.
  destruct (map_children_calls fuel self prefix cs IH Hcs0 cs [] st trs st1
              (fun n x H => H) Hself Hun Hcc Hloop)
    as (Hself1 & Hun1 & (Hnd1 & Hcc1) & Hg & Hf).
  destruct (re_set self trs st1) as [|e st2|u st2] eqn:Hre; try discriminate.
  destruct (re_set_other self trs _ _ _ Hre) as (Hc2 & Hl2 & Hother).
  assert (Hframe : forall st3, st_heap st3 = st_heap st2 -> st_cache st3 = st_cache st2 ->
                               frame (Some self) st st3).
  { intros st3 Hh3 Hc3 a Ha Hor. rewrite Hh3, Hother by congruence.
    apply Hf; [discriminate|]. now rewrite Hc3, Hc2 in Hor. }
  assert (Hgrows : forall st3, st_cache st3 = st_cache st2 -> grows rank (rank self) st st3).
  { intros st3 Hc3. destruct Hg as [Hg1 Hg2]. unfold grows, cached.
    rewrite Hc3, Hc2. split; assumption. }
  destruct leafs_only.
  - injection Hrun as <- <-. split_conj.
    + now apply Hgrows.
    + now apply Hframe.
    + split; rewrite Hl2; [exact Hnd1|].
      intros a Hin. right. unfold cached. rewrite Hc2.
      destruct (Hcc1 a Hin) as [?|?]; [discriminate | assumption].
  - unfold apply_fn in Hrun. injection Hrun as <- <-. split_conj.
    + now apply Hgrows.
    + now apply Hframe.
    + split; cbn [st_calls st_cache]; rewrite Hl2.
      * constructor; [|exact Hnd1]. intros Hin.
        destruct (Hcc1 _ Hin) as [?|[x Hx]]; congruence.
      * intros a [->|Hin]%elem_of_cons; [now left|]. right.
        unfold cached. cbn [st_cache]. rewrite Hc2.
        destruct (Hcc1 a Hin) as [?|?]; [discriminate | assumption].
Qed.

End PassCalls.

(** ** Claims about the constructor, [map_nodes] and [evaluate] *)

Section HeapClaims.
Import Heap.

(** C8 (as amended).  The constructor called on a node returns that very
    node and makes no copy; of the flags passed, [priority],
    [implicit_delete] and [implicit_allow_new] are set on the node in place,
    and no other attribute ([delete], [allow_new], [idx], the metadata, the
    source file) changes, nor does any other object. *)
Theorem constructor_on_node_is_identity (h : heap) (v : addr) (kw : kwargs) (o : obj) :
  h !! v = Some o ->
  exists h' o',
    ConfigNode_call h (PNode v) kw = Ok (v, h')
    /\ h' !! v = Some o' /\ o_body o' = o_body o
    /\ _priority (o_flags o') = default (_priority (o_flags o)) (kw_priority kw)
    /\ _implicit_delete (o_flags o')
       = default (_implicit_delete (o_flags o)) (kw_implicit_delete kw)
    /\ _implicit_allow_new (o_flags o')
       = default (_implicit_allow_new (o_flags o)) (kw_implicit_allow_new kw)
    /\ _delete (o_flags o') = _delete (o_flags o)
    /\ _allow_new (o_flags o') = _allow_new (o_flags o)
    /\ _idx (o_flags o') = _idx (o_flags o)
    /\ _metadata (o_flags o') = _metadata (o_flags o)
    /\ _source_file (o_flags o') = _source_file (o_flags o)
    /\ (forall a, a <> v -> h' !! a = h !! a).
Proof.
  intros Hv. eexists _, _. split; [reflexivity|]. split.
  - rewrite list_lookup_alter_eq, Hv. reflexivity.
  - cbn [set_flags o_body o_flags inherit_kwargs _priority _implicit_delete
           _implicit_allow_new _delete _allow_new _idx _metadata _source_file].
    repeat split;
      try (destruct (kw_priority kw); reflexivity);
      try (destruct (kw_implicit_delete kw); reflexivity);
      try (destruct (kw_implicit_allow_new kw); reflexivity).
    intros a Ha. now rewrite list_lookup_alter_ne.
Qed.

Lemma constructor_on_node_is_identity_witness :
  exists h' o',
    ConfigNode_call one_scalar (PNode 0) kw_delete_not_new = Ok (0, h')
    /\ h' !! 0 = Some o' /\ _delete (o_flags o') = None.
Proof.
  destruct (constructor_on_node_is_identity one_scalar 0 kw_delete_not_new
              (mkObj no_flags (BScalar (NInt 5))) eq_refl)
    as (h' & o' & H1 & H2 & _ & _ & _ & _ & H3 & _).
  exists h', o'. repeat split; assumption.
Defined.

(** C8, counterexample.  The constructor called on a node with
    [delete=True, allow_new=False] returns the node with its attributes
    [_delete] and [_allow_new] as they were: these two flags are not applied. *)
Lemma constructor_on_node_ignores_delete :
  ConfigNode_call one_scalar (PNode 0) kw_delete_not_new = Ok (0, one_scalar)
  /\ kw_delete kw_delete_not_new = Some (Some true)
  /\ (_delete <$> (o_flags <$> one_scalar !! 0)) = Some None
  /\ (_allow_new <$> (o_flags <$> one_scalar !! 0)) = Some None.
Proof. repeat split; reflexivity. Qed.

Lemma reachable_cached (h0 : heap) (root : addr) (st : state) :
  slots_replaced h0 st root -> cached_slots_replaced h0 st ->
  forall q a p, a = root \/ cached st a -> get_node h0 a q = Some p ->
                p = root \/ cached st p.
Proof.
  intros Hroot Hcached. induction q as [|c q IH]; intros a p Ha Hget.
  - injection Hget as <-. exact Ha.
  - cbn [get_node] in Hget. destruct (child_of h0 a c) as [b|] eqn:Hb; [|discriminate].
    apply (IH b); [|exact Hget]. right.
    assert (Hs : slots_replaced h0 st a) by (destruct Ha as [->|Ha]; auto).
    unfold child_of in Hb. destruct (children_of h0 a) as [cs|] eqn:Hcs; [|discriminate].
    destruct (Hs cs c b Hcs Hb) as (r & Hr & _). unfold cached. rewrite Hr. eauto.
Qed.




(** C10, at a failing input.  For a [ConfigDict], [on_evaluate] returns the
    node itself, so that [evaluate_node] fails its own assertion; and the
    pass [evaluate] on the empty dictionary returns that dictionary, a node. *)
Theorem evaluation_of_dict_yields_the_node :
  (forall (h : heap) (a : addr) (path : list component) (cs : list (component * addr)),
      children_of h a = Some cs ->
      on_evaluate h path a = PNode a
      /\ evaluate_node h path a = Raise AssertionError)
  /\ returned (evaluate 1 [mkObj no_flags (BDict [])] 0) = Some (PNode 0).
Proof.
  split; [|reflexivity].
  intros h a path cs Hcs. unfold evaluate_node, on_evaluate, children_of in *.
  destruct (h !! a) as [[fl [v|cs']]|]; try discriminate. split; reflexivity.
Qed.

Lemma evaluation_of_dict_yields_the_node_witness :
  on_evaluate [mkObj no_flags (BDict [])] [] 0 = PNode 0
  /\ evaluate_node [mkObj no_flags (BDict [])] [] 0 = Raise AssertionError.
Proof.
  exact (proj1 evaluation_of_dict_yields_the_node [mkObj no_flags (BDict [])] 0 [] [] eq_refl).
Defined.

End HeapClaims.

(** ** Further properties of the path language, the lookups, [merge],
    [filter_nodes], the passes and [ConfigDict] *)

Section PathFormsFacts.
Import Path PathForms.
#[local] Arguments String.append !_ _ / : simpl nomatch.

Lemma is_digit_uint_of_char (c : ascii) (d : uint) :
  is_digit c = true -> exists d', uint_of_char c (Some d) = Some d'.
Proof.
  destruct c as [[|] [|] [|] [|] [|] [|] [|] [|]]; intros H;
    try discriminate H; eexists; reflexivity.
Qed.

Lemma span_all (p : ascii -> bool) (s : string) :
  forall run rest, span p s = (run, rest) -> all_chars p run = true.
Proof.
  induction s as [|c s IH]; intros run rest H; simpl in H.
  - now injection H as <- <-.
  - destruct (p c) eqn:Hp.
    + destruct (span p s) as [run' rest'] eqn:Hs. injection H as <- <-.
      simpl. rewrite Hp. exact (IH _ _ eq_refl).
    + now injection H as <- <-.
Qed.

Lemma uint_of_digits (ds : string) :
  all_chars is_digit ds = true -> exists d, NilEmpty.uint_of_string ds = Some d.
Proof.
  induction ds as [|c ds IH]; simpl; intros H.
  - eexists; reflexivity.
  - apply andb_prop in H as [Hc Hds]. destruct (IH Hds) as [d ->].
    exact (is_digit_uint_of_char c d Hc).
Qed.

Lemma is_digit_not_minus (c : ascii) : is_digit c = true -> Ascii.eqb c "-"%char = false.
Proof.
  destruct (Ascii.eqb_spec c "-"%char) as [->|]; [intros H; discriminate H | reflexivity].
Qed.

(** The text of the second group is always accepted by [int]. *)
Lemma alt_index_int (s : string) (g : groups) :
  alt_index s = Some g ->
  g_name g = None
  /\ exists lit z, g_index g = Some lit /\ lit <> EmptyString /\ py_int lit = Some z.
Proof.
  unfold alt_index. destruct s as [|c r]; [discriminate|].
  destruct (Ascii.eqb c lbracket); [|discriminate].
  set (sr := match r with
             | String c1 r' => if Ascii.eqb c1 minus then (String minus EmptyString, r')
                               else (EmptyString, r)
             | EmptyString => (EmptyString, r)
             end).
  assert (Hsign : fst sr = EmptyString \/ fst sr = String minus EmptyString).
  { unfold sr. destruct r as [|c1 r']; [now left|].
    destruct (Ascii.eqb c1 minus); [now right | now left]. }
  destruct sr as [sign r1]. simpl in Hsign.
  destruct (span is_digit r1) as [ds r2] eqn:Hspan.
  apply span_all in Hspan.
  destruct ds as [|d ds]; [discriminate|]. cbn [is_empty].
  destruct r2 as [|c2 r2]; [discriminate|].
  destruct (Ascii.eqb c2 rbracket); [|discriminate].
  intros H; injection H as <-. cbn [g_name g_index]. split; [reflexivity|].
  destruct (uint_of_digits _ Hspan) as [u Hu].
  simpl in Hspan. apply andb_prop in Hspan as [Hd _].
  destruct Hsign as [-> | ->].
  - exists (String d ds), (Z.of_int (Pos u)).
    split_conj; [reflexivity | discriminate |].
    unfold py_int, NilZero.int_of_string. simpl String.append.
    rewrite (is_digit_not_minus d Hd).
    unfold NilZero.uint_of_string. now rewrite Hu.
  - exists (String minus (String d ds)), (Z.of_int (Neg u)).
    split_conj; [reflexivity | discriminate |].
    unfold py_int, NilZero.int_of_string. simpl String.append.
    change (Ascii.eqb minus "-"%char) with true. cbn iota.
    unfold NilZero.uint_of_string. now rewrite Hu.
Qed.

(** Every match of the regex yields a component or is a separating dot:
    neither [int] nor the sanity check of [split_path] fails. *)
Lemma match_at_component (prev : option ascii) (s : string) (g : groups) (a b : nat) :
  match_at prev s = Some g -> exists c, component_of_match (mkMatch a b g) = Ok c.
Proof.
  unfold match_at. destruct (alt_name prev s) as [g1|] eqn:Hname.
  { intros H; injection H as <-. unfold alt_name in Hname.
    destruct (match prev with None => true | Some c => Ascii.eqb c dot end); [|discriminate].
    destruct (span is_ident s) as [run rest].
    destruct run as [|c run]; [discriminate|]. injection Hname as <-.
    eexists. reflexivity. }
  destruct (alt_index s) as [g2|] eqn:Hindex.
  { intros H; injection H as <-.
    destruct (alt_index_int _ _ Hindex) as (Hn & lit & z & Hi & Hne & Hz).
    unfold component_of_match. cbn [m_groups]. rewrite Hn, Hi. cbn [group_truthy].
    destruct lit; [congruence|]. cbn [is_empty negb from_option]. rewrite Hz.
    eexists; reflexivity. }
  unfold alt_dot. destruct prev; [|discriminate]. destruct s as [|c r]; [discriminate|].
  destruct (_ && _); [|discriminate]. intros H; injection H as <-.
  eexists. reflexivity.
Qed.

Lemma yield_components_scan (s : string) : forall prev pos skip,
  exists comps, yield_components (scan prev pos skip s) = Ok comps.
Proof.
  induction s as [|c s IH]; intros prev pos skip.
  - exists []. reflexivity.
  - cbn [scan]. destruct skip as [|k]; [|apply IH].
    destruct (match_at prev (String c s)) as [g|] eqn:Hm; [|apply IH].
    cbn [yield_components].
    destruct (match_at_component _ _ _ pos (pos + String.length (g_text g)) Hm) as [x ->].
    destruct (IH (Some c) (S pos) (String.length (g_text g) - 1)) as [cs ->].
    eexists. reflexivity.
Qed.

Lemma span_all_app (p : ascii -> bool) (run rest : string) :
  all_chars p run = true ->
  (forall c, starts_with c rest = true -> p c = false) ->
  span p (String.append run rest) = (run, rest).
Proof.
  intros Hrun Hrest. induction run as [|c run IH]; simpl.
  - destruct rest as [|c r]; [reflexivity|]. simpl.
    rewrite (Hrest c); [reflexivity|]. simpl. apply Ascii.eqb_refl.
  - simpl in Hrun. apply andb_prop in Hrun as [-> Hrun]. now rewrite (IH Hrun).
Qed.

Lemma string_of_uint_digits (d : uint) :
  all_chars is_digit (NilEmpty.string_of_uint d) = true.
Proof. induction d; simpl; auto. Qed.

Lemma string_of_uint_nonempty (d : uint) :
  d <> Nil -> NilEmpty.string_of_uint d <> EmptyString.
Proof. destruct d; simpl; congruence. Qed.

(** The text Python prints for an integer: an optional sign and digits. *)
Lemma py_str_of_int_shape (z : Z) :
  exists sign ds,
    py_str_of_int z = String.append sign ds
    /\ (sign = EmptyString \/ sign = String minus EmptyString)
    /\ ds <> EmptyString /\ all_chars is_digit ds = true.
Proof.
  unfold py_str_of_int. destruct z as [|p|p]; simpl.
  - exists EmptyString, (String zero EmptyString). split_conj; auto; discriminate.
  - exists EmptyString, (NilEmpty.string_of_uint (Pos.to_uint p)).
    pose proof (DecimalPos.Unsigned.to_uint_nonnil p) as Hnil.
    split_conj; auto using string_of_uint_digits, string_of_uint_nonempty.
    unfold NilZero.string_of_uint. now destruct (Pos.to_uint p).
  - exists (String minus EmptyString), (NilEmpty.string_of_uint (Pos.to_uint p)).
    pose proof (DecimalPos.Unsigned.to_uint_nonnil p) as Hnil.
    split_conj; auto using string_of_uint_digits, string_of_uint_nonempty.
    unfold NilZero.string_of_uint. now destruct (Pos.to_uint p).
Qed.

Lemma py_int_str (z : Z) : py_int (py_str_of_int z) = Some z.
Proof.
  unfold py_int, py_str_of_int. rewrite NilZero.isi.
  - simpl. now rewrite DecimalZ.of_to.
  - destruct z as [|p|p]; simpl; try discriminate.
    intros H; injection H as H. exact (DecimalPos.Unsigned.to_uint_nonnil p H).
  - destruct z as [|p|p]; simpl; try discriminate.
    intros H; injection H as H. exact (DecimalPos.Unsigned.to_uint_nonnil p H).
Qed.

Lemma alt_index_render (z : Z) (rest : string) :
  alt_index (String lbracket (String.append (py_str_of_int z) (String rbracket rest)))
  = Some (mkGroups (String lbracket (String.append (py_str_of_int z) (String rbracket EmptyString)))
                   None (Some (py_str_of_int z))).
Proof.
  destruct (py_str_of_int_shape z) as (sign & ds & -> & Hsign & Hne & Hds).
  assert (Hspan : span is_digit (String.append ds (String rbracket rest))
                  = (ds, String rbracket rest)).
  { apply span_all_app; [exact Hds|]. intros c Hc. cbn [starts_with] in Hc.
    apply Ascii.eqb_eq in Hc as <-. reflexivity. }
  unfold alt_index. change (Ascii.eqb lbracket lbracket) with true. cbn iota.
  destruct ds as [|d ds]; [congruence|].
  simpl in Hds. apply andb_prop in Hds as [Hd Hds].
  destruct Hsign as [-> | ->]; simpl String.append.
  - cbn iota. unfold minus at 1. rewrite (is_digit_not_minus d Hd). cbn beta iota zeta.
    simpl String.append in Hspan.
    destruct (span is_digit _) as [a b]. injection Hspan as -> ->.
    cbn [is_empty]. change (Ascii.eqb rbracket rbracket) with true. reflexivity.
  - cbn iota. rewrite Ascii.eqb_refl. cbn beta iota zeta.
    simpl String.append in Hspan.
    destruct (span is_digit _) as [a b]. injection Hspan as -> ->.
    cbn [is_empty]. change (Ascii.eqb rbracket rbracket) with true. reflexivity.
Qed.

(** What follows a component in the text of [join_path] is a dot or an
    opening bracket. *)
Lemma render_false_head (cs : list component) (c : ascii) :
  starts_with c (render false cs) = true -> c = dot \/ c = lbracket.
Proof.
  destruct cs as [|[n|z] cs]; cbn [render starts_with String.append]; [discriminate| |].
  - intros H. apply Ascii.eqb_eq in H. now left.
  - intros H. apply Ascii.eqb_eq in H. now right.
Qed.

Lemma alt_name_render (prev : option ascii) (n : string) (cs : list component) :
  prev = None \/ prev = Some dot ->
  identifier n = true ->
  alt_name prev (String.append n (render false cs)) = Some (mkGroups n (Some n) None).
Proof.
  intros Hprev Hn. unfold identifier in Hn. apply andb_prop in Hn as [Hne Hall].
  unfold alt_name.
  assert (Hlook : match prev with None => true | Some c => Ascii.eqb c dot end = true).
  { destruct Hprev as [-> | ->]; reflexivity. }
  rewrite Hlook, span_all_app; [| exact Hall |].
  - now destruct n.
  - intros c Hc. destruct (render_false_head _ _ Hc) as [-> | ->]; reflexivity.
Qed.

Lemma match_at_render_name (prev : option ascii) (n : string) (cs : list component) :
  prev = None \/ prev = Some dot ->
  identifier n = true ->
  match_at prev (String.append n (render false cs)) = Some (mkGroups n (Some n) None).
Proof. intros Hprev Hn. unfold match_at. now rewrite alt_name_render. Qed.

Lemma alt_name_no_ident (prev : option ascii) (c : ascii) (s : string) :
  is_ident c = false -> alt_name prev (String c s) = None.
Proof.
  intros Hc. unfold alt_name. simpl. rewrite Hc.
  now destruct (match prev with None => true | Some c0 => Ascii.eqb c0 dot end).
Qed.

Lemma last_prev_nonempty (prev : option ascii) (t : string) :
  t <> EmptyString -> last_prev prev t <> None.
Proof.
  revert prev. induction t as [|c t IH]; intros prev Hne; [congruence|].
  simpl. destruct t as [|c' t]; [discriminate|]. apply IH. discriminate.
Qed.

Lemma identifier_head (n : string) :
  identifier n = true -> exists c t, n = String c t /\ is_ident c = true.
Proof.
  unfold identifier. destruct n as [|c t]; [discriminate|]. simpl.
  intros H. apply andb_prop in H as [H _]. eauto.
Qed.

(** The matches of the regex on the text of [join_path]: one per component
    and one per separating dot, tiling the text. *)
Lemma scan_render (cs : list component) :
  forallb plain cs = true ->
  forall (first : bool) prev pos,
    (if first then prev = None else prev <> None) ->
    yield_components (scan prev pos 0 (render first cs)) = Ok cs
    /\ validate_loop (Some pos) (scan prev pos 0 (render first cs))
       = Ok (Some (pos + String.length (render first cs))).
Proof.
  induction cs as [|c cs IH]; intros Hplain first prev pos Hprev.
  { simpl. now rewrite Nat.add_0_r. }
  simpl in Hplain. apply andb_prop in Hplain as [Hc Hcs].
  specialize (IH Hcs false).
  destruct c as [n|z]; cbn [render].
  - (* a name *)
    simpl in Hc. destruct (identifier_head n Hc) as (c0 & t & Hn & Hc0).
    assert (Hname : forall p q, p = None \/ p = Some dot ->
              yield_components (scan p q 0 (String.append n (render false cs)))
              = Ok (Name n :: cs)
              /\ validate_loop (Some q) (scan p q 0 (String.append n (render false cs)))
                 = Ok (Some (q + String.length (String.append n (render false cs))))).
    { intros p q Hp.
      rewrite (scan_match p q _ (render false cs) _ (match_at_render_name p n cs Hp Hc));
        [| reflexivity | cbn [g_text]; subst n; discriminate].
      cbn [g_text yield_components validate_loop m_start m_end].
      rewrite Nat.eqb_refl.
      destruct (IH (last_prev p n) (q + String.length n)) as [Hy Hv].
      { apply last_prev_nonempty. subst n; discriminate. }
      rewrite Hy, Hv. split.
      - unfold component_of_match. cbn [m_groups g_name group_truthy].
        subst n. reflexivity.
      - rewrite length_append. do 2 f_equal. lia. }
    destruct first.
    + subst prev. simpl String.append. apply Hname. now left.
    + simpl String.append.
      assert (Hdot : match_at prev (String dot (String.append n (render false cs)))
                     = Some (mkGroups (String dot EmptyString) None None)).
      { unfold match_at. rewrite alt_name_no_ident by reflexivity.
        cbn [alt_index]. change (Ascii.eqb dot lbracket) with false. cbn iota.
        unfold alt_dot. destruct prev as [x|]; [|congruence].
        rewrite Ascii.eqb_refl. subst n. simpl String.append.
        assert (Hd : at_dollar (String c0 (String.append t (render false cs))) = false).
        { simpl. destruct (String.append t (render false cs)); [|reflexivity].
          destruct (Ascii.eqb_spec c0 newline) as [->|]; [discriminate Hc0 | reflexivity]. }
        rewrite Hd. cbn [starts_with].
        destruct (Ascii.eqb_spec c0 dot) as [->|]; [discriminate Hc0|].
        destruct (Ascii.eqb_spec c0 lbracket) as [->|]; [discriminate Hc0|].
        reflexivity. }
      rewrite (scan_match prev pos _ (String.append n (render false cs)) _ Hdot);
        [| reflexivity | discriminate].
      cbn [g_text yield_components validate_loop m_start m_end last_prev String.length].
      rewrite Nat.eqb_refl.
      destruct (Hname (Some dot) (pos + 1)) as [Hy Hv]; [now right|].
      rewrite Hy, Hv. split; [reflexivity|]. do 2 f_equal. lia.
  - (* an index *)
    assert (Hm : match_at prev (String lbracket (String.append (py_str_of_int z)
                                  (String rbracket (render false cs))))
                 = Some (mkGroups (String lbracket (String.append (py_str_of_int z)
                                     (String rbracket EmptyString)))
                                  None (Some (py_str_of_int z)))).
    { unfold match_at. rewrite alt_name_no_ident by reflexivity.
      now rewrite alt_index_render. }
    rewrite (scan_match prev pos _ (render false cs) _ Hm);
      [| cbn [g_text]; simpl; now rewrite append_assoc | discriminate].
    cbn [g_text yield_components validate_loop m_start m_end].
    rewrite Nat.eqb_refl.
    set (text := String lbracket (String.append (py_str_of_int z) (String rbracket EmptyString))).
    destruct (IH (last_prev prev text) (pos + String.length text)) as [Hy Hv].
    { apply last_prev_nonempty. discriminate. }
    rewrite Hy, Hv. split.
    + unfold component_of_match. cbn [m_groups g_name g_index group_truthy from_option].
      destruct (py_str_of_int_shape z) as (sign & ds & Hs & Hsign & Hne & _).
      assert (Hlit : is_empty (py_str_of_int z) = false).
      { rewrite Hs. destruct Hsign as [-> | ->]; [|reflexivity].
        simpl. now destruct ds. }
      rewrite Hlit. cbn [negb]. now rewrite py_int_str.
    + do 2 f_equal. unfold text. simpl. rewrite !length_append. simpl. lia.
Qed.

Lemma join_path_render (cs : list component) :
  forallb plain cs = true ->
  forall acc, join_path_from acc cs = String.append acc (render (is_empty acc) cs).
Proof.
  unfold join_path_from.
  induction cs as [|c cs IH]; intros Hplain acc.
  { simpl. now rewrite append_empty_r. }
  simpl in Hplain. apply andb_prop in Hplain as [Hc Hcs].
  cbn [fold_left]. rewrite (IH Hcs).
  destruct c as [n|z]; cbn [render _get_child_accessor].
  - simpl in Hc. destruct (identifier_head n Hc) as (c0 & t & -> & _).
    assert (He : is_empty (String.append acc
                   (String.append (if is_empty acc then EmptyString else String dot EmptyString)
                                  (String c0 t))) = false).
    { destruct acc; [reflexivity|]. reflexivity. }
    rewrite He. now rewrite !append_assoc.
  - assert (He : is_empty (String.append acc
                   (String lbracket (String.append (py_str_of_int z)
                                       (String rbracket EmptyString)))) = false).
    { now destruct acc. }
    rewrite He, append_assoc. f_equal. simpl. f_equal. now rewrite append_assoc.
Qed.

(** A component that a match yields is plain: a name is a run of
    identifier characters. *)
Lemma match_at_plain (prev : option ascii) (s : string) (g : groups) (a b : nat)
    (c : component) :
  match_at prev s = Some g ->
  component_of_match (mkMatch a b g) = Ok (Some c) -> plain c = true.
Proof.
  unfold match_at. destruct (alt_name prev s) as [g1|] eqn:Hname.
  { intros H; injection H as <-. unfold alt_name in Hname.
    destruct (match prev with None => true | Some c0 => Ascii.eqb c0 dot end); [|discriminate].
    destruct (span is_ident s) as [run rest] eqn:Hspan. apply span_all in Hspan.
    destruct run as [|c0 run]; [discriminate|]. injection Hname as <-.
    unfold component_of_match. cbn [m_groups g_name group_truthy is_empty negb option_map].
    intros H; injection H as <-. unfold plain, identifier. now rewrite Hspan. }
  destruct (alt_index s) as [g2|] eqn:Hindex.
  { intros H; injection H as <-.
    destruct (alt_index_int _ _ Hindex) as (Hn & lit & z & Hi & Hne & Hz).
    unfold component_of_match. cbn [m_groups]. rewrite Hn, Hi. cbn [group_truthy].
    destruct lit; [congruence|]. cbn [is_empty negb from_option]. rewrite Hz.
    intros H; injection H as <-. reflexivity. }
  unfold alt_dot. destruct prev; [|discriminate]. destruct s as [|c0 r]; [discriminate|].
  destruct (_ && _); [|discriminate]. intros H; injection H as <-.
  discriminate.
Qed.

Lemma yield_components_plain (s : string) : forall prev pos skip comps,
  yield_components (scan prev pos skip s) = Ok comps -> forallb plain comps = true.
Proof.
  induction s as [|c s IH]; intros prev pos skip comps.
  - cbn [scan yield_components]. intros H; injection H as <-. reflexivity.
  - cbn [scan]. destruct skip as [|k]; [|apply IH].
    destruct (match_at prev (String c s)) as [g|] eqn:Hm; [|apply IH].
    cbn [yield_components].
    pose proof (fun x => match_at_plain prev (String c s) g pos
                           (pos + String.length (g_text g)) x Hm) as Hp.
    destruct (component_of_match (mkMatch pos (pos + String.length (g_text g)) g))
      as [x|e]; cbn [bind_result]; [|discriminate].
    destruct (yield_components (scan (Some c) (S pos) (String.length (g_text g) - 1) s))
      as [cs|e] eqn:Hy; cbn [bind_result]; [|discriminate].
    specialize (IH _ _ _ _ Hy).
    intros H; injection H as <-. destruct x as [x|]; [|exact IH].
    cbn [forallb]. now rewrite (Hp x eq_refl), IH.
Qed.

Lemma split_path_plain (s : string) (validate : bool) (comps : list component) :
  split_path s validate = Ok comps -> forallb plain comps = true.
Proof.
  unfold split_path, finditer. destruct validate; [|apply yield_components_plain].
  destruct (validate_loop None (scan None 0 0 s)); [|discriminate].
  destruct (_ && _); [discriminate | apply yield_components_plain].
Qed.

Lemma split_path_render (cs : list component) :
  forallb plain cs = true -> split_path (join_path cs) true = Ok cs.
Proof.
  intros Hplain. unfold join_path. rewrite (join_path_render cs Hplain). simpl.
  destruct (scan_render cs Hplain true None 0 eq_refl) as [Hy Hv].
  unfold split_path, finditer.
  destruct cs as [|c cs]; [reflexivity|].
  destruct (scan None 0 0 (render true (c :: cs))) as [|m ms] eqn:Hscan; [discriminate Hy|].
  rewrite validate_loop_start by discriminate. rewrite Hv. simpl Nat.add.
  rewrite Nat.eqb_refl, andb_false_r. exact Hy.
Qed.

End PathFormsFacts.

Section PathFormsProperties.
Import Path PathForms.

(** X1. [split_path] undoes [join_path]: for every list of components whose
    names are identifiers of the grammar (non-empty, letters, digits and
    underscores), the text that [join_path] builds is accepted by
    [split_path] with validation, which returns the very list. *)
Theorem join_path_split_path_round_trip (cs : list component) :
  forallb plain cs = true ->
  split_path (join_path cs) true = Ok cs.
Proof. exact (split_path_render cs). Qed.

Lemma join_path_split_path_round_trip_witness :
  split_path (join_path [Name "a"; Index (-3); Name "b_1"]) true
  = Ok [Name "a"; Index (-3); Name "b_1"].
Proof. apply join_path_split_path_round_trip. reflexivity. Defined.

(** X2. Without validation [split_path] returns components for every text:
    [int] never fails on the text of the second group, and the sanity check
    [assert match.group(0) == '.'] never fires. *)
Theorem split_path_unvalidated_never_raises (s : string) :
  exists comps, split_path s false = Ok comps.
Proof. unfold split_path, finditer. apply yield_components_scan. Qed.

(** X3. With validation [split_path] accepts exactly the empty text and
    the texts that the matches tile (no gap, reaching the end); it then
    returns what it returns without validation, and in every other case it
    raises [ValueError]. *)
Theorem split_path_accepts_exactly_tiled_text (s : string) :
  split_path s true
  = if is_empty s
       || (negb (has_gap 0 (finditer s))
           && Nat.eqb (reach 0 (finditer s)) (String.length s))
    then split_path s false
    else Raise ValueError.
Proof.
  unfold split_path. destruct (has_gap 0 (finditer s)) eqn:Hgap.
  - rewrite (validate_loop_gap (finditer s) None Hgap).
    destruct s; [|reflexivity]. discriminate Hgap.
  - rewrite (validate_loop_reach (finditer s) None Hgap). cbn [negb andb default].
    destruct (finditer s) as [|m ms] eqn:Hms.
    + destruct s; reflexivity.
    + rewrite <- Hms. destruct s as [|c s]; [discriminate Hms|]. cbn [is_empty negb orb andb].
      rewrite Hms. cbn [reach]. now destruct (Nat.eqb _ _).
Qed.

(** X4. The two forms of a path agree: for a path given as nothing, as an
    integer, as an accepted text or as a list of plain components, the
    text that [get_str_path] gives is split by [get_list_path] into the
    components that [get_list_path] gives for the path itself. *)
Theorem get_list_path_of_get_str_path (path : pathlike) :
  match path with PSeq cs => forallb plain cs = true | _ => True end ->
  get_list_path (PStr (get_str_path path)) = get_list_path path.
Proof.
  destruct path as [|z|s|cs]; intros Hp; cbn [get_list_path get_str_path].
  - reflexivity.
  - change (_get_child_accessor (Index z) EmptyString) with (join_path [Index z]).
    now apply split_path_render.
  - reflexivity.
  - now apply split_path_render.
Qed.

Lemma get_list_path_of_get_str_path_witness :
  get_list_path (PStr (get_str_path (PSeq [Name "a"; Index 0])))
  = get_list_path (PSeq [Name "a"; Index 0]).
Proof. apply get_list_path_of_get_str_path. reflexivity. Defined.

(** X29. [join_path] after [split_path] normalises a path: every text
    that [split_path] accepts yields plain components, and the text that
    [join_path] builds from them is accepted and yields the same
    components, also when it differs from the text given (an integer
    written with leading zeros). *)
Theorem split_path_of_join_path_of_split_path (s : string) (comps : list component) :
  split_path s true = Ok comps ->
  forallb plain comps = true
  /\ split_path (join_path comps) true = Ok comps.
Proof.
  intros H. pose proof (split_path_plain s true comps H) as Hp.
  split; [exact Hp | now apply split_path_render].
Qed.

Lemma split_path_of_join_path_of_split_path_witness :
  forallb plain [Name "a"; Index 1] = true
  /\ split_path (join_path [Name "a"; Index 1]) true = Ok [Name "a"; Index 1].
Proof. apply (split_path_of_join_path_of_split_path "a[001]"). reflexivity. Defined.

End PathFormsProperties.
Section NavFacts.
Import Tree Nav.

Lemma last_cons_default {A : Type} (l : list A) :
  forall (x d : A), List.last (x :: l) d = List.last l x.
Proof.
  induction l as [|y l IH]; intros x d; [reflexivity|].
  change (List.last (x :: y :: l) d) with (List.last (y :: l) d).
  now rewrite (IH y d), (IH y x).
Qed.

Lemma get_node_loop_steps (names : bool) (path : list component) :
  forall (node : node) (ret : list item) (pre : list component),
    (names = true -> exists ch nm, last ret = Some (Named ch nm pre)) ->
    get_node_loop names node path ret
    = (ret ++ steps names pre node path, resolves node path).
Proof.
  unfold resolves.
  induction path as [|c path IH]; intros node ret pre Hlast; cbn [get_node_loop steps].
  { now rewrite app_nil_r. }
  assert (Hadd : forall child,
            _add names ret child c
            = ret ++ [if names then Named child (Some c) (pre ++ [c]) else Bare child]).
  { intros child. unfold _add. destruct names; [|reflexivity].
    destruct (Hlast eq_refl) as (ch & nm & ->). reflexivity. }
  cbn [Tree.get_node].
  destruct node as [fl v | fl cs].
  { now rewrite Hadd. }
  destruct (get_child cs c) as [n|] eqn:Hc.
  - rewrite Hadd, (IH n _ (pre ++ [c])).
    + now rewrite <- app_assoc.
    + intros ->. rewrite last_snoc. eauto.
  - now rewrite Hadd.
Qed.

Lemma get_node_loop_self (names : bool) (self : node) (path : list component) :
  get_node_loop names self path [self_item names self]
  = (self_item names self :: steps names [] self path, resolves self path).
Proof.
  rewrite (get_node_loop_steps names path self _ []); [reflexivity|].
  intros ->. simpl. eauto.
Qed.

(** The last element added below [node]: the node at [path] when that
    resolves; otherwise [None], after the last node that was reached. *)
Lemma steps_last (names : bool) (path : list component) :
  forall (node : node) (pre : list component) (before : item),
    item_node before = Some node ->
    match Tree.get_node node path with
    | Some n => item_node (List.last (steps names pre node path) before) = Some n
    | None =>
        item_node (List.last (steps names pre node path) before) = None
        /\ steps names pre node path <> []
        /\ item_node (List.last (removelast (steps names pre node path)) before)
           = Some (Tree.get_first_not_missing_node node path)
    end.
Proof.
  induction path as [|c path IH]; intros node pre before Hbefore;
    cbn [steps Tree.get_node Tree.get_first_not_missing_node].
  { exact Hbefore. }
  destruct node as [fl v | fl cs].
  { cbn [List.last removelast]. split_conj; [now destruct names | discriminate | exact Hbefore]. }
  destruct (get_child cs c) as [n|] eqn:Hc.
  2:{ cbn [List.last removelast]. split_conj; [now destruct names | discriminate | exact Hbefore]. }
  set (it := if names then Named (Some n) (Some c) (pre ++ [c]) else Bare (Some n)).
  assert (Hit : item_node it = Some n) by (unfold it; now destruct names).
  specialize (IH n (pre ++ [c]) it Hit).
  rewrite last_cons_default.
  destruct (Tree.get_node n path) as [m|]; [exact IH|].
  destruct IH as (Hnone & Hne & Hrem). split_conj; [exact Hnone | discriminate |].
  destruct (steps names (pre ++ [c]) n path) as [|x l] eqn:Hs; [congruence|].
  change (removelast (it :: x :: l)) with (it :: removelast (x :: l)).
  rewrite last_cons_default. exact Hrem.
Qed.

(** Each element added below [node] is the node at a prefix of the path,
    with the name and the path that lead to it. *)
Lemma steps_lookup (path : list component) :
  forall (node : node) (pre : list component) (i : nat) (it : item),
    steps true pre node path !! i = Some it ->
    it = Named (Tree.get_node node (take (S i) path)) (path !! i) (pre ++ take (S i) path).
Proof.
  induction path as [|c path IH]; intros node pre i it; cbn [steps]; [discriminate|].
  assert (Hhead : forall child,
            child = match node with Dict _ cs => get_child cs c | Scalar _ _ => None end ->
            Named child (Some c) (pre ++ [c])
            = Named (Tree.get_node node (take 1 (c :: path))) ((c :: path) !! 0)
                    (pre ++ take 1 (c :: path))).
  { intros child ->. cbn [take Tree.get_node]. rewrite take_0.
    destruct node as [fl v | fl cs]; [reflexivity|]. now destruct (get_child cs c). }
  destruct (match node with Dict _ cs => get_child cs c | Scalar _ _ => None end)
    as [n|] eqn:Hc.
  - destruct i as [|j]; simpl.
    + intros H; injection H as <-. now apply Hhead.
    + intros H. rewrite (IH n (pre ++ [c]) j it H).
      cbn [take Tree.get_node]. rewrite <- app_assoc. cbn [app].
      destruct node as [fl v | fl cs]; [discriminate|]. now rewrite Hc.
  - destruct i as [|j]; simpl; [|discriminate].
    intros H; injection H as <-. now apply Hhead.
Qed.

Lemma steps_length (names : bool) (path : list component) :
  forall (node : node) (pre : list component),
    List.length (steps names pre node path) <= List.length path
    /\ (resolves node path = true ->
        List.length (steps names pre node path) = List.length path).
Proof.
  unfold resolves.
  induction path as [|c path IH]; intros node pre; cbn [steps Tree.get_node List.length].
  { split; [lia | reflexivity]. }
  destruct node as [fl v | fl cs]; [cbn [List.length]; split; [lia | discriminate]|].
  destruct (get_child cs c) as [n|]; [|cbn [List.length]; split; [lia | discriminate]].
  cbn [List.length]. destruct (IH n (pre ++ [c])) as [Hle Heq]. split; [lia|].
  intros H. rewrite (Heq H). reflexivity.
Qed.

Lemma get_node_take (path : list component) :
  forall (self n : node) (i : nat),
    Tree.get_node self path = Some n -> is_Some (Tree.get_node self (take i path)).
Proof.
  induction path as [|c path IH]; intros self n i H.
  { rewrite take_nil. eauto. }
  destruct i as [|i]; [rewrite take_0; simpl; eauto|].
  cbn [take Tree.get_node] in *. destruct self as [fl v | fl cs]; [discriminate|].
  destruct (get_child cs c) as [m|]; [|discriminate]. exact (IH m n i H).
Qed.

Lemma last_Forall {A : Type} (P : A -> Prop) (l : list A) (d : A) :
  Forall P l -> P d -> P (List.last l d).
Proof.
  intros Hl. revert d. induction Hl as [|x l Hx Hl IH]; intros d Hd; [exact Hd|].
  rewrite last_cons_default. now apply IH.
Qed.

Lemma steps_bare (path : list component) :
  forall (self : node) (pre : list component),
    Forall (fun it => it = Bare (item_node it)) (steps false pre self path).
Proof.
  induction path as [|c path IH]; intros self pre; cbn [steps]; [constructor|].
  destruct (match self with Dict _ cs => get_child cs c | Scalar _ _ => None end);
    repeat constructor. apply IH.
Qed.

Lemma last_item_bare (self : node) (path : list component) (l : list item) :
  Forall (fun it => it = Bare (item_node it)) l ->
  last_item false self (self_item false self :: l)
  = Bare (item_node (List.last l (Bare (Some self)))).
Proof.
  intros Hl. unfold last_item. rewrite last_cons_default. cbn [self_item].
  now apply (last_Forall (fun it => it = Bare (item_node it))).
Qed.

Lemma removelast_Forall {A : Type} (P : A -> Prop) (l : list A) :
  Forall P l -> Forall P (removelast l).
Proof.
  induction 1 as [|x l Hx Hl IH]; [constructor|].
  destruct l as [|y l]; [constructor|].
  change (removelast (x :: y :: l)) with (x :: removelast (y :: l)). now constructor.
Qed.

(** The last two elements of the list of a path that resolves: the node
    at the path with the last component as its name, and before it the
    parent with the path to it. *)
Lemma steps_parent (path : list component) :
  forall (self : node) (pre : list component) (nm0 : option component) (d : component),
    resolves self path = true -> path <> [] ->
    exists n parent nm,
      List.last (steps true pre self path) (Named (Some self) nm0 pre)
      = Named (Some n) (Some (List.last path d)) (pre ++ path)
      /\ List.last (removelast (steps true pre self path)) (Named (Some self) nm0 pre)
         = Named (Some parent) nm (pre ++ removelast path).
Proof.
  unfold resolves.
  induction path as [|c path IH]; intros self pre nm0 d Hres Hne; [congruence|].
  cbn [steps Tree.get_node] in *.
  destruct self as [fl v | fl cs]; [discriminate|].
  destruct (get_child cs c) as [n|] eqn:Hc; [|discriminate].
  destruct path as [|c' path].
  - cbn [steps List.last removelast]. rewrite app_nil_r. eauto.
  - destruct (IH n (pre ++ [c]) (Some c) d Hres ltac:(discriminate)) as (m & parent & nm & Hl & Hr).
    rewrite (last_cons_default (steps true (pre ++ [c]) n (c' :: path))), Hl.
    assert (Hsteps : steps true (pre ++ [c]) n (c' :: path) <> []).
    { cbn [steps].
      now destruct (match n with Dict _ cs0 => get_child cs0 c' | Scalar _ _ => None end). }
    destruct (steps true (pre ++ [c]) n (c' :: path)) as [|x l] eqn:Hs; [congruence|].
    change (removelast (Named (Some n) (Some c) (pre ++ [c]) :: x :: l))
      with (Named (Some n) (Some c) (pre ++ [c]) :: removelast (x :: l)).
    rewrite (last_cons_default (removelast (x :: l))), Hr.
    exists m, parent, nm. split.
    + f_equal. now rewrite <- app_assoc.
    + f_equal. change (removelast (c :: c' :: path)) with (c :: removelast (c' :: path)).
      now rewrite <- app_assoc.
Qed.

Lemma remove_node_spec (self : node) (path : list component) (d : component) :
  remove_node self path
  = match path with
    | [] => Raise ValueError
    | _ :: _ =>
        Ok (if resolves self path
            then update_node (removelast path) (drop_child (List.last path d)) self
            else self)
    end.
Proof.
  unfold remove_node, get_node. rewrite get_node_loop_self.
  destruct (resolves self path) eqn:Hres.
  2:{ destruct path; [discriminate Hres | reflexivity]. }
  destruct (steps_length true path self []) as [_ Hlen].
  cbn [List.length]. rewrite (Hlen Hres).
  destruct path as [|c path]; [reflexivity|].
  cbn [List.length Nat.eqb].
  destruct (steps_parent (c :: path) self [] None d Hres ltac:(discriminate))
    as (n & parent & nm & Hl & Hr).
  assert (Hsteps : steps true [] self (c :: path) <> []).
  { cbn [steps].
    now destruct (match self with Dict _ cs0 => get_child cs0 c | Scalar _ _ => None end). }
  destruct (steps true [] self (c :: path)) as [|x l] eqn:Hs; [congruence|].
  unfold last_item.
  change (removelast (self_item true self :: x :: l))
    with (self_item true self :: removelast (x :: l)).
  rewrite (last_cons_default (x :: l)), (last_cons_default (removelast (x :: l))).
  cbn [self_item]. rewrite Hl, Hr. reflexivity.
Qed.

Lemma update_node_removes (path : list component) (d : component) :
  forall self : node,
    path <> [] -> resolves self path = true ->
    Tree.get_node (update_node (removelast path) (drop_child (List.last path d)) self) path
    = None.
Proof.
  unfold resolves.
  induction path as [|c path IH]; intros self Hne Hres; [congruence|].
  cbn [Tree.get_node] in Hres.
  destruct self as [fl v | fl cs]; [discriminate|].
  destruct (get_child cs c) as [n|] eqn:Hc; [|discriminate].
  destruct path as [|c' path].
  - cbn [removelast update_node List.last drop_child Tree.get_node].
    rewrite get_child_remove. now destruct (decide (c = c)).
  - change (removelast (c :: c' :: path)) with (c :: removelast (c' :: path)).
    change (List.last (c :: c' :: path) d) with (List.last (c' :: path) d).
    cbn [update_node]. rewrite Hc. cbn [Tree.get_node].
    rewrite get_child_replace. destruct (decide (c = c)); [|congruence].
    unfold has_child. rewrite Hc. apply IH; [discriminate | exact Hres].
Qed.

(** Induction on a tree, with the hypothesis for every child. *)
Lemma node_nested_ind (P : node -> Prop) :
  (forall fl v, P (Scalar fl v)) ->
  (forall fl cs, Forall (fun kv => P (snd kv)) cs -> P (Dict fl cs)) ->
  forall n, P n.
Proof.
  intros Hs Hd. fix IH 1. intros [fl v | fl cs]; [apply Hs|].
  apply Hd. induction cs as [|kv cs IHcs]; constructor; [apply IH | exact IHcs].
Qed.

Lemma get_node_leaf (fl : flags) (v : native) (p : list component) (n : node) :
  Tree.get_node (Scalar fl v) p = Some n <-> p = [] /\ n = Scalar fl v.
Proof.
  destruct p; simpl; split.
  - intros H; injection H as <-. auto.
  - intros [_ ->]. reflexivity.
  - discriminate.
  - intros [H _]. discriminate.
Qed.

Lemma nodes_with_paths_spec (self : node) :
  well_formed self = true ->
  forall (prefix : list component) (include_self : bool) (q : list component) (n : node),
    In (q, n) (nodes_with_paths true prefix include_self self)
    <-> exists p, q = prefix ++ p
                  /\ (include_self = true \/ p <> [])
                  /\ Tree.get_node self p = Some n.
Proof.
  induction self as [fl v | fl cs IH] using node_nested_ind;
    intros Hwf prefix include_self q n.
  { cbn [nodes_with_paths]. rewrite app_nil_r. split.
    - destruct include_self; [|intros []]. intros [H|[]]. injection H as <- <-.
      exists []. rewrite app_nil_r. auto.
    - intros (p & -> & Hincl & Hp). apply get_node_leaf in Hp as [-> ->].
      rewrite app_nil_r. destruct Hincl as [->|]; [now left | congruence]. }
  cbn [nodes_with_paths]. rewrite in_app_iff, in_flat_map.
  assert (Hchild : forall k child, In (k, child) cs ->
            forall q n,
              In (q, n) (match child with
                         | Dict _ _ => nodes_with_paths true (prefix ++ [k]) true child
                         | Scalar _ _ => [(prefix ++ [k], child)]
                         end)
              <-> exists p', q = prefix ++ k :: p' /\ Tree.get_node child p' = Some n).
  { intros k child Hin q0 n0.
    destruct child as [cfl cv | cfl ccs].
    - split.
      + intros [H|[]]. injection H as <- <-. exists []. auto.
      + intros (p' & -> & Hp). apply get_node_leaf in Hp as [-> ->]. now left.
    - rewrite List.Forall_forall in IH.
      rewrite (IH (k, Dict cfl ccs) Hin (well_formed_child _ _ _ _ Hwf Hin)). split.
      + intros (p & -> & _ & Hp). exists p. now rewrite <- app_assoc.
      + intros (p' & -> & Hp). exists p'. rewrite <- app_assoc. auto. }
  cbn [well_formed] in Hwf. apply andb_prop in Hwf as [Hkeys _].
  split.
  - intros [Hself | ((k & child) & Hin & Hq)].
    + destruct include_self; [|destruct Hself]. destruct Hself as [H|[]].
      injection H as <- <-. exists []. rewrite app_nil_r. auto.
    + cbn [fst snd] in Hq. apply (Hchild k child Hin) in Hq as (p' & -> & Hp).
      exists (k :: p'). split_conj; [reflexivity | right; discriminate |].
      cbn [Tree.get_node]. now rewrite (keys_unique_In cs k child Hkeys Hin).
  - intros (p & -> & Hincl & Hp). destruct p as [|k p'].
    + left. destruct Hincl as [->|]; [|congruence]. injection Hp as <-.
      rewrite app_nil_r. now left.
    + right. cbn [Tree.get_node] in Hp.
      destruct (get_child cs k) as [child|] eqn:Hk; [|discriminate].
      exists (k, child). split; [now apply get_child_In|].
      cbn [fst snd]. apply (Hchild k child (get_child_In _ _ _ Hk)). eauto.
Qed.

Lemma rename_child_spec (old_name new_name : component) (cs : children) :
  forall child cs',
    rename_child old_name new_name cs = Ok (child, cs') ->
    get_child cs old_name = Some child
    /\ cs' = remove_child old_name cs ++ [(new_name, child)]
    /\ get_child cs' new_name = Some child
    /\ get_child cs' old_name = None
    /\ forall k, k <> old_name -> k <> new_name -> get_child cs' k = get_child cs k.
Proof.
  unfold rename_child, has_child. intros child cs'.
  destruct (get_child cs old_name) as [c|] eqn:Hold; cbn [negb]; [|discriminate].
  destruct (get_child cs new_name) as [c'|] eqn:Hnew; [discriminate|].
  intros H; injection H as <- <-.
  assert (Hne : old_name <> new_name) by congruence.
  assert (Habs : has_child (remove_child old_name cs) new_name = false).
  { unfold has_child. rewrite get_child_remove, Hnew. now destruct (decide _). }
  split_conj.
  - reflexivity.
  - unfold assign_child. now rewrite Habs.
  - rewrite get_child_assign. now destruct (decide (new_name = new_name)).
  - rewrite get_child_assign, get_child_remove.
    destruct (decide (new_name = old_name)); [congruence|].
    now destruct (decide (old_name = old_name)).
  - intros k Hk1 Hk2. rewrite get_child_assign, get_child_remove.
    destruct (decide (new_name = k)); [congruence|].
    now destruct (decide (old_name = k)); [congruence|].
Qed.

End NavFacts.

Section NavProperties.
Import Tree Nav.

(** X5. The three values of [incomplete] differ only on a path that does
    not resolve: the default gives [None], a false value raises
    [KeyError], a true value gives the missing node as [None]; on a path
    that resolves every mode returns the node at the path, which is the
    node the lookup by structural descent finds. *)
Theorem get_node_modes_agree (self : node) (path : list component) :
  get_node self path false false INone
  = match Tree.get_node self path with
    | Some n => Found (One (Bare (Some n)))
    | None => Missing
    end
  /\ get_node self path false false IFalse
     = match Tree.get_node self path with
       | Some n => Found (One (Bare (Some n)))
       | None => KeyError
       end
  /\ get_node self path false false ITrue
     = Found (One (Bare (Tree.get_node self path))).
Proof.
  unfold get_node. rewrite get_node_loop_self. unfold resolves.
  rewrite (last_item_bare self path _ (steps_bare path self [])).
  pose proof (steps_last false path self [] (Bare (Some self)) eq_refl) as H.
  destruct (Tree.get_node self path) as [n|].
  - rewrite H. auto.
  - destruct H as (H & _). rewrite H. auto.
Qed.

(** X6. With [intermediate] and [names] the list that [get_node] returns
    holds, at position [i], the node at the first [i] components of the
    path, with the name that led to it and that very prefix as its path;
    every element is a node but, when the path does not resolve, the last
    one; a path that resolves gives one element more than it has
    components. *)
Theorem get_node_intermediate_lists_prefixes (self : node) (path : list component) :
  exists ret,
    get_node self path true true ITrue = Found (Items ret)
    /\ List.length ret <= S (List.length path)
    /\ (resolves self path = true -> List.length ret = S (List.length path))
    /\ forall i it, ret !! i = Some it ->
         it = Named (Tree.get_node self (take i path))
                    (match i with 0 => None | S j => path !! j end)
                    (take i path).
Proof.
  exists (self_item true self :: steps true [] self path).
  unfold get_node. rewrite get_node_loop_self.
  destruct (steps_length true path self []) as [Hle Heq].
  split_conj.
  - now destruct (resolves self path).
  - cbn [List.length]. lia.
  - intros H. cbn [List.length]. now rewrite (Heq H).
  - intros [|j] it; simpl.
    + intros H; injection H as <-. now rewrite take_0.
    + intros H. exact (steps_lookup path self [] j it H).
Qed.

(** X7. [get_first_not_missing_node] without [names] never fails an
    assertion: it returns the last node reached before the first missing
    component.  With [names] the elements are tuples, and the first
    assertion fails exactly for the empty path. *)
Theorem get_first_not_missing_node_assertions (self : node) (path : list component) :
  get_first_not_missing_node self path false false
  = Ok (One (Bare (Some (Tree.get_first_not_missing_node self path))))
  /\ (forall intermediate,
        get_first_not_missing_node self [] intermediate true = Raise AssertionError)
  /\ (path <> [] ->
      exists it, get_first_not_missing_node self path false true = Ok (One it)
                 /\ item_node it = Some (Tree.get_first_not_missing_node self path)).
Proof.
  split_conj.
  - unfold get_first_not_missing_node. rewrite get_node_loop_self. cbn [fst].
    pose proof (steps_bare path self []) as Hbare.
    rewrite (last_item_bare self path _ Hbare).
    pose proof (steps_last false path self [] (Bare (Some self)) eq_refl) as H.
    assert (Hsame : forall n, Tree.get_node self path = Some n ->
                              Tree.get_first_not_missing_node self path = n).
    { clear. revert self. induction path as [|c path IH]; intros self n; simpl.
      - congruence.
      - destruct self as [fl v | fl cs]; [discriminate|].
        destruct (get_child cs c) as [m|]; [apply IH | discriminate]. }
    destruct (Tree.get_node self path) as [n|] eqn:Hn.
    + rewrite H. cbn [item_node is_self]. rewrite orb_true_r. cbn [negb].
      now rewrite (Hsame n eq_refl).
    + destruct H as (Hnone & Hne & Hrem). rewrite Hnone. cbn [item_node is_self].
      destruct (steps false [] self path) as [|x l] eqn:Hs; [congruence|].
      cbn [List.length Nat.leb orb negb].
      change (removelast (self_item false self :: x :: l))
        with (self_item false self :: removelast (x :: l)).
      rewrite (last_item_bare self path _ (removelast_Forall _ _ Hbare)).
      rewrite Hrem. reflexivity.
  - intros intermediate. reflexivity.
  - intros Hpath. unfold get_first_not_missing_node. rewrite get_node_loop_self. cbn [fst].
    pose proof (steps_last true path self [] (self_item true self) eq_refl) as H.
    assert (Hsame : forall n, Tree.get_node self path = Some n ->
                              Tree.get_first_not_missing_node self path = n).
    { clear. revert self. induction path as [|c path IH]; intros self n; simpl.
      - congruence.
      - destruct self as [fl v | fl cs]; [discriminate|].
        destruct (get_child cs c) as [m|]; [apply IH | discriminate]. }
    assert (Hsteps : steps true [] self path <> []).
    { destruct path as [|c path]; [congruence|]. cbn [steps].
      now destruct (match self with Dict _ cs => get_child cs c | Scalar _ _ => None end). }
    destruct (steps true [] self path) as [|x l] eqn:Hs; [congruence|].
    cbn [List.length Nat.leb orb negb]. unfold last_item.
    rewrite last_cons_default.
    change (removelast (self_item true self :: x :: l))
      with (self_item true self :: removelast (x :: l)).
    rewrite (last_cons_default (removelast (x :: l))).
    destruct (Tree.get_node self path) as [n|] eqn:Hn.
    + rewrite H. eexists. split; [reflexivity|]. rewrite H. now rewrite (Hsame n eq_refl).
    + destruct H as (Hnone & _ & Hrem). rewrite Hnone, Hrem.
      eexists. split; [reflexivity | exact Hrem].
Qed.

Lemma get_first_not_missing_node_assertions_witness :
  exists it,
    get_first_not_missing_node
      (Dict no_flags [(Name "a", Scalar no_flags (NInt 1))]) [Name "a"; Name "b"] false true
    = Ok (One it)
    /\ item_node it
       = Some (Tree.get_first_not_missing_node
                 (Dict no_flags [(Name "a", Scalar no_flags (NInt 1))]) [Name "a"; Name "b"]).
Proof.
  apply (get_first_not_missing_node_assertions
           (Dict no_flags [(Name "a", Scalar no_flags (NInt 1))]) [Name "a"; Name "b"]).
  discriminate.
Defined.

(** X8. [remove_node] refuses the empty path with [ValueError]; for any
    other path it returns, leaving no node at that path; and a path that
    does not resolve leaves [self] as it is. *)
Theorem remove_node_removes_the_node (self : node) (path : list component) :
  remove_node self [] = Raise ValueError
  /\ (path <> [] ->
      exists self',
        remove_node self path = Ok self'
        /\ Tree.get_node self' path = None
        /\ (Tree.get_node self path = None -> self' = self)).
Proof.
  split; [reflexivity|]. intros Hne.
  rewrite (remove_node_spec self path (Name EmptyString)).
  destruct path as [|c path]; [congruence|].
  eexists. split; [reflexivity|].
  destruct (resolves self (c :: path)) eqn:Hres.
  - split.
    + now apply update_node_removes.
    + unfold resolves in Hres. intros H. now rewrite H in Hres.
  - split; [|reflexivity].
    unfold resolves in Hres. now destruct (Tree.get_node self (c :: path)).
Qed.

Lemma remove_node_removes_the_node_witness :
  exists self',
    remove_node (Dict no_flags [(Name "a", Dict no_flags [(Name "b", Scalar no_flags (NInt 1));
                                                        (Name "c", Scalar no_flags (NInt 2))])])
                [Name "a"; Name "b"] = Ok self'
    /\ Tree.get_node self' [Name "a"; Name "b"] = None.
Proof.
  destruct (proj2 (remove_node_removes_the_node
                     (Dict no_flags [(Name "a", Dict no_flags [(Name "b", Scalar no_flags (NInt 1));
                                                             (Name "c", Scalar no_flags (NInt 2))])])
                     [Name "a"; Name "b"]) ltac:(discriminate))
    as (self' & Hrem & Hnone & _).
  exists self'. split; [exact Hrem | exact Hnone].
Defined.

(** X9. [rename_child] raises [ValueError] exactly when the old name is
    absent or the new name is taken (so also when the two names are the
    same); otherwise it returns the child, which is then found under the
    new name and no longer under the old one, as the last entry of the
    children, every other entry staying as it was. *)
Theorem rename_child_moves_the_child (old_name new_name : component) (cs : children) :
  (rename_child old_name new_name cs = Raise ValueError
   <-> has_child cs old_name = false \/ has_child cs new_name = true)
  /\ rename_child old_name old_name cs = Raise ValueError
  /\ forall child cs',
       rename_child old_name new_name cs = Ok (child, cs') ->
       get_child cs old_name = Some child
       /\ cs' = remove_child old_name cs ++ [(new_name, child)]
       /\ get_child cs' new_name = Some child
       /\ get_child cs' old_name = None
       /\ forall k, k <> old_name -> k <> new_name -> get_child cs' k = get_child cs k.
Proof.
  split_conj.
  - unfold rename_child, has_child.
    destruct (get_child cs old_name) as [child|]; cbn [negb].
    + destruct (get_child cs new_name); split; auto; try discriminate.
      intros [H|H]; discriminate H.
    + split; auto.
  - unfold rename_child, has_child. now destruct (get_child cs old_name).
  - apply rename_child_spec.
Qed.

Lemma rename_child_moves_the_child_witness :
  get_child [(Name "b", Scalar no_flags (NInt 2)); (Name "z", Scalar no_flags (NInt 1))]
            (Name "z")
  = Some (Scalar no_flags (NInt 1)).
Proof.
  refine (proj1 (proj2 (proj2 (proj2 (proj2 (rename_child_moves_the_child
            (Name "a") (Name "z")
            [(Name "a", Scalar no_flags (NInt 1)); (Name "b", Scalar no_flags (NInt 2))]))
            (Scalar no_flags (NInt 1))
            [(Name "b", Scalar no_flags (NInt 2)); (Name "z", Scalar no_flags (NInt 1))]
            _)))).
  reflexivity.
Defined.

(** X10. [nodes_with_paths], recursive, yields exactly the nodes that
    [get_node] finds: a pair of a path and a node is yielded if and only if
    the path is [prefix] followed by a path that leads from [self] to the
    node, the empty path counting only with [include_self]. *)
Theorem nodes_with_paths_yields_what_get_node_finds
    (self : node) (prefix : list component) (include_self : bool)
    (q : list component) (n : node) :
  well_formed self = true ->
  (In (q, n) (nodes_with_paths true prefix include_self self)
   <-> exists p, q = prefix ++ p
                 /\ (include_self = true \/ p <> [])
                 /\ Tree.get_node self p = Some n).
Proof. intros Hwf. now apply nodes_with_paths_spec. Qed.

Lemma nodes_with_paths_yields_what_get_node_finds_witness :
  In ([Name "r"; Name "a"; Name "b"], Scalar no_flags (NInt 1))
     (nodes_with_paths true [Name "r"] false
        (Dict no_flags [(Name "a", Dict no_flags [(Name "b", Scalar no_flags (NInt 1))])])).
Proof.
  apply (nodes_with_paths_yields_what_get_node_finds
           (Dict no_flags [(Name "a", Dict no_flags [(Name "b", Scalar no_flags (NInt 1))])])
           [Name "r"] false); [reflexivity|].
  exists [Name "a"; Name "b"]. split_conj; [reflexivity | right; discriminate | reflexivity].
Defined.

End NavProperties.
Section ShapeFacts.
Import Tree Shape.

Lemma remove_children_filter (to_del : list component) :
  forall cs : children,
    remove_children to_del cs
    = List.filter (fun kv => negb (bool_decide (fst kv ∈ to_del))) cs.
Proof.
  unfold remove_children. induction to_del as [|k to_del IH] using rev_ind; intros cs.
  - cbn [rev fold_left]. induction cs as [|kv cs IHcs]; [reflexivity|].
    cbn [List.filter].
    destruct (bool_decide_reflect (fst kv ∈ [])) as [Hin|_].
    + now apply elem_of_nil in Hin.
    + cbn [negb]. now f_equal.
  - rewrite rev_app_distr. cbn [rev app fold_left]. rewrite IH. unfold remove_child.
    clear IH. induction cs as [|kv cs IHcs]; [reflexivity|]. cbn [List.filter].
    repeat (match goal with
            | |- context [bool_decide ?P] => destruct (bool_decide_reflect P)
            end; cbn [negb List.filter]);
      rewrite ?IHcs; try reflexivity; exfalso;
      rewrite ?elem_of_app, ?list_elem_of_singleton in *; tauto.
Qed.

Lemma filter_nodes_survivor (condition : list component -> node -> bool)
    (path : list component) :
  forall (self : node) (prefix : list component) (n' : node),
    path <> [] ->
    Tree.get_node (filter_nodes condition prefix self) path = Some n' ->
    exists n, Tree.get_node self path = Some n
              /\ condition (prefix ++ path) n = true
              /\ n' = filter_nodes condition (prefix ++ path) n.
Proof.
  induction path as [|k path IH]; intros self prefix n' Hne Hget; [congruence|].
  destruct self as [fl v | fl cs]; [discriminate Hget|].
  cbn [Tree.get_node] in Hget |- *.
  change (match filter_nodes condition prefix (Dict fl cs) with
          | Scalar _ _ => None
          | Dict _ cs0 => match get_child cs0 k with
                          | Some n => Tree.get_node n path
                          | None => None
                          end
          end = Some n') in Hget.
  assert (Hcs : forall cs0 fl0, filter_nodes condition prefix (Dict fl cs) = Dict fl0 cs0 ->
                  get_child cs0 k
                  = get_child (node_children (filter_nodes condition prefix (Dict fl cs))) k).
  { intros cs0 fl0 ->. reflexivity. }
  destruct (filter_nodes condition prefix (Dict fl cs)) as [? ?|fl0 cs0] eqn:Hf;
    [discriminate|].
  rewrite (Hcs cs0 fl0 eq_refl), <- Hf, get_child_filter_nodes in Hget.
  destruct (bool_decide (k ∈ rejected condition prefix cs)) eqn:Hrej; [discriminate|].
  apply bool_decide_eq_false in Hrej.
  destruct (get_child cs k) as [c|] eqn:Hk; [|discriminate]. cbn [option_map] in Hget.
  assert (Hkeep : keeps condition prefix k c = true).
  { destruct (keeps condition prefix k c) eqn:Hkeeps; [reflexivity|].
    exfalso. apply Hrej. apply rejected_In. exists c. split; [|exact Hkeeps].
    now apply get_child_In. }
  unfold keeps in Hkeep. apply andb_prop in Hkeep as [Hcond _].
  destruct path as [|k' path].
  - injection Hget as <-. exists c. auto.
  - destruct (IH c (prefix ++ [k]) n' ltac:(discriminate) Hget) as (n & Hn & Hc & ->).
    exists n. rewrite <- app_assoc in *. auto.
Qed.

Lemma filter_nodes_accept_all (self : node) :
  no_empty_dict self = true ->
  forall prefix, filter_nodes accept_all prefix self = self.
Proof.
  induction self as [fl v | fl cs IH] using node_nested_ind; intros Hne prefix;
    [reflexivity|].
  rewrite filter_nodes_Dict. cbn [no_empty_dict] in Hne.
  rewrite forallb_forall in Hne. rewrite List.Forall_forall in IH.
  assert (Hmap : map (fun kv => (fst kv, filter_nodes accept_all (prefix ++ [fst kv]) (snd kv))) cs
                 = cs).
  { rewrite <- (map_id cs) at 2. apply map_ext_in. intros [k c] Hin. cbn [fst snd].
    f_equal. apply (IH (k, c) Hin).
    specialize (Hne (k, c) Hin). now apply andb_prop in Hne as [_ ?]. }
  assert (Hrej : rejected accept_all prefix cs = []).
  { unfold rejected.
    assert (Hall : forall l : children, (forall kv, In kv l -> In kv cs) ->
              List.filter (fun kv => negb (keeps accept_all prefix (fst kv) (snd kv))) l = []).
    { induction l as [|[k c] l IHl]; intros Hsub; [reflexivity|]. simpl.
      assert (Hin : In (k, c) cs) by (apply Hsub; now left).
      pose proof (Hne (k, c) Hin) as Hc. cbn [fst snd] in Hc.
      apply andb_prop in Hc as [Hc1 Hc2].
      unfold keeps at 1. cbn [accept_all andb fst snd].
      rewrite (IH (k, c) Hin Hc2). cbn [snd]. rewrite Hc1. cbn [negb].
      apply IHl. intros kv Hkv. apply Hsub. now right. }
    now rewrite Hall. }
  rewrite Hmap, Hrej. reflexivity.
Qed.

Lemma filter_nodes_reject_all (prefix : list component) (fl : flags) (cs : children) :
  filter_nodes reject_all prefix (Dict fl cs) = Dict fl [].
Proof.
  rewrite filter_nodes_Dict, remove_children_filter. f_equal.
  assert (Hrej : rejected reject_all prefix cs = map fst cs).
  { unfold rejected. f_equal. induction cs as [|kv cs IH]; [reflexivity|].
    cbn [List.filter]. unfold keeps at 1. cbn [reject_all andb negb]. now rewrite IH. }
  rewrite Hrej.
  assert (Hall : forall l : children, (forall kv, In kv l -> In kv cs) ->
            List.filter (fun kv => negb (bool_decide (fst kv ∈ map fst cs)))
              (map (fun kv => (fst kv, filter_nodes reject_all (prefix ++ [fst kv]) (snd kv))) l)
            = []).
  { induction l as [|[k c] l IHl]; intros Hsub; [reflexivity|].
    cbn [map List.filter fst snd].
    destruct (bool_decide_reflect (k ∈ map fst cs)) as [_|Hk].
    - cbn [negb]. apply IHl. intros kv Hkv. apply Hsub. now right.
    - exfalso. apply Hk. apply list_elem_of_In. apply (in_map fst cs (k, c)).
      apply Hsub. now left. }
  now apply Hall.
Qed.

Lemma prune_Dict (fl : flags) (cs : children) (other : node) :
  exists cs', prune (Dict fl cs) other = Dict fl cs'.
Proof.
  unfold prune. destruct (delete other); [|eauto].
  rewrite filter_nodes_Dict. eauto.
Qed.

(** The priority branch raises only the [ValueError] of a refused name. *)
Lemma merge_by_priority_ends (key : component) (child value : node) (cs : children) :
  match merge_by_priority key child value cs with
  | Returned _ => True
  | Raised e _ => e = ValueError /\ shadows_class_attribute key = true
  end.
Proof.
  unfold merge_by_priority, set_child.
  destruct (has_priority_over value child true); [|exact I].
  destruct (negb (truthy value) && delete value); [exact I|].
  destruct (shadows_class_attribute key); cbn [lift_result]; auto.
Qed.

Lemma merge_step_ends (key : component) (value : node) (scs : children) :
  (forall child, is_leaf child = false -> is_leaf value = false ->
                 ends_well value (merge child value)) ->
  match merge_step merge key value scs with
  | Returned _ => True
  | Raised e _ =>
      e = ValueError
      /\ negb (shadows_class_attribute key) && names_accepted value = false
  end.
Proof.
  intros IH. unfold merge_step.
  assert (Hprio : forall child cs,
            match merge_by_priority key child value cs with
            | Returned _ => True
            | Raised e _ =>
                e = ValueError
                /\ negb (shadows_class_attribute key) && names_accepted value = false
            end).
  { intros child cs. pose proof (merge_by_priority_ends key child value cs) as H.
    destruct (merge_by_priority key child value cs); [exact I|].
    destruct H as [-> ->]. auto. }
  destruct (get_child scs key) as [child|].
  - destruct (is_leaf child) eqn:Hleaf; [apply Hprio|].
    destruct value as [vfl vv | vfl vcs].
    + cbn [merge]. apply Hprio.
    + specialize (IH child Hleaf eq_refl).
      destruct (merge child (Dict vfl vcs)) as [c1|e c1]; cbn [ends_well] in IH.
      * now destruct (negb (truthy c1) && negb (has_priority_over c1 (Dict vfl vcs) false)).
      * destruct IH as [-> ->]. rewrite andb_false_r. auto.
  - unfold set_child. destruct (shadows_class_attribute key); cbn [lift_result]; auto.
Qed.

Lemma merge_loop_ends (ocs : children) :
  Forall (fun kv => forall child, is_leaf child = false -> is_leaf (snd kv) = false ->
                                  ends_well (snd kv) (merge child (snd kv))) ocs ->
  forall scs,
    match merge_loop merge ocs scs with
    | Returned _ => True
    | Raised e _ =>
        e = ValueError
        /\ forallb (fun kv => negb (shadows_class_attribute (fst kv))
                               && names_accepted (snd kv)) ocs = false
    end.
Proof.
  induction 1 as [|[key value] ocs Hv Hocs IH]; intros scs; [exact I|].
  cbn [merge_loop forallb fst snd].
  pose proof (merge_step_ends key value scs Hv) as Hstep.
  destruct (merge_step merge key value scs) as [scs1|e scs1].
  - specialize (IH scs1). destruct (merge_loop merge ocs scs1); [exact I|].
    destruct IH as [-> ->]. rewrite andb_false_r. auto.
  - destruct Hstep as [-> ->]. auto.
Qed.

Lemma merge_ends_well (other : node) :
  forall self, is_leaf self = false -> is_leaf other = false ->
               ends_well other (merge self other).
Proof.
  induction other as [ofl ov | ofl ocs IH] using node_nested_ind;
    intros self Hself Hother; [discriminate|].
  destruct self as [fl v | fl cs]; [discriminate|].
  rewrite merge_Dict. destruct (prune_Dict fl cs (Dict ofl ocs)) as [pruned ->].
  pose proof (merge_loop_ends ocs IH pruned) as Hloop.
  destruct (merge_loop merge ocs pruned); cbn [outcome_map ends_well]; [exact I|].
  exact Hloop.
Qed.

Lemma keys_unique_app_head (scs ocs : children) (k : component) (v : node) :
  keys_unique (scs ++ (k, v) :: ocs) = true -> get_child scs k = None.
Proof.
  induction scs as [|[k0 v0] scs IH]; [reflexivity|].
  cbn [app keys_unique get_child]. intros H. apply andb_prop in H as [Hk Hu].
  apply negb_true_iff in Hk. unfold has_child in Hk. rewrite get_child_app in Hk.
  destruct (decide (k0 = k)) as [->|Hne]; [|now apply IH].
  destruct (get_child scs k); [discriminate|]. cbn [get_child] in Hk.
  destruct (decide (k = k)); [discriminate | congruence].
Qed.

Lemma merge_loop_appends (rec : node -> node -> outcome node) (ocs : children) :
  forall scs,
    keys_unique (scs ++ ocs) = true ->
    forallb (fun kv => negb (shadows_class_attribute (fst kv))) ocs = true ->
    merge_loop rec ocs scs = Returned (scs ++ ocs).
Proof.
  induction ocs as [|[k v] ocs IH]; intros scs Hu Hs.
  { cbn [merge_loop]. now rewrite app_nil_r. }
  cbn [forallb fst] in Hs. apply andb_prop in Hs as [Hk Hs]. apply negb_true_iff in Hk.
  cbn [merge_loop]. unfold merge_step.
  pose proof (keys_unique_app_head scs ocs k v Hu) as Hnone. rewrite Hnone.
  unfold set_child. rewrite Hk. cbn [lift_result]. unfold assign_child, has_child.
  rewrite Hnone. rewrite IH.
  - now rewrite <- app_assoc.
  - now rewrite <- app_assoc.
  - exact Hs.
Qed.

Section PlainLoop.
Variable rec : node -> node -> outcome node.

Lemma ConfigDict_merge_step_other (key key' : component) (value : node) (scs : children) :
key <> key' ->
get_child (final_state (ConfigDict_merge_step rec key value scs)) key' = get_child scs key'.
Proof.
intros Hne. unfold ConfigDict_merge_step, set_child.
assert (Hset : get_child (final_state (lift_result scs
                  (if shadows_class_attribute key then Raise ValueError
                   else Ok (assign_child key value scs)))) key' = get_child scs key').
{ destruct (shadows_class_attribute key); cbn [lift_result final_state]; [reflexivity|].
  rewrite get_child_assign. now rewrite decide_False. }
destruct (get_child scs key) as [child|]; [|exact Hset].
destruct (is_leaf_attribute child) as [attr|e]; [|reflexivity].
destruct (negb (truthy attr)); [|exact Hset].
destruct (rec child value); cbn [final_state]; rewrite get_child_replace;
  now rewrite decide_False.
Qed.

Lemma ConfigDict_merge_step_keeps (key k : component) (value : node) (scs : children) :
has_child scs k = true ->
has_child (final_state (ConfigDict_merge_step rec key value scs)) k = true.
Proof.
intros Hk. destruct (decide (key = k)) as [->|Hne].
- unfold ConfigDict_merge_step, set_child, has_child in *.
  destruct (get_child scs k) as [child|] eqn:Hc; [|discriminate].
  assert (Hset : match get_child (final_state (lift_result scs
                    (if shadows_class_attribute k then Raise ValueError
                     else Ok (assign_child k value scs)))) k with
                 | Some _ => true | None => false end = true).
  { destruct (shadows_class_attribute k); cbn [lift_result final_state]; [now rewrite Hc|].
    rewrite get_child_assign. now rewrite decide_True. }
  destruct (is_leaf_attribute child) as [attr|e]; cbn [final_state]; [|now rewrite Hc].
  destruct (negb (truthy attr)); [|exact Hset].
  destruct (rec child value); cbn [final_state]; rewrite get_child_replace;
    unfold has_child; rewrite Hc; now rewrite decide_True.
- unfold has_child in *. now rewrite ConfigDict_merge_step_other.
Qed.

Lemma ConfigDict_merge_loop_preserves (P : children -> Prop) (ocs : children) :
(forall key value scs, P scs -> P (final_state (ConfigDict_merge_step rec key value scs))) ->
forall scs, P scs -> P (final_state (ConfigDict_merge_loop rec ocs scs)).
Proof.
intros Hstep. induction ocs as [|[key value] ocs IH]; intros scs HP; [exact HP|].
cbn [ConfigDict_merge_loop].
pose proof (Hstep key value scs HP) as H1.
destruct (ConfigDict_merge_step rec key value scs) as [scs1|e scs1]; cbn [final_state] in *.
- now apply IH.
- exact H1.
Qed.

Lemma ConfigDict_merge_loop_other_keys (key : component) (ocs : children) :
get_child ocs key = None ->
forall scs, get_child (final_state (ConfigDict_merge_loop rec ocs scs)) key = get_child scs key.
Proof.
induction ocs as [|[k v] ocs IH]; intros Hnone scs; [reflexivity|].
cbn [get_child] in Hnone. destruct (decide (k = key)) as [|Hne]; [discriminate|].
cbn [ConfigDict_merge_loop].
pose proof (ConfigDict_merge_step_other k key v scs Hne) as Hstep.
destruct (ConfigDict_merge_step rec k v scs) as [scs1|e scs1]; cbn [final_state] in *.
- now rewrite IH.
- exact Hstep.
Qed.

Lemma ConfigDict_merge_loop_split (key : component) (value : node) (ocs : children) :
keys_unique ocs = true ->
get_child ocs key = Some value ->
forall scs scs',
  ConfigDict_merge_loop rec ocs scs = Returned scs' ->
  exists scs0 scs1,
    get_child scs0 key = get_child scs key
    /\ ConfigDict_merge_step rec key value scs0 = Returned scs1
    /\ get_child scs' key = get_child scs1 key.
Proof.
induction ocs as [|[k v] ocs IH]; intros Hu Hget scs scs' Hloop; [discriminate|].
cbn [keys_unique] in Hu. apply andb_prop in Hu as [Hk Hu].
cbn [get_child] in Hget. cbn [ConfigDict_merge_loop] in Hloop.
destruct (ConfigDict_merge_step rec k v scs) as [scs1|e scs1] eqn:Hstep; [|discriminate].
destruct (decide (k = key)) as [->|Hne].
- injection Hget as ->. exists scs, scs1. split_conj; [reflexivity | assumption |].
  pose proof (ConfigDict_merge_loop_other_keys key ocs) as Ho.
  apply negb_true_iff in Hk. unfold has_child in Hk.
  destruct (get_child ocs key) eqn:Hg; [discriminate|].
  specialize (Ho eq_refl scs1). now rewrite Hloop in Ho.
- destruct (IH Hu Hget scs1 scs' Hloop) as (scs0 & scs2 & H0 & H1 & H2).
  exists scs0, scs2. split_conj; [|assumption..].
  rewrite H0. pose proof (ConfigDict_merge_step_other k key v scs Hne) as Ho.
  now rewrite Hstep in Ho.
Qed.

End PlainLoop.

End ShapeFacts.

Section TreeProperties.
Import Tree Shape.

(** X11. [has_priority_over] without [if_equal] is a strict order on
    priorities (irreflexive, asymmetric, transitive), and with [if_equal]
    it is the converse of its negation: of two nodes exactly one of
    [a.has_priority_over(b)] and [b.has_priority_over(a, if_equal=True)]
    holds. *)
Theorem has_priority_over_is_a_strict_order (a b c : flags) :
  Flags.has_priority_over a a false = false
  /\ (Flags.has_priority_over a b false = true -> Flags.has_priority_over b a false = false)
  /\ (Flags.has_priority_over a b false = true -> Flags.has_priority_over b c false = true ->
      Flags.has_priority_over a c false = true)
  /\ Flags.has_priority_over b a true = negb (Flags.has_priority_over a b false).
Proof.
  unfold Flags.has_priority_over.
  destruct (Z.eqb_spec (Flags.priority a) (Flags.priority a)); [|congruence].
  destruct (Z.eqb_spec (Flags.priority a) (Flags.priority b));
    destruct (Z.eqb_spec (Flags.priority b) (Flags.priority a));
    destruct (Z.eqb_spec (Flags.priority b) (Flags.priority c));
    destruct (Z.eqb_spec (Flags.priority a) (Flags.priority c));
    rewrite ?Z.gtb_ltb; split_conj; try reflexivity; try discriminate; try lia;
    rewrite ?negb_true_iff, ?Z.ltb_lt, ?Z.ltb_nlt; try lia;
    try (intros; lia).
  all: try (apply eq_true_iff_eq; rewrite negb_true_iff, Z.ltb_lt, Z.ltb_nlt; lia).
Qed.

Lemma has_priority_over_is_a_strict_order_witness :
  Flags.has_priority_over (priority_flags FORCE) (priority_flags WEAK) false = true.
Proof.
  refine (proj1 (proj2 (proj2 (has_priority_over_is_a_strict_order
            (priority_flags FORCE) (priority_flags STANDARD) (priority_flags WEAK)))) _ _);
    reflexivity.
Defined.

(** X13. Every node that survives [filter_nodes] was accepted by the
    condition: a node found in the filtered tree at a non-empty path is
    the filtered form of the node that was at that path, and the
    condition holds of that node and its full path. *)
Theorem filter_nodes_survivors_were_accepted
    (condition : list component -> node -> bool) (prefix path : list component)
    (self n' : node) :
  path <> [] ->
  Tree.get_node (filter_nodes condition prefix self) path = Some n' ->
  exists n, Tree.get_node self path = Some n
            /\ condition (prefix ++ path) n = true
            /\ n' = filter_nodes condition (prefix ++ path) n.
Proof. apply filter_nodes_survivor. Qed.

Lemma filter_nodes_survivors_were_accepted_witness :
  exists n,
    Tree.get_node (Dict no_flags [(Name "a", Scalar no_flags (NInt 1))]) [Name "a"] = Some n
    /\ accept_all ([] ++ [Name "a"]) n = true
    /\ Scalar no_flags (NInt 1) = filter_nodes accept_all ([] ++ [Name "a"]) n.
Proof.
  apply (filter_nodes_survivors_were_accepted accept_all [] [Name "a"]
           (Dict no_flags [(Name "a", Scalar no_flags (NInt 1))]));
    [discriminate | reflexivity].
Defined.

(** X14. The two constant conditions: a condition that rejects every node
    empties a composed node, keeping its flags; a condition that accepts
    every node changes nothing in a tree in which no composed node below
    the root is empty (an empty one is removed although accepted). *)
Theorem filter_nodes_constant_conditions (prefix : list component) :
  (forall fl cs, filter_nodes reject_all prefix (Dict fl cs) = Dict fl [])
  /\ (forall self, no_empty_dict self = true -> filter_nodes accept_all prefix self = self)
  /\ (forall fl k efl,
        filter_nodes accept_all prefix (Dict fl [(k, Dict efl [])]) = Dict fl []).
Proof.
  split_conj.
  - intros fl cs. apply filter_nodes_reject_all.
  - intros self Hne. now apply filter_nodes_accept_all.
  - intros fl k efl. cbn. unfold remove_child. cbn.
    now destruct (bool_decide_reflect (k = k)).
Qed.

Lemma filter_nodes_constant_conditions_witness :
  filter_nodes accept_all []
    (Dict no_flags [(Name "a", Dict no_flags [(Name "b", Scalar no_flags (NInt 1))])])
  = Dict no_flags [(Name "a", Dict no_flags [(Name "b", Scalar no_flags (NInt 1))])].
Proof.
  apply (proj1 (proj2 (filter_nodes_constant_conditions []))). reflexivity.
Defined.



(** X16. [merge] leaves alone what the source does not mention: when the
    source is not in delete mode, a key of the destination that the source
    does not have holds the same child after the merge, also when the merge
    raises. *)
Theorem merge_leaves_unmentioned_keys (dfl ofl : flags) (dcs ocs : children) (k : component) :
  Flags.delete ofl = false ->
  get_child ocs k = None ->
  Tree.get_node (final_state (merge (Dict dfl dcs) (Dict ofl ocs))) [k]
  = Tree.get_node (Dict dfl dcs) [k].
Proof.
  intros Hdel Hk. rewrite merge_Dict. unfold prune, delete. cbn [node_flags].
  rewrite Hdel, final_state_map. cbn [Tree.get_node].
  now rewrite merge_loop_other_keys.
Qed.

Lemma merge_leaves_unmentioned_keys_witness :
  Tree.get_node
    (final_state (merge (Dict no_flags [(Name "x", Scalar no_flags (NInt 1))])
                        (Dict no_flags [(Name "y", Scalar no_flags (NInt 2))])))
    [Name "x"]
  = Tree.get_node (Dict no_flags [(Name "x", Scalar no_flags (NInt 1))]) [Name "x"].
Proof. apply merge_leaves_unmentioned_keys; reflexivity. Defined.

(** X17. Merging into an empty destination copies the children of the
    source, in their order: the destination keeps its own flags and
    receives every child as it is, whatever the flags of the source and of
    its children. *)
Theorem merge_into_empty_destination (dfl ofl : flags) (ocs : children) :
  keys_unique ocs = true ->
  forallb (fun kv => negb (shadows_class_attribute (fst kv))) ocs = true ->
  merge (Dict dfl []) (Dict ofl ocs) = Returned (Dict dfl ocs).
Proof.
  intros Hu Hs. rewrite merge_Dict.
  assert (Hp : prune (Dict dfl []) (Dict ofl ocs) = Dict dfl []).
  { unfold prune. now destruct (delete (Dict ofl ocs)). }
  rewrite Hp, (merge_loop_appends merge ocs [] Hu Hs). reflexivity.
Qed.

Lemma merge_into_empty_destination_witness :
  merge (Dict no_flags [])
        (Dict del_flags [(Name "a", Scalar not_new_flags (NInt 1)); (Index 0, Scalar del_flags NNone)])
  = Returned (Dict no_flags [(Name "a", Scalar not_new_flags (NInt 1));
                             (Index 0, Scalar del_flags NNone)]).
Proof. apply merge_into_empty_destination; reflexivity. Defined.

(** X18. [merge] never changes the flags of the destination node itself:
    priority, delete and the other flags of the source root are not
    copied, whether the merge returns or raises. *)
Theorem merge_keeps_destination_flags (self other : node) :
  node_flags (final_state (merge self other)) = node_flags self.
Proof.
  destruct other as [ofl ov | ofl ocs]; [reflexivity|].
  rewrite merge_Dict. destruct self as [fl v | fl cs].
  - unfold prune. now destruct (delete (Dict ofl ocs)).
  - destruct (prune_Dict fl cs (Dict ofl ocs)) as [pruned ->].
    now rewrite final_state_map.
Qed.

(** X19. [merge] recurses into composed children: when destination and
    source both hold a composed child under a key (the source not being in
    delete mode) and the merge returns, the recursive merge of the two
    children returned as well, and the key holds its result, unless that
    result is empty and has no priority over the source child, in which
    case the key is removed. *)
Theorem merge_recurses_into_composed_children
    (dfl ofl : flags) (dcs ocs : children) (key : component) (c v dst' : node) :
  keys_unique ocs = true -> Flags.delete ofl = false ->
  get_child dcs key = Some c -> is_leaf c = false ->
  get_child ocs key = Some v -> is_leaf v = false ->
  merge (Dict dfl dcs) (Dict ofl ocs) = Returned dst' ->
  exists r,
    merge c v = Returned r
    /\ Tree.get_node dst' [key]
       = if negb (truthy r) && negb (has_priority_over r v false) then None else Some r.
Proof.
  intros Hu Hdel Hc Hcl Hv Hvl Hm. rewrite merge_Dict in Hm.
  unfold prune, delete in Hm. cbn [node_flags] in Hm. rewrite Hdel in Hm.
  destruct (merge_loop merge ocs dcs) as [scs'|] eqn:Hloop; [|discriminate].
  injection Hm as <-.
  destruct (merge_loop_split merge key v ocs Hu Hv dcs scs' Hloop)
    as (scs0 & scs1 & H0 & Hstep & H1).
  rewrite Hc in H0. cbn [Tree.get_node]. rewrite H1.
  unfold merge_step in Hstep. rewrite H0, Hcl in Hstep.
  pose proof (merge_ends_well v c Hcl Hvl) as Hends.
  assert (Hh : has_child scs0 key = true) by (unfold has_child; now rewrite H0).
  destruct (merge c v) as [r|e c1]; cbn [ends_well] in Hends.
  - exists r. split; [reflexivity|].
    destruct (negb (truthy r) && negb (has_priority_over r v false));
      injection Hstep as <-.
    + rewrite get_child_remove. now rewrite decide_True.
    + rewrite get_child_replace, Hh. now rewrite decide_True.
  - destruct Hends as [-> _]. discriminate Hstep.
Qed.

Lemma merge_recurses_into_composed_children_witness :
  exists r,
    merge (Dict no_flags [(Name "x", Scalar no_flags (NInt 1))])
          (Dict no_flags [(Name "y", Scalar no_flags (NInt 2))]) = Returned r
    /\ Tree.get_node
         (Dict no_flags [(Name "a", Dict no_flags [(Name "x", Scalar no_flags (NInt 1));
                                                   (Name "y", Scalar no_flags (NInt 2))])])
         [Name "a"]
       = if negb (truthy r)
            && negb (has_priority_over r (Dict no_flags [(Name "y", Scalar no_flags (NInt 2))])
                       false)
         then None else Some r.
Proof.
  apply (merge_recurses_into_composed_children no_flags no_flags
           [(Name "a", Dict no_flags [(Name "x", Scalar no_flags (NInt 1))])]
           [(Name "a", Dict no_flags [(Name "y", Scalar no_flags (NInt 2))])]
           (Name "a")); reflexivity.
Defined.



End TreeProperties.
Section PassesFacts.
Import Heap Passes.

Variable map_fn : heap -> list component -> addr -> pyobj.
Variable cache_results : bool.
Variable leafs_only : bool.
Hypothesis Hself : returns_self map_fn.

Lemma cache_put_identity (child : addr) (st : state) :
  cache_identity st -> cache_identity (cache_put child (PNode child) st).
Proof.
  intros Hci a r. unfold cache_put. cbn [st_cache].
  destruct (decide (a = child)) as [->|Hne].
  - rewrite lookup_insert_eq. congruence.
  - rewrite lookup_insert_ne by congruence. apply Hci.
Qed.

Lemma identity_children (map_child : addr -> list component -> state -> run pyobj)
    (prefix : list component) :
  (forall child path st, cache_identity st ->
                         unchanged_run (st_heap st) child (map_child child path st)) ->
  forall cs trs st,
    cache_identity st ->
    match map_children map_fn cache_results map_child prefix cs trs st with
    | OutOfFuel => True
    | Raises _ st' => st_heap st' = st_heap st /\ cache_identity st'
    | Returns trs' st' => trs' = trs /\ st_heap st' = st_heap st /\ cache_identity st'
    end.
Proof.
  intros Hchild. induction cs as [|[name child] cs IH]; intros trs st Hci.
  { cbn [map_children]. auto. }
  cbn [map_children].
  assert (Hvisit : unchanged_run (st_heap st) child
                     (visit_child map_fn cache_results map_child prefix name child st)).
  { unfold visit_child.
    destruct (if cache_results then st_cache st !! child else None) as [cached|] eqn:Hc.
    - cbn [unchanged_run]. split_conj; [|reflexivity|exact Hci].
      destruct cache_results; [|discriminate]. exact (Hci child cached Hc).
    - destruct (st_heap st !! child) as [[fl [v|ccs]]|].
      + unfold apply_fn. cbn [unchanged_run st_heap]. rewrite Hself. auto.
      + now apply Hchild.
      + cbn [unchanged_run]. auto. }
  destruct (visit_child map_fn cache_results map_child prefix name child st)
    as [|e st1|ret st1]; cbn [unchanged_run] in Hvisit; [exact I | exact Hvisit |].
  destruct Hvisit as (-> & Hheap & Hci1).
  cbn [is_same]. rewrite Nat.eqb_refl.
  set (st2 := if cache_results then cache_put child (PNode child) st1 else st1).
  assert (Hst2 : st_heap st2 = st_heap st /\ cache_identity st2).
  { unfold st2. destruct cache_results; [|auto]. split; [exact Hheap|].
    now apply cache_put_identity. }
  destruct Hst2 as [Hheap2 Hci2]. specialize (IH trs st2 Hci2).
  destruct (map_children map_fn cache_results map_child prefix cs trs st2);
    [exact I | |]; rewrite <- Hheap2; exact IH.
Qed.

Lemma identity_pass (fuel : nat) :
  forall self prefix st,
    cache_identity st ->
    unchanged_run (st_heap st) self
      (map_nodes map_fn cache_results leafs_only fuel self prefix st).
Proof.
  induction fuel as [|fuel IH]; intros self prefix st Hci; [exact I|].
  cbn [map_nodes]. destruct (children_of (st_heap st) self) as [cs|].
  2:{ cbn [unchanged_run]. auto. }
  pose proof (identity_children (map_nodes map_fn cache_results leafs_only fuel) prefix
                (fun child path st0 => IH child path st0) cs [] st Hci) as Hloop.
  destruct (map_children map_fn cache_results
              (map_nodes map_fn cache_results leafs_only fuel) prefix cs [] st)
    as [|e st1|trs st1]; [exact I | exact Hloop |].
  destruct Hloop as (-> & Hheap & Hci1). cbn [re_set].
  destruct leafs_only; [cbn [unchanged_run]; auto|].
  unfold apply_fn. cbn [unchanged_run st_heap]. rewrite Hself. auto.
Qed.

End PassesFacts.

Section NamedChildrenFacts.
Import Heap Passes.

Lemma named_children_from_spec (cs : list (component * addr)) :
  forall memo : gset addr,
    NoDup (map snd (named_children_from false memo cs))
    /\ (forall c, c ∈ map snd (named_children_from false memo cs) ->
                  (c ∉ memo) /\ c ∈ map snd cs)
    /\ (forall c, c ∈ map snd cs ->
                  c ∈ memo \/ c ∈ map snd (named_children_from false memo cs))
    /\ sublist (named_children_from false memo cs) cs.
Proof.
  induction cs as [|[name child] cs IH]; intros memo; cbn [named_children_from map snd].
  { split_conj; [constructor | | | constructor].
    - intros c Hc. now apply elem_of_nil in Hc.
    - intros c Hc. now apply elem_of_nil in Hc. }
  destruct (bool_decide_reflect (child ∈ memo)) as [Hin|Hout].
  - destruct (IH memo) as (Hnd & Hsub & Hsup & Hsl). split_conj.
    + exact Hnd.
    + intros c Hc. destruct (Hsub c Hc) as [H1 H2]. split; [exact H1|].
      apply elem_of_cons. now right.
    + intros c Hc. apply elem_of_cons in Hc as [->|Hc]; [now left | now apply Hsup].
    + now apply sublist_cons.
  - destruct (IH ({[child]} ∪ memo)) as (Hnd & Hsub & Hsup & Hsl).
    cbn [map snd]. split_conj.
    + constructor; [|exact Hnd]. intros Hc. destruct (Hsub child Hc) as [H1 _].
      apply H1. apply elem_of_union. left. now apply elem_of_singleton.
    + intros c Hc. apply elem_of_cons in Hc as [->|Hc].
      * split; [exact Hout | apply elem_of_cons; now left].
      * destruct (Hsub c Hc) as [H1 H2]. split.
        -- intros Hm. apply H1. apply elem_of_union. now right.
        -- apply elem_of_cons. now right.
    + intros c Hc. apply elem_of_cons in Hc as [->|Hc].
      * right. apply elem_of_cons. now left.
      * destruct (Hsup c Hc) as [Hm|Hr].
        -- apply elem_of_union in Hm as [Hm|Hm].
           ++ apply elem_of_singleton in Hm as ->. right. apply elem_of_cons. now left.
           ++ now left.
        -- right. apply elem_of_cons. now right.
    + now apply sublist_skip.
Qed.

(** An entry is yielded exactly when it is the first entry that holds its
    object, and the object was not seen before. *)
Lemma named_children_from_first (cs : list (component * addr)) :
  forall (memo : gset addr) (n : component) (c : addr),
    (n, c) ∈ named_children_from false memo cs
    <-> exists l1 l2, cs = l1 ++ (n, c) :: l2 /\ (c ∉ map snd l1) /\ (c ∉ memo).
Proof.
  induction cs as [|[n0 c0] cs IH]; intros memo n c; cbn [named_children_from].
  { split.
    - intros H. now apply elem_of_nil in H.
    - intros (l1 & l2 & H & _). now destruct l1. }
  destruct (bool_decide_reflect (c0 ∈ memo)) as [Hin|Hout].
  - rewrite IH. split.
    + intros (l1 & l2 & -> & Hl1 & Hm). exists ((n0, c0) :: l1), l2.
      split_conj; [reflexivity | | exact Hm].
      cbn [map snd]. intros [->|H]%elem_of_cons; [contradiction | now apply Hl1].
    + intros (l1 & l2 & Heq & Hl1 & Hm). destruct l1 as [|x l1].
      * cbn [app] in Heq. inversion Heq; subst. contradiction.
      * cbn [app] in Heq. inversion Heq; subst. exists l1, l2.
        split_conj; [reflexivity | | exact Hm].
        intros H. apply Hl1. cbn [map]. apply elem_of_cons. now right.
  - rewrite elem_of_cons, IH. split.
    + intros [Heq | (l1 & l2 & -> & Hl1 & Hm)].
      * inversion Heq; subst. exists [], cs.
        split_conj; [reflexivity | cbn [map]; apply not_elem_of_nil | exact Hout].
      * exists ((n0, c0) :: l1), l2. split_conj; [reflexivity | |].
        -- cbn [map snd]. intros [->|H]%elem_of_cons; [|now apply Hl1].
           apply Hm. apply elem_of_union. left. now apply elem_of_singleton.
        -- intros H. apply Hm. apply elem_of_union. now right.
    + intros (l1 & l2 & Heq & Hl1 & Hm). destruct l1 as [|x l1].
      * cbn [app] in Heq. inversion Heq; subst. now left.
      * cbn [app] in Heq. inversion Heq; subst. right. exists l1, l2.
        split_conj; [reflexivity | |].
        -- intros H. apply Hl1. cbn [map]. apply elem_of_cons. now right.
        -- intros [H|H]%elem_of_union; [|contradiction].
           apply elem_of_singleton in H as ->. apply Hl1. cbn [map snd].
           apply elem_of_cons. now left.
Qed.

Lemma named_children_from_all (cs : list (component * addr)) (memo : gset addr) :
  named_children_from true memo cs = cs.
Proof.
  induction cs as [|[name child] cs IH]; [reflexivity|].
  cbn [named_children_from]. now rewrite IH.
Qed.

End NamedChildrenFacts.

Section PassesProperties.
Import Heap Passes.

(** X21. [premerge] and [preprocess] with the default hooks of
    [ConfigNode], which return every node as it is, change nothing: a run
    that returns gives the node it was called on and leaves the heap as
    it was, a run that raises leaves the heap as it was too; and on a heap
    without cycles in which every child is present and no name is refused,
    enough fuel makes the run return. *)
Theorem premerge_and_preprocess_change_nothing
    (rank : addr -> nat) (h : heap) (self : addr) (fuel : nat) :
  (forall ret st, premerge fuel h self = Returns ret st -> ret = PNode self /\ st_heap st = h)
  /\ (forall e st, premerge fuel h self = Raises e st -> st_heap st = h)
  /\ (forall ret st, preprocess fuel h self = Returns ret st ->
                     ret = PNode self /\ st_heap st = h)
  /\ (forall e st, preprocess fuel h self = Raises e st -> st_heap st = h)
  /\ (acyclic rank h -> dicts_well_formed h -> closed h -> no_shadowing h ->
      is_Some (children_of h self) -> rank self < fuel ->
      exists st, premerge fuel h self = Returns (PNode self) st /\ st_heap st = h).
Proof.
  assert (Hci : cache_identity (init_state h)).
  { intros a r Ha. cbn in Ha. now rewrite lookup_empty in Ha. }
  assert (Hrun : forall map_fn, returns_self map_fn ->
            unchanged_run h self (map_nodes map_fn true false fuel self [] (init_state h))).
  { intros map_fn Hret. exact (identity_pass map_fn true false Hret fuel self [] _ Hci). }
  assert (Hpre : returns_self on_premerge) by (intros ? ? ?; reflexivity).
  assert (Hpp : returns_self on_preprocess) by (intros ? ? ?; reflexivity).
  pose proof (Hrun on_premerge Hpre) as H1. pose proof (Hrun on_preprocess Hpp) as H2.
  fold (premerge fuel h self) in H1. fold (preprocess fuel h self) in H2.
  split_conj.
  - intros ret st Hr. rewrite Hr in H1. cbn [unchanged_run] in H1. tauto.
  - intros e st Hr. rewrite Hr in H1. cbn [unchanged_run] in H1. tauto.
  - intros ret st Hr. rewrite Hr in H2. cbn [unchanged_run] in H2. tauto.
  - intros e st Hr. rewrite Hr in H2. cbn [unchanged_run] in H2. tauto.
  - intros Hacyclic Hwf Hclosed Hnames Hroot Hfuel.
    assert (Hempty : forall a : addr, st_cache (init_state h) !! a = None)
      by (intros a; apply lookup_empty).
    destruct (map_nodes_returns rank h on_premerge false Hacyclic Hwf
                ltac:(intros ? ? a; exists a; reflexivity) Hclosed Hnames
                fuel self [] (init_state h) Hfuel Hroot (Hempty self))
      as (ret & st & Hr).
    + intros a _. reflexivity.
    + intros a r Ha. now rewrite Hempty in Ha.
    + intros d [r Hr]. now rewrite Hempty in Hr.
    + split; [constructor | intros a Ha; now apply elem_of_nil in Ha].
    + intros a Ha. exact Ha.
    + fold (premerge fuel h self) in Hr. rewrite Hr in H1. cbn [unchanged_run] in H1.
      destruct H1 as (-> & Hh & _). eauto.
Qed.

Lemma premerge_and_preprocess_change_nothing_witness :
  exists st, premerge 3 nested_heap 0 = Returns (PNode 0) st /\ st_heap st = nested_heap.
Proof.
  apply (premerge_and_preprocess_change_nothing nested_rank nested_heap 0 3).
  - intros [|[|[|a]]] cs name c Hcs Hin; try discriminate; injection Hcs as <-.
    + destruct Hin as [[= _ <-]|[[= _ <-]|[]]]; cbn; lia.
    + destruct Hin as [[= _ <-]|[]]; cbn; lia.
  - intros [|[|[|a]]] cs Hcs; try discriminate; injection Hcs as <-; reflexivity.
  - intros [|[|[|a]]] cs name c Hcs Hin; try discriminate; injection Hcs as <-.
    + destruct Hin as [[= _ <-]|[[= _ <-]|[]]]; cbn; eauto.
    + destruct Hin as [[= _ <-]|[]]; cbn; eauto.
  - intros [|[|[|a]]] cs name c Hcs Hin; try discriminate; injection Hcs as <-.
    + destruct Hin as [[= <- _]|[[= <- _]|[]]]; reflexivity.
    + destruct Hin as [[= <- _]|[]]; reflexivity.
  - cbn. eauto.
  - cbn. lia.
Defined.

(** X22. The constructor called on a value that is not a node makes a
    new object and touches no other: it raises [ValueError] exactly when
    the priority passed is not one of [None], [STANDARD], [WEAK], [FORCE];
    otherwise the node it returns was not in the heap before, wraps the
    value, has a priority among [WEAK], [STANDARD], [FORCE], and every
    object that was in the heap is as it was. *)
Theorem constructor_on_native_makes_a_new_node (h : heap) (n : native) (kw : kwargs) :
  (ConfigNode_call h (PNative n) kw = Raise ValueError
   <-> default None (kw_priority kw) ∉ [None; Some STANDARD; Some WEAK; Some FORCE])
  /\ forall a h',
       ConfigNode_call h (PNative n) kw = Ok (a, h') ->
       h !! a = None
       /\ (exists fl, h' !! a = Some (mkObj fl (BScalar n))
                      /\ Flags.priority fl ∈ [WEAK; STANDARD; FORCE])
       /\ forall b o, h !! b = Some o -> h' !! b = Some o.
Proof.
  unfold ConfigNode_call, init_flags.
  destruct (decide (default None (kw_priority kw)
                    ∈ [None; Some STANDARD; Some WEAK; Some FORCE])) as [Hin|Hout].
  - rewrite (bool_decide_true _ Hin). cbn [bind_result]. split.
    + split; [discriminate | contradiction].
    + intros a h' H; injection H as <- <-. split_conj.
      * apply lookup_ge_None. lia.
      * eexists. split; [apply list_lookup_middle; reflexivity|].
        unfold Flags.priority. cbn [_priority].
        rewrite !elem_of_cons in Hin. rewrite !elem_of_cons.
        destruct Hin as [->|[->|[->|[->|Hin]]]]; auto.
        now apply elem_of_nil in Hin.
      * intros b o Hb. now apply lookup_app_l_Some.
  - rewrite (bool_decide_false _ Hout). cbn [bind_result]. split.
    + split; auto.
    + discriminate.
Qed.

Lemma constructor_on_native_makes_a_new_node_witness :
  one_scalar !! 1 = None
  /\ (exists fl, (one_scalar ++ [mkObj no_flags (BScalar (NInt 7))]) !! 1
                  = Some (mkObj fl (BScalar (NInt 7)))
                  /\ Flags.priority fl ∈ [WEAK; STANDARD; FORCE])
  /\ forall b o, one_scalar !! b = Some o ->
                 (one_scalar ++ [mkObj no_flags (BScalar (NInt 7))]) !! b = Some o.
Proof.
  apply (proj2 (constructor_on_native_makes_a_new_node one_scalar (NInt 7) no_kwargs)).
  reflexivity.
Defined.

(** X23. Construction is idempotent: calling the constructor again, with
    the same keyword arguments, on the node that a call returned gives
    that node again and changes nothing. *)
Theorem constructor_is_idempotent (h h' : heap) (value : pyobj) (kw : kwargs) (a : addr) :
  ConfigNode_call h value kw = Ok (a, h') ->
  ConfigNode_call h' (PNode a) kw = Ok (a, h').
Proof.
  assert (Hidem : forall fl, inherit_kwargs kw (inherit_kwargs kw fl) = inherit_kwargs kw fl).
  { intros fl. unfold inherit_kwargs. cbn.
    destruct (kw_priority kw), (kw_implicit_delete kw), (kw_implicit_allow_new kw);
      reflexivity. }
  destruct value as [v|n]; cbn [ConfigNode_call].
  - intros H; injection H as <- <-. do 2 f_equal.
    rewrite list_alter_alter_eq. apply list_alter_ext; [|reflexivity].
    intros o _. unfold set_flags, compose. cbn [o_flags o_body]. now rewrite Hidem.
  - unfold init_flags.
    destruct (bool_decide _); cbn [bind_result]; [|discriminate].
    intros H; injection H as <- <-. do 2 f_equal.
    rewrite alter_app_r_alt by lia. rewrite Nat.sub_diag. cbn [alter list_alter].
    do 2 f_equal. unfold set_flags, inherit_kwargs. cbn.
    destruct (kw_priority kw), (kw_implicit_delete kw), (kw_implicit_allow_new kw);
      reflexivity.
Qed.

Lemma constructor_is_idempotent_witness :
  ConfigNode_call (one_scalar ++ [mkObj no_flags (BScalar (NInt 7))]) (PNode 1) no_kwargs
  = Ok (1, one_scalar ++ [mkObj no_flags (BScalar (NInt 7))]).
Proof.
  apply (constructor_is_idempotent one_scalar _ (PNative (NInt 7))). reflexivity.
Defined.

(** X24. [named_children] and [children] with [allow_duplicates=False]
    yield every distinct child object exactly once, at its first
    occurrence and in the order of the dictionary: an entry is yielded if
    and only if no entry before it holds the same object; with the default
    [allow_duplicates=True] every entry is yielded. *)
Theorem named_children_yields_each_object_once (cs : list (component * addr)) :
  named_children true cs = cs
  /\ NoDup (children false cs)
  /\ (forall c, c ∈ children false cs <-> c ∈ map snd cs)
  /\ sublist (named_children false cs) cs
  /\ (forall n c,
        (n, c) ∈ named_children false cs
        <-> exists l1 l2, cs = l1 ++ (n, c) :: l2 /\ (c ∉ map snd l1)).
Proof.
  destruct (named_children_from_spec cs ∅) as (Hnd & Hsub & Hsup & Hsl).
  unfold children, named_children. split_conj.
  - apply named_children_from_all.
  - exact Hnd.
  - intros c. split.
    + intros Hc. now apply Hsub.
    + intros Hc. destruct (Hsup c Hc) as [Hm|Hr]; [|exact Hr].
      now apply elem_of_empty in Hm.
  - exact Hsl.
  - intros n c. rewrite named_children_from_first. split.
    + intros (l1 & l2 & H1 & H2 & _). eauto.
    + intros (l1 & l2 & H1 & H2). exists l1, l2. split_conj; [assumption..|].
      apply not_elem_of_empty.
Qed.

End PassesProperties.

Section StoreFacts.
Import Tree Store.

Lemma remove_child_absent (name : component) (cs : Tree.children) :
  has_child cs name = false -> remove_child name cs = cs.
Proof.
  unfold has_child, remove_child.
  induction cs as [|[k v] cs IH]; [reflexivity|]. cbn [get_child List.filter fst].
  destruct (decide (k = name)) as [->|Hne]; [discriminate|].
  intros H. rewrite (bool_decide_false _ Hne). cbn [negb]. now rewrite IH.
Qed.

Lemma _set_in_sync (name : component) (value : node) (d : config_dict) :
  in_sync d -> in_sync (state_of (_set name value d)).
Proof.
  unfold in_sync, _set. intros Hd.
  destruct (shadows_class_attribute name); cbn [state_of _children entries];
    [exact Hd | now rewrite Hd].
Qed.

Lemma update_in_sync (other : Tree.children) :
  forall d, in_sync d -> in_sync (state_of (update other d)).
Proof.
  induction other as [|[name item] other IH]; intros d Hd; [exact Hd|].
  cbn [update]. pose proof (_set_in_sync name item d Hd) as Hs.
  destruct (_set name item d) as [v d'|e d']; cbn [state_of] in *; [now apply IH | exact Hs].
Qed.

End StoreFacts.

Section StoreProperties.
Import Tree Store.

(** X25. A [ConfigDict] keeps its two stores, [_children] and the entries
    of the [dict], equal: the constructor makes them equal, and [_set],
    [_del], [clear], [setdefault], [pop], [update] and [_set_value] leave
    them equal, whether they return or raise; so do item assignment and
    item deletion for a name that does not start with an underscore. *)
Theorem ConfigDict_stores_stay_in_sync
    (d : config_dict) (name : component) (value : node) (default : option node)
    (other : Tree.children) :
  in_sync d ->
  in_sync (__init__ other)
  /\ in_sync (state_of (_set name value d))
  /\ in_sync (state_of (_del name d))
  /\ in_sync (clear d)
  /\ in_sync (state_of (setdefault name value d))
  /\ in_sync (state_of (pop name default d))
  /\ in_sync (state_of (update other d))
  /\ in_sync (state_of (_set_value other d))
  /\ (is_private name = false ->
      in_sync (state_of (__setitem__ name value d))
      /\ in_sync (state_of (__delitem__ name d))).
Proof.
  intros Hd.
  assert (Hdel : in_sync (state_of (_del name d))).
  { unfold in_sync in *. unfold _del, dict_delitem. cbn [entries _children].
    destruct (has_child (entries d) name) eqn:Hh; cbn [state_of entries _children].
    - now rewrite Hd.
    - rewrite <- Hd, remove_child_absent by exact Hh. reflexivity. }
  split_conj.
  - reflexivity.
  - now apply _set_in_sync.
  - exact Hdel.
  - reflexivity.
  - unfold setdefault. destruct (negb (__contains__ name d)); [now apply _set_in_sync|].
    unfold dict_getitem. now destruct (get_child (entries d) name).
  - unfold in_sync in *. unfold pop. cbn [entries _children].
    destruct (get_child (entries d) name) as [val|] eqn:Hg.
    + cbn [state_of]. unfold has_child. rewrite <- Hd, Hg. cbn [entries _children].
      reflexivity.
    + destruct default as [val|]; cbn [state_of]; [|exact Hd].
      unfold has_child. rewrite <- Hd, Hg. exact Hd.
  - now apply update_in_sync.
  - unfold _set_value. now apply update_in_sync.
  - intros Hp. unfold __setitem__, __delitem__. rewrite Hp. split; [|exact Hdel].
    pose proof (_set_in_sync name value d Hd) as Hs.
    now destruct (_set name value d).
Qed.

Lemma ConfigDict_stores_stay_in_sync_witness :
  in_sync (state_of (pop (Name "a") None
                         (__init__ [(Name "a", Scalar no_flags (NInt 1));
                                    (Name "b", Scalar no_flags (NInt 2))]))).
Proof.
  refine (proj1 (proj2 (proj2 (proj2 (proj2 (proj2
            (ConfigDict_stores_stay_in_sync
               (__init__ [(Name "a", Scalar no_flags (NInt 1));
                          (Name "b", Scalar no_flags (NInt 2))])
               (Name "a") (Scalar no_flags NNone) None [] _))))))).
  reflexivity.
Defined.

(** X26. While the two stores are equal the ways of reading a
    [ConfigDict] agree: a name is [in] the dictionary exactly when
    subscripting with it returns, the method [__getattr__] (the hook that
    Python calls for an attribute it does not find otherwise) and
    subscripting return the same child, and [setdefault] on a name that is
    present returns that child and changes nothing. *)
Theorem ConfigDict_lookups_agree (d : config_dict) (name : component) (value : node) :
  in_sync d ->
  (__contains__ name d = true <-> exists v, dict_getitem name d = Done v d)
  /\ (forall v, dict_getitem name d = Done v d <-> __getattr__ name d = Done v d)
  /\ (forall v, dict_getitem name d = Done v d -> setdefault name value d = Done v d).
Proof.
  unfold in_sync, __contains__, dict_getitem, __getattr__, setdefault, has_child.
  intros Hd. rewrite Hd. unfold __contains__, has_child.
  destruct (get_child (_children d) name) as [c|] eqn:Hc; split_conj.
  - split; eauto.
  - intros v. tauto.
  - intros v H. cbn [negb]. unfold dict_getitem. now rewrite Hd, Hc.
  - split; [discriminate | intros [v H]; discriminate].
  - intros v. split; discriminate.
  - intros v H. discriminate.
Qed.

Lemma ConfigDict_lookups_agree_witness :
  setdefault (Name "a") (Scalar no_flags (NInt 9))
             (__init__ [(Name "a", Scalar no_flags (NInt 1))])
  = Done (Scalar no_flags (NInt 1)) (__init__ [(Name "a", Scalar no_flags (NInt 1))]).
Proof.
  apply (ConfigDict_lookups_agree (__init__ [(Name "a", Scalar no_flags (NInt 1))])
           (Name "a") (Scalar no_flags (NInt 9)) eq_refl).
  reflexivity.
Defined.

(** X27. Item assignment with a name that starts with an underscore
    writes the entry of the [dict] only: subscripting then returns the
    value, while the name is still not [in] the dictionary and is not a
    child. *)
Theorem ConfigDict_private_item_is_not_a_child
    (d : config_dict) (name : component) (value : node) :
  is_private name = true ->
  exists d',
    __setitem__ name value d = Done tt d'
    /\ dict_getitem name d' = Done value d'
    /\ _children d' = _children d
    /\ __contains__ name d' = __contains__ name d.
Proof.
  intros Hp. unfold __setitem__. rewrite Hp. eexists. split; [reflexivity|].
  unfold dict_getitem, __contains__. cbn [entries _children].
  rewrite get_child_assign. now rewrite decide_True.
Qed.

Lemma ConfigDict_private_item_is_not_a_child_witness :
  exists d',
    __setitem__ (Name "_x") (Scalar no_flags (NInt 1)) (__init__ []) = Done tt d'
    /\ dict_getitem (Name "_x") d' = Done (Scalar no_flags (NInt 1)) d'
    /\ _children d' = _children (__init__ [])
    /\ __contains__ (Name "_x") d' = __contains__ (Name "_x") (__init__ []).
Proof. apply ConfigDict_private_item_is_not_a_child. reflexivity. Defined.

(** X28. [rename_child], which [ConfigDict] inherits unchanged from
    [ComposedNode], renames in [_children] only: after a successful call
    on a dictionary whose stores were equal, the new name is [in] the
    dictionary and the method [__getattr__] returns the child for it, but
    subscripting with the new name raises [KeyError] and the child is
    still subscripted by the old name. *)
Theorem rename_child_leaves_the_dict_entries
    (d d' : config_dict) (old_name new_name : component) (child : node) :
  in_sync d ->
  rename_child old_name new_name d = Done child d' ->
  __contains__ new_name d' = true
  /\ __getattr__ new_name d' = Done child d'
  /\ dict_getitem new_name d' = Failed KeyError d'
  /\ dict_getitem old_name d' = Done child d'
  /\ __contains__ old_name d' = false.
Proof.
  unfold in_sync, rename_child. intros Hd Hr.
  destruct (Nav.rename_child old_name new_name (_children d)) as [[c cs]|e] eqn:Hn;
    [|discriminate].
  injection Hr as -> <-.
  destruct (rename_child_spec old_name new_name (_children d) child cs Hn)
    as (Hold & _ & Hnew & Hgone & _).
  unfold __contains__, __getattr__, dict_getitem, has_child. cbn [_children entries].
  rewrite Hnew, Hgone, Hd, Hold.
  assert (Hnone : get_child (_children d) new_name = None).
  { unfold Nav.rename_child, has_child in Hn. rewrite Hold in Hn. cbn [negb] in Hn.
    now destruct (get_child (_children d) new_name). }
  rewrite Hnone. auto.
Qed.

Lemma rename_child_leaves_the_dict_entries_witness :
  dict_getitem (Name "b")
    (mkDict [(Name "b", Scalar no_flags (NInt 1))] [(Name "a", Scalar no_flags (NInt 1))])
  = Failed KeyError
      (mkDict [(Name "b", Scalar no_flags (NInt 1))] [(Name "a", Scalar no_flags (NInt 1))]).
Proof.
  refine (proj1 (proj2 (proj2 (rename_child_leaves_the_dict_entries
            (__init__ [(Name "a", Scalar no_flags (NInt 1))])
            (mkDict [(Name "b", Scalar no_flags (NInt 1))]
                    [(Name "a", Scalar no_flags (NInt 1))])
            (Name "a") (Name "b") (Scalar no_flags (NInt 1)) _ _)))); reflexivity.
Defined.

End StoreProperties.
